(** * tbp_apis: background-removal and HTML-render services

    A shallow embedding of [segmenting.js], which holds two Express
    programs: the background-removal server (with its simple
    [/api/render] route) and the enhanced render server ([/render],
    [captureHtml], [processHtmlForRendering], [inlineGoogleFonts]).

    JavaScript strings are sequences of UTF-16 code units; the regular
    expressions of the source are run by a backtracking matcher that
    follows the ECMAScript pattern semantics; the handlers are programs
    of a state-and-exception monad over a world that holds the files on
    disk, the open browsers, the response under construction and the
    trace of calls made to the libraries. *)

From Stdlib Require Import ZArith NArith List Bool Ascii String Lia.
From Stdlib Require Import DecimalN DecimalPos DecimalFacts.
From stdpp Require Import base option list gmap.
Import ListNotations.

Set Warnings "-register-all".
Local Open Scope N_scope.

(* ================================================================== *)
(** * JavaScript strings and values *)
(* ================================================================== *)

Module Js.

(** A string is the list of its UTF-16 code units. *)
Definition jsstring := list N.

(** The code units of an ASCII literal of the source. *)
Definition lit (s : string) : jsstring :=
  map N_of_ascii (list_ascii_of_string s).

(** The double quote (U+0022) and the single quote (U+0027). *)
Definition dq : jsstring := [34].
Definition sq : jsstring := [39].

Fixpoint prefix_b (p s : jsstring) : bool :=
  match p, s with
  | [], _ => true
  | a :: p', b :: s' => (a =? b) && prefix_b p' s'
  | _ :: _, [] => false
  end.

(** [split_first p s]: the text before and after the first occurrence of
    [p] in [s] (String.prototype.indexOf, then slicing). *)
Fixpoint split_first (p s : jsstring) : option (jsstring * jsstring) :=
  if prefix_b p s then Some ([], drop (length p) s)
  else match s with
       | [] => None
       | c :: s' =>
           match split_first p s' with
           | Some (b, a) => Some (c :: b, a)
           | None => None
           end
       end.

(** String.prototype.includes. *)
Definition includes (s p : jsstring) : bool :=
  match split_first p s with Some _ => true | None => false end.

Definition is_digit (c : N) : bool := (48 <=? c) && (c <=? 57).

(** The capture that [$n] refers to: an unset capture reads as the empty
    string; [None] when [n] is not the number of a group. *)
Definition capture_ref (captures : list (option jsstring)) (n : N)
  : option jsstring :=
  if (1 <=? n) && (n <=? N.of_nat (length captures))
  then Some (default [] (default None (captures !! (N.to_nat n - 1)%nat)))
  else None.

(** GetSubstitution (ECMAScript 22.1.3.19.1) without named groups:
    [$$], [$&], [$`], [$'], [$n] and [$nn]; any other [$] is literal. *)
Fixpoint get_substitution (matched before after : jsstring)
    (captures : list (option jsstring)) (template : jsstring) : jsstring :=
  let gs := get_substitution matched before after captures in
  match template with
  | [] => []
  | c :: t =>
      if negb (c =? 36) then c :: gs t
      else
        match t with
        | [] => [36]
        | x1 :: t1 =>
            if x1 =? 36 then 36 :: gs t1
            else if x1 =? 38 then matched ++ gs t1
            else if x1 =? 96 then before ++ gs t1
            else if x1 =? 39 then after ++ gs t1
            else if is_digit x1 then
              let one :=
                match capture_ref captures (x1 - 48) with
                | Some x => x ++ gs t1
                | None => 36 :: gs t
                end in
              match t1 with
              | x2 :: t2 =>
                  if is_digit x2 then
                    match capture_ref captures (10 * (x1 - 48) + (x2 - 48)) with
                    | Some x => x ++ gs t2
                    | None => one
                    end
                  else one
              | [] => one
              end
            else 36 :: gs t
        end
  end.

(** String.prototype.replace with a string pattern: the first occurrence
    only, the replacement read as a template. *)
Definition str_replace (s pat repl : jsstring) : jsstring :=
  match split_first pat s with
  | None => s
  | Some (b, a) => b ++ get_substitution pat b a [] repl ++ a
  end.

(** ** Values *)

(** The values a parsed JSON body can hold, with [undefined] for an
    absent field and [NaN] for what [parseInt] returns on a text without
    digits.  A Number is an IEEE double; the model holds the
    integer-valued ones, [JNum n] for the double whose value is the
    integer [n], and the two infinities. *)
Inductive jsval :=
| JUndefined
| JNull
| JBool (b : bool)
| JNum (n : Z)
| JInf (neg : bool)
| JNaN
| JStr (s : jsstring)
| JArr (l : list jsval)
| JObj (fields : list (jsstring * jsval)).

(** ToBoolean. *)
Definition truthy (v : jsval) : bool :=
  match v with
  | JUndefined | JNull | JNaN => false
  | JBool b => b
  | JNum n => negb (n =? 0)%Z
  | JInf _ => true
  | JStr s => match s with [] => false | _ => true end
  | JArr _ | JObj _ => true
  end.

(** [typeof v === 'string']. *)
Definition is_string (v : jsval) : bool :=
  match v with JStr _ => true | _ => false end.

(** A destructuring default [{ x = d }]: used for [undefined] only. *)
Definition or_default (v d : jsval) : jsval :=
  match v with JUndefined => d | _ => v end.

Fixpoint uint_codes (d : Decimal.uint) : jsstring :=
  match d with
  | Decimal.Nil => []
  | Decimal.D0 d => 48 :: uint_codes d
  | Decimal.D1 d => 49 :: uint_codes d
  | Decimal.D2 d => 50 :: uint_codes d
  | Decimal.D3 d => 51 :: uint_codes d
  | Decimal.D4 d => 52 :: uint_codes d
  | Decimal.D5 d => 53 :: uint_codes d
  | Decimal.D6 d => 54 :: uint_codes d
  | Decimal.D7 d => 55 :: uint_codes d
  | Decimal.D8 d => 56 :: uint_codes d
  | Decimal.D9 d => 57 :: uint_codes d
  end.

(** Number.prototype.toString of a natural number, in decimal. *)
Definition nat_to_string (n : N) : jsstring := uint_codes (N.to_uint n).

(** The double nearest to a positive integer, ties going to the even
    significand; [None] when the integer is out of range, which gives
    Infinity.  Up to 2^53 every integer is a double. *)
Definition round_pos (a : Z) : option Z :=
  if (a <=? 2 ^ 53)%Z then Some a
  else
    let q := (Z.log2 a - 52)%Z in
    let m := (a / 2 ^ q)%Z in
    let r := (a mod 2 ^ q)%Z in
    let half := (2 ^ (q - 1))%Z in
    let m' := if (r <? half)%Z then m
              else if (half <? r)%Z then (m + 1)%Z
              else if Z.even m then m else (m + 1)%Z in
    let d := (m' * 2 ^ q)%Z in
    if (2 ^ 1024 <=? d)%Z then None else Some d.

(** The Number value of an integer. *)
Definition to_double (c : Z) : option Z :=
  match c with
  | Z0 => Some 0%Z
  | Zpos _ => round_pos c
  | Zneg p => option_map Z.opp (round_pos (Zpos p))
  end.

Definition rounds_to (c a : Z) : bool :=
  match to_double c with
  | Some d => (d =? a)%Z
  | None => false
  end.

(** The number of decimal digits of a positive integer. *)
Fixpoint count_digits (fuel : nat) (a : Z) : nat :=
  match fuel with
  | O => 1
  | S f => if (a <? 10)%Z then 1 else S (count_digits f (a / 10))
  end.

(** Number::toString, steps 5 and following: the integer with the
    fewest significant digits whose Number value is [a]; of two with as
    few digits the closer to [a], and of two as close the one with the
    even last digit.  [k] is the number of significant digits tried and
    [dg] the number of digits of [a]. *)
Fixpoint shortest_from (fuel k dg : nat) (a : Z) : Z :=
  match fuel with
  | O => a
  | S f =>
      let u := (10 ^ Z.of_nat (dg - k))%Z in
      let lo := (a / u * u)%Z in
      let hi := (lo + u)%Z in
      match rounds_to lo a, rounds_to hi a with
      | true, true =>
          if (a - lo <? hi - a)%Z then lo
          else if (hi - a <? a - lo)%Z then hi
          else if Z.even (lo / u) then lo else hi
      | true, false => lo
      | false, true => hi
      | false, false => shortest_from f (S k) dg a
      end
  end.

(** Seventeen significant digits tell any two doubles apart. *)
Definition shortest (a : Z) : Z :=
  shortest_from 17 1 (count_digits 400 a) a.

Fixpoint drop_zeros (s : jsstring) : jsstring :=
  match s with
  | 48 :: s' => drop_zeros s'
  | _ => s
  end.

(** Number::toString of a positive integer-valued double: up to 2^53
    the decimal digits of the integer; above, the digits of [shortest],
    written out when there are at most 21 of them and in exponent
    notation otherwise. *)
Definition number_text (a : N) : jsstring :=
  if a <=? 2 ^ 53 then nat_to_string a
  else
    let c := Z.to_N (shortest (Z.of_N a)) in
    let digits := nat_to_string c in
    if c <? 10 ^ 21 then digits
    else
      match rev (drop_zeros (rev digits)) with
      | [] => digits
      | d :: more =>
          d :: match more with [] => [] | _ => 46 :: more end
            ++ lit "e+" ++ nat_to_string (N.of_nat (length digits - 1))
      end.

(** Number::toString of an integer-valued double. *)
Definition int_to_string (n : Z) : jsstring :=
  match n with
  | Z0 => [48]
  | Zpos p => number_text (Npos p)
  | Zneg p => 45 :: number_text (Npos p)
  end.

(** ToString. *)
Fixpoint to_string (v : jsval) : jsstring :=
  match v with
  | JUndefined => lit "undefined"
  | JNull => lit "null"
  | JBool true => lit "true"
  | JBool false => lit "false"
  | JNum n => int_to_string n
  | JInf false => lit "Infinity"
  | JInf true => lit "-Infinity"
  | JNaN => lit "NaN"
  | JStr s => s
  | JArr l =>
      (fix join (l : list jsval) : jsstring :=
         match l with
         | [] => []
         | x :: l' =>
             let e := match x with
                      | JUndefined | JNull => []
                      | _ => to_string x
                      end in
             match l' with
             | [] => e
             | _ :: _ => e ++ 44 :: join l'
             end
         end) l
  | JObj _ => lit "[object Object]"
  end.

(** WhiteSpace and LineTerminator code units, which [parseInt] skips. *)
Definition is_space (c : N) : bool :=
  (c =? 9) || (c =? 10) || (c =? 11) || (c =? 12) || (c =? 13) || (c =? 32)
  || (c =? 160) || (c =? 5760) || ((8192 <=? c) && (c <=? 8202))
  || (c =? 8232) || (c =? 8233) || (c =? 8239) || (c =? 8287)
  || (c =? 12288) || (c =? 65279).

Fixpoint skip_spaces (s : jsstring) : jsstring :=
  match s with
  | c :: s' => if is_space c then skip_spaces s' else s
  | [] => []
  end.

(** The value of a digit in the given radix (10 or 16). *)
Definition digit_val (radix c : N) : option N :=
  if (48 <=? c) && (c <=? 57) then Some (c - 48)
  else if (radix =? 16) && (97 <=? c) && (c <=? 102) then Some (c - 87)
  else if (radix =? 16) && (65 <=? c) && (c <=? 70) then Some (c - 55)
  else None.

(** The longest prefix of digits, read in the radix; [None] if empty. *)
Fixpoint read_digits (radix : N) (acc : option N) (s : jsstring) : option N :=
  match s with
  | c :: s' =>
      match digit_val radix c with
      | Some d => read_digits radix (Some (radix * default 0 acc + d)) s'
      | None => acc
      end
  | [] => acc
  end.

(** parseInt(string) with no radix argument, up to the last step: the
    sign and the integer that the digits denote, exact ([mathInt] in the
    language definition); [parseInt] makes it a Number. *)
Definition parse_int_string (s : jsstring) : jsval :=
  let s1 := skip_spaces s in
  let '(neg, s2) :=
    match s1 with
    | 45 :: t => (true, t)
    | 43 :: t => (false, t)
    | _ => (false, s1)
    end in
  let '(radix, s3) :=
    match s2 with
    | 48 :: 120 :: t => (16, t)
    | 48 :: 88 :: t => (16, t)
    | _ => (10, s2)
    end in
  match read_digits radix None s3 with
  | None => JNaN
  | Some n => JNum (if neg : bool then - Z.of_N n else Z.of_N n)%Z
  end.

(** The Number that an integer becomes: the nearest double, or an
    infinity. *)
Definition to_number (v : jsval) : jsval :=
  match v with
  | JNum n =>
      match to_double n with
      | Some d => JNum d
      | None => JInf (n <? 0)%Z
      end
  | _ => v
  end.

(** parseInt(v): the argument is first converted to a string, and the
    integer read is returned as a Number. *)
Definition parseInt (v : jsval) : jsval :=
  to_number (parse_int_string (to_string v)).

End Js.
Export Js.

(* ================================================================== *)
(** * Regular expressions *)
(* ================================================================== *)

Module Regex.

(** The pattern syntax the source uses.  [Group i] is the capturing
    group whose text [$(i+1)] names; [(?: )] is plain sequencing. *)
Inductive regex :=
| Chr (c : N)                        (* a literal character *)
| Cls (neg : bool) (cs : list N)     (* [..] and [^..] *)
| Dot                                (* . *)
| Eps                                (* the empty pattern *)
| Seq (r1 r2 : regex)
| Star (greedy : bool) (r : regex)   (* r* and r*? *)
| Group (i : nat) (r : regex)
| NegLook (r : regex)                (* (?!r) *)
| WordB.                             (* \b *)

(** A state of the matcher: the code unit before the current position
    (which [\b] reads), the text still ahead and the captures so far. *)
Record mstate := MState {
  prev : option N;
  rest : jsstring;
  caps : list (option jsstring)
}.

(** Canonicalize (ECMAScript 22.2.5.6) for a pattern without the [u]
    flag: under [i] the ASCII letters compare by their upper case, and
    a code unit above 127 never folds onto an ASCII one. *)
Definition canon (ic : bool) (c : N) : N :=
  if ic && (97 <=? c) && (c <=? 122) then c - 32 else c.

Definition is_word (c : N) : bool :=
  ((97 <=? c) && (c <=? 122)) || ((65 <=? c) && (c <=? 90))
  || ((48 <=? c) && (c <=? 57)) || (c =? 95).

Definition line_terminator (c : N) : bool :=
  (c =? 10) || (c =? 13) || (c =? 8232) || (c =? 8233).

(** Consume one code unit that satisfies [p]. *)
Definition step1 (p : N -> bool) (st : mstate)
    (k : mstate -> option mstate) : option mstate :=
  match rest st with
  | x :: xs => if p x then k (MState (Some x) xs (caps st)) else None
  | [] => None
  end.

Definition chr_ok (ic : bool) (c x : N) : bool := canon ic x =? canon ic c.

Definition cls_ok (ic neg : bool) (cs : list N) (x : N) : bool :=
  xorb neg (existsb (fun a => canon ic a =? canon ic x) cs).

(** One round of a quantified pattern must consume something
    (RepeatMatcher, step 2.b). *)
Definition progress (st st' : mstate) : bool :=
  negb (length (rest st') =? length (rest st))%nat.

(** The backtracking matcher, in continuation style as in the language
    definition: [m ic r st k] tries the ways [r] can match at [st], in
    priority order, and returns the first on which [k] succeeds.  A
    quantifier can run at most as many rounds as there are code units
    ahead, which is the fuel of its loop. *)
Fixpoint m (ic : bool) (r : regex) (st : mstate)
    (k : mstate -> option mstate) {struct r} : option mstate :=
  match r with
  | Chr c => step1 (chr_ok ic c) st k
  | Cls neg cs => step1 (cls_ok ic neg cs) st k
  | Dot => step1 (fun x => negb (line_terminator x)) st k
  | Eps => k st
  | Seq r1 r2 => m ic r1 st (fun st' => m ic r2 st' k)
  | Star g r' =>
      (fix loop (n : nat) (st : mstate) {struct n} : option mstate :=
         let iter :=
           match n with
           | O => None
           | S n' =>
               m ic r' st (fun st' =>
                 if progress st st' then loop n' st' else None)
           end in
         if g
         then match iter with Some x => Some x | None => k st end
         else match k st with Some x => Some x | None => iter end)
        (length (rest st)) st
  | Group i r' =>
      m ic r' st (fun st' =>
        k (MState (prev st') (rest st')
             (<[i := Some (take (length (rest st) - length (rest st'))
                             (rest st))]> (caps st'))))
  | NegLook r' =>
      match m ic r' st Some with
      | Some _ => None
      | None => k st
      end
  | WordB =>
      let a := from_option is_word false (prev st) in
      let b := from_option is_word false (head (rest st)) in
      if xorb a b then k st else None
  end.

(** Pattern builders. *)
Definition lits (s : jsstring) : regex :=
  fold_right (fun c r => Seq (Chr c) r) Eps s.
Definition seqs (rs : list regex) : regex := fold_right Seq Eps rs.
Definition star (r : regex) : regex := Star true r.
Definition lazy_star (r : regex) : regex := Star false r.
Definition plus (r : regex) : regex := Seq r (Star true r).
Definition oneof (s : jsstring) : regex := Cls false s.
Definition notin (s : jsstring) : regex := Cls true s.

(** A compiled pattern: its body, the [i] flag and its number of
    capturing groups. *)
Record pattern := Pattern {
  body : regex;
  icase : bool;
  ngroups : nat
}.

(** One attempt at the current position. *)
Definition match_here (pt : pattern) (p : option N) (s : jsstring)
  : option mstate :=
  m (icase pt) (body pt) (MState p s (replicate (ngroups pt) None)) Some.

(** The length of the text a successful attempt on [s] consumed. *)
Definition consumed (s : jsstring) (st' : mstate) : nat :=
  (length s - length (rest st'))%nat.

(** RegExp.prototype.test on a pattern without [g]: is there a position
    at which the pattern matches?  Positions are tried from the left, the
    end of the text included. *)
Fixpoint search (pt : pattern) (p : option N) (s : jsstring) : bool :=
  match match_here pt p s with
  | Some _ => true
  | None =>
      match s with
      | [] => false
      | c :: s' => search pt (Some c) s'
      end
  end.

Definition test (pt : pattern) (s : jsstring) : bool := search pt None s.

(** String.prototype.match on a pattern without [g]: the captures of the
    leftmost match. *)
Fixpoint first_match (pt : pattern) (p : option N) (s : jsstring)
  : option (list (option jsstring)) :=
  match match_here pt p s with
  | Some st' => Some (caps st')
  | None =>
      match s with
      | [] => None
      | c :: s' => first_match pt (Some c) s'
      end
  end.

(** The loop [while ((match = re.exec(s)) !== null) links.push(match[0])]
    on a pattern with [g]: the texts of the successive matches, each
    search starting where the previous match ended.  [skip] counts the
    code units of the current match still to pass.  (A match of length
    zero would leave [lastIndex] in place and the source's loop would not
    end; a pattern that begins with a literal has none, and the scan
    stops there.) *)
Fixpoint exec_all (pt : pattern) (skip : nat) (p : option N) (s : jsstring)
  : list jsstring :=
  match skip with
  | S n =>
      match s with
      | [] => []
      | c :: s' => exec_all pt n (Some c) s'
      end
  | O =>
      match match_here pt p s with
      | Some st' =>
          match s, consumed s st' with
          | c :: s', S n => take (S n) s :: exec_all pt n (Some c) s'
          | _, _ => []
          end
      | None =>
          match s with
          | [] => []
          | c :: s' => exec_all pt 0 (Some c) s'
          end
      end
  end.

(** String.prototype.replace with a [g] pattern and a template: every
    match found scanning from the left is replaced, the search resuming
    at the end of the match (one code unit further after an empty one).
    [before] is the text already passed. *)
Fixpoint replace_scan (pt : pattern) (template : jsstring) (skip : nat)
    (before : jsstring) (p : option N) (s : jsstring) : jsstring :=
  match skip with
  | S n =>
      match s with
      | [] => []
      | c :: s' => replace_scan pt template n (before ++ [c]) (Some c) s'
      end
  | O =>
      match match_here pt p s with
      | Some st' =>
          let out :=
            get_substitution (take (consumed s st') s) before (rest st')
              (caps st') template in
          match s with
          | [] => out
          | c :: s' =>
              match consumed s st' with
              | O => out ++ c :: replace_scan pt template 0 (before ++ [c]) (Some c) s'
              | S n => out ++ replace_scan pt template n (before ++ [c]) (Some c) s'
              end
          end
      | None =>
          match s with
          | [] => []
          | c :: s' => c :: replace_scan pt template 0 (before ++ [c]) (Some c) s'
          end
      end
  end.

Definition replace_all (pt : pattern) (s template : jsstring) : jsstring :=
  replace_scan pt template 0 [] None s.

End Regex.
Export Regex.

(* ================================================================== *)
(** * The world of a request and the monad of the handlers *)
(* ================================================================== *)

Module Eff.

(** A thrown value: an Error with its message and stack, and the
    [status] property an error may carry (Express reads it). *)
Record error := Error {
  message : jsstring;
  stack : jsstring;
  err_status : option nat
}.

(** [new Error(msg)]. *)
Definition new_Error (msg : jsstring) : error := Error msg [] None.

Record viewport := Viewport {
  vp_width : jsval;
  vp_height : jsval;
  vp_deviceScaleFactor : jsval
}.

Record clip := Clip {
  clip_x : jsval;
  clip_y : jsval;
  clip_width : jsval;
  clip_height : jsval
}.

Record launch_options := LaunchOptions {
  headless : jsval;
  defaultViewport : option viewport;
  args : list jsstring
}.

(** The calls a handler makes to the libraries, as the trace records
    them. *)
Inductive event :=
| EWriteFile (path : jsstring)
| EReadFile (path : jsstring)
| ERemoveBackground (input : list N)
| EArrayBuffer
| EUnlink (path : jsstring)
| EFetch (url : jsstring)
| EText
| ELaunch (opts : launch_options)
| ENewPage
| ESetUserAgent (ua : jsstring)
| ESetBypassCSP (on : bool)
| ESetViewport (vp : viewport)
| EEvaluateOnNewDocument
| ESetContent (html : jsval) (timeout : option N)
| EEvaluate
| ETimeout (ms : N)
| EScreenshot (omitBackground : bool) (cl : option clip)
| EPageClose
| EBrowserClose (b : nat).

Inductive body_t :=
| BodyJson (fields : list (jsstring * jsval))
| BodyBytes (bytes : list N)
| BodyHtml (text : jsstring).

(** The response under construction: [res.status], [res.set] and, once
    [res.json] or [res.send] ran, the body. *)
Record response := Response {
  status : nat;
  headers : gmap jsstring jsstring;
  resp_body : option body_t
}.

Definition fresh_response : response := Response 200 ∅ None.

(** What the outside gives on a [fetch]. *)
Inductive fetch_outcome :=
| FetchThrows (e : error)
| FetchResponse (ok : bool) (text : option jsstring).
   (* [text = None]: reading the body fails *)

(** The environment of one run.  Library calls are numbered in the order
    they are made; the environment says which of them throw and what the
    others give. *)
Record env := Env {
  fails : nat -> event -> option error;  (* does the n-th call throw? *)
  net : nat -> jsstring -> fetch_outcome;
  clock : nat -> Z;                   (* Date.now() *)
  fmt_elapsed : Z -> Z -> jsstring;   (* ((end - start) / 1000).toFixed(2) *)
  bg_remove : list N -> list N;       (* the PNG removeBackground gives *)
  render_png : jsval -> list N;       (* the PNG page.screenshot gives *)
  node_env : option jsstring;         (* process.env.NODE_ENV *)
  upload_name : jsstring;             (* the name storage.filename makes up *)
  torn_write : list N -> option (list N)
    (* what a write that fails leaves at its path; [None]: no file *)
}.

(** The state a handler runs in: the disk, the browsers that are open, the
    count of library calls and their trace, the response, and the two
    [let] variables of the handlers, [tempPath] and [browser]. *)
Record world := World {
  fs : gmap jsstring (list N);
  open_browsers : gset nat;
  next_browser : nat;
  tick : nat;
  trace : list event;
  res : response;
  tempPath : option jsstring;
  browser : option nat
}.

Definition with_fs (f : gmap jsstring (list N)) (w : world) : world :=
  World f (open_browsers w) (next_browser w) (tick w) (trace w) (res w)
    (tempPath w) (browser w).
Definition with_res (r : response) (w : world) : world :=
  World (fs w) (open_browsers w) (next_browser w) (tick w) (trace w) r
    (tempPath w) (browser w).
Definition with_tempPath (p : option jsstring) (w : world) : world :=
  World (fs w) (open_browsers w) (next_browser w) (tick w) (trace w) (res w)
    p (browser w).
Definition with_browser (b : option nat) (w : world) : world :=
  World (fs w) (open_browsers w) (next_browser w) (tick w) (trace w) (res w)
    (tempPath w) b.
Definition with_open (o : gset nat) (nb : nat) (w : world) : world :=
  World (fs w) o nb (tick w) (trace w) (res w) (tempPath w) (browser w).
(** Record a library call: it takes the next number. *)
Definition logged (ev : event) (w : world) : world :=
  World (fs w) (open_browsers w) (next_browser w) (S (tick w))
    (trace w ++ [ev]) (res w) (tempPath w) (browser w).

Inductive outcome (A : Type) :=
| Ok (a : A)
| Throw (e : error).
Arguments Ok {A} a.
Arguments Throw {A} e.

Definition M (A : Type) : Type := world -> outcome A * world.

Definition ret {A} (a : A) : M A := fun w => (Ok a, w).
Definition throw {A} (e : error) : M A := fun w => (Throw e, w).
Definition bind {A B} (c : M A) (k : A -> M B) : M B :=
  fun w =>
    match c w with
    | (Ok a, w') => k a w'
    | (Throw e, w') => (Throw e, w')
    end.
(** [try { c } catch (e) { h e }]: what [c] did before it threw stays
    done. *)
Definition try_catch {A} (c : M A) (h : error -> M A) : M A :=
  fun w =>
    match c w with
    | (Ok a, w') => (Ok a, w')
    | (Throw e, w') => h e w'
    end.
Definition get {A} (f : world -> A) : M A := fun w => (Ok (f w), w).
Definition modify (f : world -> world) : M unit := fun w => (Ok tt, f w).

Declare Scope eff_scope.
Delimit Scope eff_scope with eff.
Notation "x <- c ;; k" := (bind c (fun x => k))
  (at level 100, c at next level, k at level 200, right associativity)
  : eff_scope.
Notation "c ;; k" := (bind c (fun _ => k))
  (at level 100, k at level 200, right associativity) : eff_scope.
Local Open Scope eff_scope.

Fixpoint foldM {A B} (f : A -> B -> M A) (a : A) (l : list B) : M A :=
  match l with
  | [] => ret a
  | x :: l' => a' <- f a x ;; foldM f a' l'
  end.

Section Calls.
Context (E : env).

(** A call to a library: recorded, then it throws or not as the
    environment says. *)
Definition ext (ev : event) : M unit :=
  fun w =>
    match fails E (tick w) ev with
    | Some e => (Throw e, logged ev w)
    | None => (Ok tt, logged ev w)
    end.

Definition date_now : M Z := get (fun w => clock E (tick w)).

Definition enoent : error := new_Error (lit "ENOENT: no such file or directory").

(** fs.readFile. *)
Definition readFile (path : jsstring) : M (list N) :=
  ext (EReadFile path) ;;
  f <- get fs ;;
  match f !! path with
  | Some bytes => ret bytes
  | None => throw enoent
  end.

(** fs.unlink: when it throws the file is where it was. *)
Definition unlink (path : jsstring) : M unit :=
  ext (EUnlink path) ;;
  f <- get fs ;;
  match f !! path with
  | Some _ => modify (with_fs (delete path f))
  | None => throw enoent
  end.

(** removeBackground(buffer, options), then [blob.arrayBuffer()]. *)
Definition removeBackground (input : list N) : M (list N) :=
  ext (ERemoveBackground input) ;; ret (bg_remove E input).
Definition arrayBuffer (blob : list N) : M (list N) :=
  ext EArrayBuffer ;; ret blob.

(** fetch(url) and [response.text()]. *)
Definition fetch (url : jsstring) : M (bool * option jsstring) :=
  fun w =>
    match net E (tick w) url with
    | FetchThrows e => (Throw e, logged (EFetch url) w)
    | FetchResponse ok t => (Ok (ok, t), logged (EFetch url) w)
    end.
Definition response_text (r : bool * option jsstring) : M jsstring :=
  modify (logged EText) ;;
  match snd r with
  | Some t => ret t
  | None => throw (new_Error (lit "body unavailable"))
  end.

(** puppeteer.launch: a new browser, open until it is closed. *)
Definition launch (opts : launch_options) : M nat :=
  ext (ELaunch opts) ;;
  b <- get next_browser ;;
  o <- get open_browsers ;;
  modify (with_open ({[b]} ∪ o) (S b)) ;;
  ret b.

(** browser.close(): when it throws the browser is still open. *)
Definition browser_close (b : nat) : M unit :=
  ext (EBrowserClose b) ;;
  modify (fun w => with_open (open_browsers w ∖ {[b]}) (next_browser w) w).

Definition screenshot (content : jsval) (omit : bool) (cl : option clip)
  : M (list N) :=
  ext (EScreenshot omit cl) ;; ret (render_png E content).

(** res.status, res.set, res.json and res.send. *)
Definition res_status (code : nat) : M unit :=
  modify (fun w =>
    with_res (Response code (headers (res w)) (resp_body (res w))) w).
Definition res_set (name value : jsstring) : M unit :=
  modify (fun w =>
    with_res (Response (status (res w)) (<[name := value]> (headers (res w)))
                (resp_body (res w))) w).
Definition res_json (fields : list (jsstring * jsval)) : M unit :=
  modify (fun w =>
    with_res (Response (status (res w)) (headers (res w))
                (Some (BodyJson fields))) w).
Definition res_send (bytes : list N) : M unit :=
  modify (fun w =>
    with_res (Response (status (res w)) (headers (res w))
                (Some (BodyBytes bytes))) w).
Definition res_set_all (l : list (jsstring * jsstring)) : M unit :=
  modify (fun w =>
    with_res (Response (status (res w))
                (fold_left (fun h kv => <[kv.1 := kv.2]> h) l (headers (res w)))
                (resp_body (res w))) w).

(** [process.env.NODE_ENV === 'development']. *)
Definition development : bool :=
  match node_env E with
  | Some v => bool_decide (v = lit "development")
  | None => false
  end.

End Calls.

(** The world a request starts in. *)
Definition initial_world (disk : gmap jsstring (list N)) : world :=
  World disk ∅ 0 0 [] fresh_response None None.

End Eff.
Export Eff.

(* ================================================================== *)
(** * The background-removal server (first program of the file) *)
(* ================================================================== *)

Module BgServer.
Local Open Scope eff_scope.

(** The [image] part of a multipart request. *)
Record upload := Upload {
  fieldname : jsstring;
  originalname : jsstring;
  mimetype : jsstring;
  content : list N
}.

(** [req.file], as multer fills it in. *)
Record file := File {
  file_originalname : jsstring;
  file_mimetype : jsstring;
  file_size : N;
  file_path : jsstring
}.

(** What a filter tells multer: [cb(null, true)] or [cb(error, false)]. *)
Inductive filter_result :=
| Accept
| Reject (e : error).

Definition allowedMimes : list jsstring :=
  [lit "image/jpeg"; lit "image/png"; lit "image/jpg"; lit "image/webp"].

Definition fileFilter (u : upload) : filter_result :=
  if bool_decide (mimetype u ∈ allowedMimes) then Accept
  else Reject (new_Error
         (lit "Invalid file type. Only JPEG, PNG, JPG, and WEBP are allowed.")).

(** [limits.fileSize]. *)
Definition fileSize : N := 10 * 1024 * 1024.

(** What a middleware hands on: [next()] or [next(err)]. *)
Inductive next_t :=
| Next (f : option file)
| NextErr (e : error).

Section Routes.
Context (E : env).

(** [upload.single('image')], the multer middleware as configured at
    lines 18-43, on the file part of the request.  A file under another
    field than [image] is turned down first; then the filter is asked; an
    accepted file is written under [uploads/], and when it reaches
    [limits.fileSize] bytes multer drops what it wrote and passes a
    MulterError on.  The write itself can fail: its error, which as an
    error of the file system carries no [status], is passed on and the
    path holds what the write left. *)
Definition upload_single (part : option upload) : M next_t :=
  match part with
  | None => ret (Next None)
  | Some u =>
      if negb (bool_decide (fieldname u = lit "image"))
      then ret (NextErr (new_Error (lit "Unexpected field")))
      else
      match fileFilter u with
      | Reject e => ret (NextErr e)
      | Accept =>
          if fileSize <=? N.of_nat (length (content u))
          then ret (NextErr (new_Error (lit "File too large")))
          else
            let path := lit "uploads/" ++ upload_name E in
            try_catch
              (ext E (EWriteFile path) ;;
               f <- get fs ;;
               modify (with_fs (<[path := content u]> f)) ;;
               ret (Next (Some (File (originalname u) (mimetype u)
                                  (N.of_nat (length (content u))) path))))
              (fun e =>
                 f <- get fs ;;
                 match torn_write E (content u) with
                 | Some bytes => modify (with_fs (<[path := bytes]> f))
                 | None => ret tt
                 end ;;
                 ret (NextErr (Error (message e) (stack e) None)))
      end
  end.

(** The handler of Express for an error no route took care of (the
    program registers none): the status is the error's own [status] when
    it is a 4xx or 5xx code, else 500. *)
Definition express_default_error (e : error) : M unit :=
  let code :=
    match err_status e with
    | Some n => if (400 <=? n)%nat && (n <? 600)%nat then n else 500%nat
    | None => 500%nat
    end in
  res_status code ;;
  modify (fun w =>
    with_res (Response (status (res w)) (headers (res w))
                (Some (BodyHtml (message e)))) w).

(** The route function of POST /api/remove-background (lines 60-132). *)
Definition remove_background (req_file : option file) : M unit :=
  modify (with_tempPath None) ;;
  try_catch
    (match req_file with
     | None =>
         res_status 400 ;;
         res_json [(lit "error", JStr (lit "No image provided"))]
     | Some f =>
         modify (with_tempPath (Some (file_path f))) ;;
         imageBuffer <- readFile E (file_path f) ;;
         startTime <- date_now E ;;
         resultBlob <- removeBackground E imageBuffer ;;
         endTime <- date_now E ;;
         let processingTime := fmt_elapsed E startTime endTime in
         buffer <- arrayBuffer E resultBlob ;;
         unlink E (file_path f) ;;
         res_set (lit "Content-Type") (lit "image/png") ;;
         res_set (lit "X-Processing-Time") processingTime ;;
         res_send buffer
     end)
    (fun error =>
       tp <- get tempPath ;;
       match tp with
       | Some p => try_catch (unlink E p) (fun _ => ret tt)
       | None => ret tt
       end ;;
       res_status 500 ;;
       res_json
         [(lit "error",
           JStr (lit "Background removal failed. Please try with a different image."));
          (lit "details",
           if development E then JStr (message error) else JUndefined)]).

(** POST /api/remove-background: the middleware, then the route function
    or, on [next(err)], the error handler of Express. *)
Definition post_remove_background (part : option upload) : M unit :=
  r <- upload_single part ;;
  match r with
  | Next f => remove_background f
  | NextErr e => express_default_error e
  end.

(** The JSON body of a render request; a field that is absent reads
    [undefined]. *)
Record render_body := RenderBody {
  html : jsval;
  width : jsval;
  height : jsval;
  deviceScaleFactor : jsval
}.

(** The route function of POST /api/render (lines 137-185). *)
Definition api_render (body : render_body) : M unit :=
  modify (with_browser None) ;;
  try_catch
    (let html := html body in
     let width := or_default (width body) (JNum 1200) in
     let height := or_default (height body) (JNum 630) in
     if negb (truthy html) then
       res_status 400 ;;
       res_json [(lit "error", JStr (lit "HTML content is required"))]
     else
       startTime <- date_now E ;;
       b <- launch E (LaunchOptions (JStr (lit "new")) None
                        [lit "--no-sandbox"; lit "--disable-setuid-sandbox"]) ;;
       modify (with_browser (Some b)) ;;
       ext E ENewPage ;;
       ext E (ESetViewport (Viewport (parseInt width) (parseInt height) JUndefined)) ;;
       ext E (ESetContent html None) ;;
       shot <- screenshot E html false None ;;
       endTime <- date_now E ;;
       let processingTime := fmt_elapsed E startTime endTime in
       browser_close E b ;;
       res_set (lit "Content-Type") (lit "image/png") ;;
       res_set (lit "X-Processing-Time") processingTime ;;
       res_send shot)
    (fun error =>
       b <- get browser ;;
       match b with
       | Some b => browser_close E b
       | None => ret tt
       end ;;
       res_status 500 ;;
       res_json [(lit "error", JStr (lit "Rendering failed"));
                 (lit "details", JStr (message error))]).

End Routes.
End BgServer.
Export BgServer.

(* ================================================================== *)
(** * The enhanced render server (second program of the file) *)
(* ================================================================== *)

Module RenderServer.
Local Open Scope eff_scope.

(** The class of the two quotes, which the source writes as a bracket
    around the double and the single quote; the comments below write
    [Q] for it and [^Q] for its complement. *)
Definition quote : regex := oneof (dq ++ sq).

(** [/<link[^>]+href=Q(https:\/\/fonts\.googleapis\.com\/[^Q]+)Q[^>]*>/gi] *)
Definition linkRegex : pattern :=
  Pattern
    (seqs [lits (lit "<link"); plus (notin (lit ">")); lits (lit "href="); quote;
           Group 0 (seqs [lits (lit "https://fonts.googleapis.com/");
                          plus (notin (dq ++ sq))]);
           quote; star (notin (lit ">")); lits (lit ">")])
    true 1.

(** [/href=Q([^Q]+)Q/i] *)
Definition hrefRegex : pattern :=
  Pattern
    (seqs [lits (lit "href="); quote; Group 0 (plus (notin (dq ++ sq))); quote])
    true 1.

(** [/url\((\/\/fonts\.gstatic\.com[^\)]+)\)/g] *)
Definition gstaticRelative : pattern :=
  Pattern
    (seqs [lits (lit "url(");
           Group 0 (seqs [lits (lit "//fonts.gstatic.com"); plus (notin (lit ")"))]);
           lits (lit ")")])
    false 1.

(** [/url\((https:\/\/fonts\.gstatic\.com[^\)]+)\)/g] *)
Definition gstaticAbsolute : pattern :=
  Pattern
    (seqs [lits (lit "url(");
           Group 0 (seqs [lits (lit "https://fonts.gstatic.com");
                          plus (notin (lit ")"))]);
           lits (lit ")")])
    false 1.

(** [/<link[^>]+rel=QpreconnectQ[^>]+href=Q ORIGIN Q[^>]*>/i], with the
    origin [https:\/\/fonts\.googleapis\.com] or
    [https:\/\/fonts\.gstatic\.com]. *)
Definition preconnectRegex (origin : jsstring) : pattern :=
  Pattern
    (seqs [lits (lit "<link"); plus (notin (lit ">")); lits (lit "rel="); quote;
           lits (lit "preconnect"); quote; plus (notin (lit ">"));
           lits (lit "href="); quote; lits origin; quote;
           star (notin (lit ">")); lits (lit ">")])
    true 0.

Definition googleapis : jsstring := lit "https://fonts.googleapis.com".
Definition gstatic : jsstring := lit "https://fonts.gstatic.com".

(** [/<script\b[^<]*(?:X)*<\/script>/gi], where [X] stands for
    [(?!<\/script>)<[^<]*]. *)
Definition scriptRegex : pattern :=
  Pattern
    (seqs [lits (lit "<script"); WordB; star (notin (lit "<"));
           star (seqs [NegLook (lits (lit "</script>")); lits (lit "<");
                       star (notin (lit "<"))]);
           lits (lit "</script>")])
    true 0.

(** [/<iframe[^>]*>.*?<\/iframe>/gi] *)
Definition iframeRegex : pattern :=
  Pattern
    (seqs [lits (lit "<iframe"); star (notin (lit ">")); lits (lit ">");
           lazy_star Dot; lits (lit "</iframe>")])
    true 0.

(** The two tags the preprocessing adds. *)
Definition link_googleapis : jsstring :=
  lit "<link rel=" ++ dq ++ lit "preconnect" ++ dq ++ lit " href=" ++ dq
  ++ googleapis ++ dq ++ lit ">".
Definition link_gstatic : jsstring :=
  lit "<link rel=" ++ dq ++ lit "preconnect" ++ dq ++ lit " href=" ++ dq
  ++ gstatic ++ dq ++ lit " crossorigin>".

Definition hasPreconnectGoogapis (html : jsstring) : bool :=
  test (preconnectRegex googleapis) html.
Definition hasPreconnectGstatic (html : jsstring) : bool :=
  test (preconnectRegex gstatic) html.

Definition preconnectLinks (html : jsstring) : jsstring :=
  (if hasPreconnectGoogapis html then [] else link_googleapis)
  ++ (if hasPreconnectGstatic html then [] else link_gstatic).

Definition head_close : jsstring := lit "</head>".

(** Lines 311-321: the hints that are missing go before the first
    [</head>], or in front when there is none. *)
Definition with_preconnect (html : jsstring) : jsstring :=
  match preconnectLinks html with
  | [] => html
  | links =>
      if includes html head_close
      then str_replace html head_close (links ++ head_close)
      else links ++ html
  end.

(** Lines 324-326: one pass for the scripts, one for the iframes. *)
Definition strip_embeds (html : jsstring) : jsstring :=
  replace_all iframeRegex (replace_all scriptRegex html []) [].

Definition processHtmlForRendering (html : jsstring) : jsstring :=
  strip_embeds (with_preconnect html).

Definition style_open : jsstring := lit "<style data-inlined-google-fonts>".
Definition style_close : jsstring := lit "</style>".

(** The tag that takes the place of a link whose stylesheet is [css]
    (lines 293-296). *)
Definition styleTag (css : jsstring) : jsstring :=
  let css1 := replace_all gstaticRelative css (lit "url(https:$1)") in
  let css2 := replace_all gstaticAbsolute css1 (lit "url($1)") in
  style_open ++ css2 ++ style_close.

(** [urlMatch?.[1]] *)
Definition href_of (linkTag : jsstring) : option jsstring :=
  match first_match hrefRegex None linkTag with
  | Some captures => default None (captures !! 0%nat)
  | None => None
  end.

Section Routes.
Context (E : env).

(** One round of the loop of [inlineGoogleFonts] (lines 285-299). *)
Definition inline_link (inlined linkTag : jsstring) : M jsstring :=
  match href_of linkTag with
  | None | Some [] => ret inlined
  | Some href =>
      try_catch
        (cssRes <- fetch E href ;;
         if negb (fst cssRes) then ret inlined
         else
           css <- response_text cssRes ;;
           ret (str_replace inlined linkTag (styleTag css)))
        (fun _ => ret inlined)
  end.

Definition inlineGoogleFonts (html : jsstring) : M jsstring :=
  try_catch
    (let links := exec_all linkRegex 0 None html in
     foldM inline_link html links)
    (fun _ => ret html).

Definition user_agent : jsstring :=
  lit "Mozilla/5.0 (Windows NT 10.0; Win64; x64) AppleWebKit/537.36 (KHTML, like Gecko) Chrome/124.0.0.0 Safari/537.36".

(** [captureHtml] (lines 332-450); [html] is a string there. *)
Definition captureHtml (html : jsstring) (width height deviceScaleFactor : jsval)
  : M (list N) :=
  let width := or_default width (JNum 1200) in
  let height := or_default height (JNum 800) in
  let deviceScaleFactor := or_default deviceScaleFactor (JNum 2) in
  modify (with_browser None) ;;
  try_catch
    (cleanHtml <- inlineGoogleFonts (processHtmlForRendering html) ;;
     b <- launch E
            (LaunchOptions (JBool true)
               (Some (Viewport width height deviceScaleFactor))
               [lit "--no-sandbox"; lit "--disable-setuid-sandbox";
                lit "--disable-dev-shm-usage"; lit "--disable-web-security";
                lit "--font-render-hinting=full"; lit "--enable-font-antialiasing";
                lit "--disable-gpu";
                lit "--window-size=" ++ to_string width ++ lit ","
                  ++ to_string height;
                lit "--enable-font-antialiasing=true"; lit "--enable-webgl=true";
                lit "--enable-software-rasterizer=true"]) ;;
     modify (with_browser (Some b)) ;;
     ext E ENewPage ;;
     ext E (ESetUserAgent user_agent) ;;
     ext E (ESetBypassCSP true) ;;
     ext E (ESetViewport (Viewport width height deviceScaleFactor)) ;;
     ext E EEvaluateOnNewDocument ;;
     ext E (ESetContent (JStr cleanHtml) (Some 120000)) ;;
     ext E EEvaluate ;;
     ext E (ETimeout 500) ;;
     buffer <- screenshot E (JStr cleanHtml) true
                 (Some (Clip (JNum 0) (JNum 0) width height)) ;;
     ext E EPageClose ;;
     browser_close E b ;;
     ret buffer)
    (fun error =>
       b <- get browser ;;
       match b with
       | Some b => browser_close E b
       | None => ret tt
       end ;;
       throw error).

(** The text of a value that is a string. *)
Definition string_of (v : jsval) : jsstring :=
  match v with JStr s => s | _ => [] end.

(** The route function of POST /render (lines 453-487). *)
Definition render (body : render_body) : M unit :=
  try_catch
    (let html := html body in
     let width := or_default (width body) (JNum 1200) in
     let height := or_default (height body) (JNum 800) in
     let deviceScaleFactor := or_default (deviceScaleFactor body) (JNum 2) in
     if negb (truthy html) || negb (is_string html) then
       res_status 400 ;;
       res_json [(lit "error", JStr (lit "Invalid html payload"))]
     else
       buffer <- captureHtml (string_of html) width height deviceScaleFactor ;;
       res_set_all
         [(lit "Content-Type", lit "image/png");
          (lit "Cache-Control", lit "no-cache, no-store, must-revalidate");
          (lit "Content-Length", nat_to_string (N.of_nat (length buffer)));
          (lit "X-Success", lit "true")] ;;
       res_send buffer)
    (fun error =>
       res_status 500 ;;
       res_json [(lit "error", JStr (lit "Capture failed"));
                 (lit "details", JStr (message error));
                 (lit "stack",
                  if development E then JStr (stack error) else JUndefined)]).

End Routes.
End RenderServer.
Export RenderServer.

(* ================================================================== *)
(** * Concrete requests and environments *)
(* ================================================================== *)

Module Fixtures.

(** No library call throws; every fetch is answered 404. *)
Definition quiet : env :=
  Env (fun _ _ => None)
      (fun _ _ => FetchResponse false None)
      (fun n => Z.of_nat n)
      (fun _ _ => lit "0.00")
      (fun _ => [137; 80; 78; 71])
      (fun _ => [137; 80; 78; 71])
      None
      (lit "image-1700000000000-42.png")
      (fun _ => None).

(** As [quiet], but the disk refuses every [unlink]. *)
Definition unlink_refused : env :=
  Env (fun _ ev =>
         match ev with
         | EUnlink _ => Some (new_Error (lit "EPERM: operation not permitted"))
         | _ => None
         end)
      (net quiet) (clock quiet) (fmt_elapsed quiet) (bg_remove quiet)
      (render_png quiet) None (upload_name quiet) (torn_write quiet).


Definition png_upload : upload :=
  Upload (lit "image") (lit "cat.png") (lit "image/png") [137; 80; 78; 71; 13; 10; 26; 10].

(** [{ html: 42 }] and [{ html: "<h1>Hi</h1>" }]. *)
Definition body_number : render_body :=
  RenderBody (JNum 42) JUndefined JUndefined JUndefined.
Definition body_hi : render_body :=
  RenderBody (JStr (lit "<h1>Hi</h1>")) JUndefined JUndefined JUndefined.

(** A stylesheet link of Google Fonts, and a malformed link, never
    closed, that runs into a copy of it. *)
Definition fonts_url : jsstring :=
  lit "https://fonts.googleapis.com/css?family=Roboto".
Definition other_url : jsstring := lit "https://example.com/site.css".
Definition fonts_link : jsstring :=
  lit "<link rel=" ++ dq ++ lit "stylesheet" ++ dq ++ lit " href=" ++ dq
  ++ fonts_url ++ dq ++ lit ">".
Definition open_link : jsstring :=
  lit "<link href=" ++ dq ++ other_url ++ dq ++ lit " " ++ fonts_link.
Definition nested_links_html : jsstring := open_link ++ fonts_link.

(** As [quiet], but Google Fonts answers with a stylesheet. *)
Definition fonts_up : env :=
  Env (fails quiet)
      (fun _ url =>
         if bool_decide (url = fonts_url)
         then FetchResponse true (Some (lit "body{font-family:Roboto}"))
         else FetchResponse false None)
      (clock quiet) (fmt_elapsed quiet) (bg_remove quiet) (render_png quiet)
      None (upload_name quiet) (torn_write quiet).

(** A script tag split by another one, and a script that holds the
    [</head>]. *)
Definition split_script_html : jsstring :=
  lit "<scr<script></script>ipt>alert(1)</script>".
Definition script_head_html : jsstring := lit "<script></head></script>".

End Fixtures.
Export Fixtures.
(* ================================================================== *)
(** * Notions the statements use *)
(* ================================================================== *)

(** The number a digit sequence denotes, read from the left. *)
Fixpoint uint_val (d : Decimal.uint) (acc : N) : N :=
  match d with
  | Decimal.Nil => acc
  | Decimal.D0 d => uint_val d (10 * acc)
  | Decimal.D1 d => uint_val d (10 * acc + 1)
  | Decimal.D2 d => uint_val d (10 * acc + 2)
  | Decimal.D3 d => uint_val d (10 * acc + 3)
  | Decimal.D4 d => uint_val d (10 * acc + 4)
  | Decimal.D5 d => uint_val d (10 * acc + 5)
  | Decimal.D6 d => uint_val d (10 * acc + 6)
  | Decimal.D7 d => uint_val d (10 * acc + 7)
  | Decimal.D8 d => uint_val d (10 * acc + 8)
  | Decimal.D9 d => uint_val d (10 * acc + 9)
  end.

(** The calls of the font step. *)
Definition is_net (ev : event) : Prop :=
  match ev with EFetch _ | EText => True | _ => False end.

(** What the font step leaves alone. *)
Record frame (w w1 : world) : Prop := Frame {
  frame_fs : fs w1 = fs w;
  frame_open : open_browsers w1 = open_browsers w;
  frame_next : next_browser w1 = next_browser w;
  frame_res : res w1 = res w;
  frame_tempPath : tempPath w1 = tempPath w;
  frame_browser : browser w1 = browser w;
  frame_trace : ∃ evs, trace w1 = trace w ++ evs ∧ Forall is_net evs
}.

(** No browser launched between [w] and [w'] is left open: each has its
    [close] in the trace. *)
Definition browsers_closed (w w' : world) : Prop :=
  open_browsers w' ⊆ open_browsers w
  ∧ ∀ b, (next_browser w <= b)%nat → (b < next_browser w')%nat →
         (b ∉ open_browsers w') ∧ EBrowserClose b ∈ trace w'.

(** The body of the answer on a failure. *)
Definition generic_failure (E : env) (err : error) : body_t :=
  BodyJson
    [(lit "error",
      JStr (lit "Background removal failed. Please try with a different image."));
     (lit "details", if development E then JStr (message err) else JUndefined)].

(** The viewports the events set, and the regions they capture. *)
Definition viewports (evs : list event) : list viewport :=
  omap (λ ev, match ev with ESetViewport vp => Some vp | _ => None end) evs.


(** The loop of a quantifier, on its own. *)
Section StarLoop.
Variable mr : mstate → (mstate → option mstate) → option mstate.
Variable g : bool.
Variable k : mstate → option mstate.

Fixpoint star_loop (n : nat) (st : mstate) {struct n} : option mstate :=
  let iter :=
    match n with
    | O => None
    | S n' =>
        mr st (fun st' => if progress st st' then star_loop n' st' else None)
    end in
  if g
  then match iter with Some x => Some x | None => k st end
  else match k st with Some x => Some x | None => iter end.

End StarLoop.

(** What it is for a pattern to match, from a position (the unit before
    it, the text ahead) to a later one. *)
Inductive Matches (ic : bool)
  : regex → option N → jsstring → option N → jsstring → Prop :=
| M_Chr c p x s :
    chr_ok ic c x = true → Matches ic (Chr c) p (x :: s) (Some x) s
| M_Cls neg cs p x s :
    cls_ok ic neg cs x = true → Matches ic (Cls neg cs) p (x :: s) (Some x) s
| M_Dot p x s :
    line_terminator x = false → Matches ic Dot p (x :: s) (Some x) s
| M_Eps p s : Matches ic Eps p s p s
| M_Seq r1 r2 p s p1 s1 p2 s2 :
    Matches ic r1 p s p1 s1 → Matches ic r2 p1 s1 p2 s2 →
    Matches ic (Seq r1 r2) p s p2 s2
| M_Star0 g r p s : Matches ic (Star g r) p s p s
| M_StarS g r p s p1 s1 p2 s2 :
    Matches ic r p s p1 s1 → length s1 ≠ length s →
    Matches ic (Star g r) p1 s1 p2 s2 →
    Matches ic (Star g r) p s p2 s2
| M_Group i r p s p' s' :
    Matches ic r p s p' s' → Matches ic (Group i r) p s p' s'
| M_NegLook r p s :
    (∀ c, m ic r (MState p s c) Some = None) →
    Matches ic (NegLook r) p s p s
| M_WordB p s :
    xorb (from_option is_word false p) (from_option is_word false (head s)) = true →
    Matches ic WordB p s p s.

(** The unit before the position reached after [u]. *)
Definition prev_after (p : option N) (u : jsstring) : option N :=
  match last u with Some c => Some c | None => p end.

(** Patterns that read nothing around the text they match. *)
Fixpoint simple (r : regex) : bool :=
  match r with
  | Chr _ | Cls _ _ | Dot | Eps => true
  | Seq r1 r2 => simple r1 && simple r2
  | Star _ r | Group _ r => simple r
  | NegLook _ | WordB => false
  end.

(** [avoids ic x r]: no text that [r] matches holds the unit [x]. *)
Fixpoint avoids (ic : bool) (x : N) (r : regex) : bool :=
  match r with
  | Chr c => negb (chr_ok ic c x)
  | Cls neg cs => negb (cls_ok ic neg cs x)
  | Dot => line_terminator x
  | Eps | NegLook _ | WordB => true
  | Seq r1 r2 => avoids ic x r1 && avoids ic x r2
  | Star _ r | Group _ r => avoids ic x r
  end.

(** The end every tag pattern of the source has: a quote, then
    [[^>]*>]. *)
Definition tag_end : list regex :=
  [quote; star (notin (lit ">")); lits (lit ">")].

Definition head_open : jsstring := lit "</head".

Definition tag_front (origin : jsstring) : list regex :=
  [lits (lit "<link"); plus (notin (lit ">")); lits (lit "rel="); quote;
   lits (lit "preconnect"); quote; plus (notin (lit ">"));
   lits (lit "href="); quote; lits origin].

(** The text every match of the script pattern, and of the iframe
    pattern, begins with. *)
Definition scriptOpen : pattern := Pattern (lits (lit "<script")) true 0.
Definition iframeOpen : pattern := Pattern (lits (lit "<iframe")) true 0.

(** The text holds neither [<script] nor [<iframe], in any case of the
    letters. *)
Definition no_embed (h : jsstring) : Prop :=
  test scriptOpen h = false ∧ test iframeOpen h = false.

(** In [l], every [<] has an [l] after it. *)
Fixpoint lt_then_l (l : jsstring) : bool :=
  match l with
  | [] => true
  | c :: l' =>
      (if c =? 60 then match l' with d :: _ => d =? 108 | [] => false end else true)
      && lt_then_l l'
  end.

(** A fetch that does not give a stylesheet: it throws, the status is
    not ok, or the body cannot be read. *)
Definition fetch_fails (o : fetch_outcome) : Prop :=
  match o with
  | FetchThrows _ => True
  | FetchResponse ok t => ok = false ∨ t = None
  end.

(** As [quiet], but the screenshot throws. *)
Definition screenshot_error : error :=
  Error (lit "Protocol error (Page.captureScreenshot)")
        (lit "Error: Protocol error at Page.screenshot") None.
Definition screenshot_fails : env :=
  Env (fun _ ev =>
         match ev with
         | EScreenshot _ _ => Some screenshot_error
         | _ => None
         end)
      (net quiet) (clock quiet) (fmt_elapsed quiet) (bg_remove quiet)
      (render_png quiet) (Some (lit "development")) (upload_name quiet)
      (torn_write quiet).

(** The events of a request that are calls to the browser. *)
Definition is_browser_call (ev : event) : Prop :=
  match ev with
  | ELaunch _ | ENewPage | ESetUserAgent _ | ESetBypassCSP _ | ESetViewport _
  | EEvaluateOnNewDocument | ESetContent _ _ | EEvaluate | ETimeout _
  | EScreenshot _ _ | EPageClose | EBrowserClose _ => True
  | _ => False
  end.

(** Patterns without a capturing group of their own (the groups inside a
    lookahead do not count: what it captures is dropped). *)
Fixpoint groupless (r : regex) : bool :=
  match r with
  | Chr _ | Cls _ _ | Dot | Eps | NegLook _ | WordB => true
  | Seq r1 r2 => groupless r1 && groupless r2
  | Star _ r => groupless r
  | Group _ _ => false
  end.

(** The text holds no [<link], in any case of the letters. *)
Definition linkOpen : pattern := Pattern (lits (lit "<link")) true 0.

(** The URLs fetched, in the order of the calls. *)
Definition fetched (evs : list event) : list jsstring :=
  omap (λ ev, match ev with EFetch url => Some url | _ => None end) evs.

(** The URL a round of the font loop fetches, when it fetches. *)
Definition href_to_fetch (tag : jsstring) : option jsstring :=
  match href_of tag with
  | Some (c :: href) => Some (c :: href)
  | _ => None
  end.

(** The text [https://fonts.googleapis.com/], in any case of the
    letters. *)
Definition fontsOrigin : pattern :=
  Pattern (lits (lit "https://fonts.googleapis.com/")) true 0.

(** The closing tags, in any case of the letters. *)
Definition scriptClose : pattern := Pattern (lits (lit "</script>")) true 0.
Definition iframeClose : pattern := Pattern (lits (lit "</iframe>")) true 0.

(** A script that is opened and never closed. *)
Definition open_script_html : jsstring :=
  lit "<p>Hi</p><script src=https://example.com/x.js>".

(** A text that can follow a decimal number without changing what
    [parseInt] reads: it does not begin with a digit, nor with [x] or
    [X]. *)
Definition unit_suffix (s : jsstring) : Prop :=
  match s with
  | [] => True
  | c :: _ => is_digit c = false ∧ c ≠ 120 ∧ c ≠ 88
  end.

(** One round of the middle of the script pattern: a [<] that does not
    begin [</script>], then units other than [<]. *)
Definition script_round : regex :=
  seqs [NegLook (lits (lit "</script>")); lits (lit "<"); star (notin (lit "<"))].



(** [close] was called on every browser launched between [w] and [w'],
    a browser that is open at [w'] and was not at [w] is one of these,
    and it is still open only because a [close] of it threw. *)
Definition close_attempted (E : env) (w w' : world) : Prop :=
  (∀ b, b ∈ open_browsers w' →
        b ∈ open_browsers w ∨ (next_browser w <= b ∧ b < next_browser w')%nat)
  ∧ ∀ b, (next_browser w <= b)%nat → (b < next_browser w')%nat →
         EBrowserClose b ∈ trace w'
         ∧ (b ∈ open_browsers w' → ∃ n e, fails E n (EBrowserClose b) = Some e).

(** As [quiet], but the browser refuses to close. *)
Definition close_error : error :=
  Error (lit "Protocol error: Connection closed.")
        (lit "Error: Protocol error at Browser.close") None.
Definition close_refused : env :=
  Env (fun _ ev =>
         match ev with
         | EBrowserClose _ => Some close_error
         | _ => None
         end)
      (net quiet) (clock quiet) (fmt_elapsed quiet) (bg_remove quiet)
      (render_png quiet) None (upload_name quiet) (torn_write quiet).

(** The library calls of the route of POST /api/remove-background for a
    saved upload. *)
Definition removal_calls (path : jsstring) (input : list N) : list event :=
  [EReadFile path; ERemoveBackground input; EArrayBuffer; EUnlink path].
(* ================================================================== *)
(** * Numbers and their decimal text *)
(* ================================================================== *)


Lemma uint_val_acc d : ∀ acc, uint_val d (Npos acc) = Npos (Pos.of_uint_acc d acc).
Proof.
  induction d; intros acc; cbn [uint_val Pos.of_uint_acc]; try reflexivity.
  all: rewrite <- IHd; f_equal; lia.
Qed.

Lemma uint_val_of_uint d : uint_val d 0 = N.of_uint d.
Proof.
  unfold N.of_uint.
  induction d; cbn [uint_val Pos.of_uint]; try reflexivity; try exact IHd.
  all: rewrite <- uint_val_acc; reflexivity.
Qed.



Lemma parse_digits d :
  d ≠ Decimal.Nil → ∃ c s, uint_codes d = c :: s ∧ is_space c = false
    ∧ c ≠ 45 ∧ c ≠ 43 ∧ (c = 48 → ∀ t, s ≠ 120 :: t ∧ s ≠ 88 :: t).
Proof.
  intros Hd. destruct d as [|d|d|d|d|d|d|d|d|d|d]; [done|..];
    (eexists _, _; split; [reflexivity|]; repeat split; try done).
  all: destruct d; done.
Qed.

Lemma parse_int_unsigned c s :
  is_space c = false → c ≠ 45 → c ≠ 43 → (c = 48 → ∀ t, s ≠ 120 :: t ∧ s ≠ 88 :: t) →
  parse_int_string (c :: s)
  = match read_digits 10 None (c :: s) with
    | None => JNaN
    | Some n => JNum (Z.of_N n)
    end.
Proof.
  intros Hsp H45 H43 H48. unfold parse_int_string. cbn [skip_spaces]. rewrite Hsp.
  destruct (decide (c = 48)) as [->|Hne].
  - specialize (H48 eq_refl). destruct s as [|c2 s]; [reflexivity|].
    destruct (decide (c2 = 120)) as [->|]; [by destruct (H48 s)|].
    destruct (decide (c2 = 88)) as [->|]; [by destruct (H48 s)|].
    destruct c2 as [|p]; [reflexivity|].
    do 7 (destruct p as [p|p|]; try reflexivity); done.
  - destruct c as [|p]; [reflexivity|].
    do 6 (destruct p as [p|p|]; try reflexivity); done.
Qed.



(** ** Doubles *)


Lemma to_double_small (n : Z) : (Z.abs n <= 2 ^ 53)%Z → to_double n = Some n.
Proof.
  intros Hn. destruct n as [|p|p]; unfold to_double; [done|..].
  - change (Z.abs (Z.pos p)) with (Z.pos p) in Hn.
    unfold round_pos. apply Z.leb_le in Hn. by rewrite Hn.
  - change (Z.abs (Z.neg p)) with (Z.pos p) in Hn.
    unfold round_pos. apply Z.leb_le in Hn. by rewrite Hn.
Qed.









(* ================================================================== *)
(** * Running the handlers *)
(* ================================================================== *)

Ltac run :=
  cbv beta iota delta [bind ret throw try_catch get modify ext readFile unlink removeBackground arrayBuffer
     launch browser_close screenshot res_status res_set res_json res_send res_set_all date_now
     express_default_error fetch response_text] in *; cbn [fst snd] in *.



Lemma frame_refl w : frame w w.
Proof. split; try done. exists []. by rewrite app_nil_r. Qed.

Lemma frame_trans w1 w2 w3 : frame w1 w2 → frame w2 w3 → frame w1 w3.
Proof.
  intros [] []; split; try congruence.
  destruct frame_trace0 as (e1 & H1 & F1), frame_trace1 as (e2 & H2 & F2).
  exists (e1 ++ e2). rewrite H2, H1, app_assoc. split; [done|]. by apply Forall_app.
Qed.

Lemma frame_logged ev w : is_net ev → frame w (logged ev w).
Proof. intros H. split; try done. exists [ev]. split; [done|]. by constructor. Qed.

Lemma inline_link_frame (E : env) (inlined tag : jsstring) (w : world) :
  ∃ out w1, inline_link E inlined tag w = (Ok out, w1) ∧ frame w w1.
Proof.
  unfold inline_link. destruct (href_of tag) as [[|c href]|].
  1,3: eexists _, _; split; [reflexivity|apply frame_refl].
  run. destruct (net E (tick w) (c :: href)) as [e|ok [t|]]; cbn.
  - eexists _, _; split; [reflexivity|]. by apply frame_logged.
  - destruct ok; cbn.
    + eexists _, _; split; [reflexivity|].
      eapply frame_trans; [|apply (frame_logged EText); done]. by apply frame_logged.
    + eexists _, _; split; [reflexivity|]. by apply frame_logged.
  - destruct ok; cbn.
    + eexists _, _; split; [reflexivity|].
      eapply frame_trans; [|apply (frame_logged EText); done]. by apply frame_logged.
    + eexists _, _; split; [reflexivity|]. by apply frame_logged.
Qed.

Lemma foldM_inline_frame (E : env) (links : list jsstring) (inlined : jsstring) (w : world) :
  ∃ out w1, foldM (inline_link E) inlined links w = (Ok out, w1) ∧ frame w w1.
Proof.
  revert inlined w. induction links as [|tag links IH]; intros inlined w.
  - eexists _, _; split; [reflexivity|apply frame_refl].
  - cbn [foldM]. unfold bind.
    destruct (inline_link_frame E inlined tag w) as (o1 & w1 & -> & F1).
    destruct (IH o1 w1) as (o2 & w2 & -> & F2).
    eexists _, _; split; [reflexivity|]. by eapply frame_trans.
Qed.

Lemma inlineGoogleFonts_frame (E : env) (html : jsstring) (w : world) :
  ∃ out w1, inlineGoogleFonts E html w = (Ok out, w1) ∧ frame w w1.
Proof.
  unfold inlineGoogleFonts, try_catch.
  destruct (foldM_inline_frame E (exec_all linkRegex 0 None html) html w) as (o & w1 & -> & F).
  by eexists _, _.
Qed.

Ltac in_list :=
  rewrite <- ?app_assoc; cbn [app]; rewrite ?elem_of_app;
  repeat first [ apply list_elem_of_here | apply list_elem_of_further | right ].

(** Cuts the events of a run at the call that threw. *)
Ltac cut_trace :=
  (refine (ex_intro _ [] _) + refine (ex_intro _ [_] _)
   + refine (ex_intro _ [_; _] _) + refine (ex_intro _ [_; _; _] _)
   + refine (ex_intro _ [_; _; _; _] _));
  eexists;
  (split; [rewrite <- ?app_assoc; cbn [app]; reflexivity|solve [in_list]]).

Ltac step :=
  match goal with
  | |- context [fails ?E ?n ?ev] => destruct (fails E n ev) eqn:?
  end; cbn -[lit lookup insert delete union difference];
  rewrite ?lookup_insert_eq, ?lookup_delete_eq; cbn -[lit lookup insert delete union difference].



Lemma close_after_launch (b : nat) (o : gset nat) : ({[b]} ∪ o) ∖ {[b]} ⊆ o.
Proof.
  intros x. rewrite elem_of_difference, elem_of_union, elem_of_singleton. tauto.
Qed.

Lemma not_in_after_close (b : nat) (o : gset nat) : b ∉ ({[b]} ∪ o) ∖ {[b]}.
Proof. rewrite elem_of_difference, elem_of_singleton. tauto. Qed.

Lemma close_attempted_closed (E : env) (w w' : world) :
  (∀ n b, fails E n (EBrowserClose b) = None) →
  close_attempted E w w' → browsers_closed w w'.
Proof.
  intros Hok [Hopen Hrange]. split.
  - intros b Hb. destruct (Hopen b Hb) as [|[H1 H2]]; [done|].
    destruct (Hrange b H1 H2) as [_ Hfail].
    destruct (Hfail Hb) as (n & e & He). by rewrite Hok in He.
  - intros b H1 H2. destruct (Hrange b H1 H2) as [Hin Hfail]. split; [|done].
    intros Hb. destruct (Hfail Hb) as (n & e & He). by rewrite Hok in He.
Qed.

(** The sets of open browsers a handler can end with. *)
Ltac open_cases :=
  rewrite ?elem_of_difference, ?elem_of_union, ?elem_of_singleton;
  intuition (subst; try lia; try done).

Ltac close_attempted_goal :=
  split;
  [intros b; cbn -[lit lookup insert delete union difference to_string];
   open_cases
  |cbn -[lit lookup insert delete union difference to_string];
   intros b Hb Hb';
   first
     [ lia
     | match goal with
       | H : (?n <= b)%nat |- _ => assert (b = n) as -> by lia
       end;
       split;
       [in_list
       |first [ intros Hin; exfalso; by apply not_in_after_close in Hin
              | intros _; eexists _, _; eassumption ]] ]].

Lemma captureHtml_close_attempted (E : env) (html : jsstring) (wd ht dsf : jsval)
    (w : world) :
  let w' := (captureHtml E html wd ht dsf w).2 in
  close_attempted E w w' ∧ fs w' = fs w ∧ res w' = res w.
Proof.
  cbn zeta.
  remember (captureHtml E html wd ht dsf w) as r eqn:Hrun. revert Hrun.
  unfold captureHtml. unfold bind at 1, modify at 1. unfold try_catch at 1. unfold bind at 1.
  destruct (inlineGoogleFonts_frame E (processHtmlForRendering html) (with_browser None w))
    as (clean & w1 & -> & [Hfs Hop Hnx Hres Htp Hbr (fevs & Htr & Hnet)]).
  destruct w1 as [fs1 op1 nx1 tk1 tr1 rs1 tp1 br1].
  cbn in Hfs, Hop, Hnx, Hres, Htp, Hbr, Htr. subst.
  run. cbn -[lit lookup insert delete union difference to_string].
  repeat step; intros ->; cbn -[lit lookup insert delete union difference to_string].
  all: split; [|done].
  all: close_attempted_goal.
Qed.

(* ================================================================== *)
(** * The upload route *)
(* ================================================================== *)

Lemma upload_rejected (E : env) (u : upload) (w : world) :
  fieldname u ≠ lit "image" ∨ mimetype u ∉ allowedMimes
  ∨ fileSize <= N.of_nat (length (content u)) →
  ∃ e, upload_single E (Some u) w = (Ok (NextErr e), w) ∧ err_status e = None.
Proof.
  intros H. unfold upload_single, fileFilter.
  case_bool_decide as Hf; cbn [negb]; [|eexists; split; reflexivity].
  case_bool_decide as Hm; [|eexists; split; reflexivity].
  destruct H as [H|[H|H]]; [done|done|].
  apply N.leb_le in H. rewrite H. eexists; split; reflexivity.
Qed.

(** An upload that the middleware takes: it is under [image], of an
    allowed type and shorter than the limit. *)
Lemma upload_taken (E : env) (u : upload) (w : world) :
  fieldname u = lit "image" → mimetype u ∈ allowedMimes →
  N.of_nat (length (content u)) < fileSize →
  upload_single E (Some u) w
  = let path := lit "uploads/" ++ upload_name E in
    match fails E (tick w) (EWriteFile path) with
    | None =>
        (Ok (Next (Some (File (originalname u) (mimetype u)
                           (N.of_nat (length (content u))) path))),
         with_fs (<[path := content u]> (fs w)) (logged (EWriteFile path) w))
    | Some e =>
        (Ok (NextErr (Error (message e) (stack e) None)),
         match torn_write E (content u) with
         | Some bytes => with_fs (<[path := bytes]> (fs w)) (logged (EWriteFile path) w)
         | None => logged (EWriteFile path) w
         end)
    end.
Proof.
  intros Hf Hm Hs. unfold upload_single, fileFilter.
  rewrite !bool_decide_eq_true_2 by done. cbn [negb].
  apply N.leb_gt in Hs. rewrite Hs. cbn zeta. run.
  destruct (fails E (tick w) _) as [e|]; [|reflexivity].
  cbn. by destruct (torn_write E (content u)).
Qed.

Lemma upload_accepted (E : env) (u : upload) (w : world) :
  fieldname u = lit "image" → mimetype u ∈ allowedMimes →
  N.of_nat (length (content u)) < fileSize →
  fails E (tick w) (EWriteFile (lit "uploads/" ++ upload_name E)) = None →
  upload_single E (Some u) w =
    (Ok (Next (Some (File (originalname u) (mimetype u)
                       (N.of_nat (length (content u)))
                       (lit "uploads/" ++ upload_name E)))),
     with_fs (<[lit "uploads/" ++ upload_name E := content u]> (fs w))
       (logged (EWriteFile (lit "uploads/" ++ upload_name E)) w)).
Proof.
  intros Hf Hm Hs Hw. rewrite upload_taken by done. cbn zeta. by rewrite Hw.
Qed.

(** The ways the middleware can go for a file part. *)
Lemma upload_cases (E : env) (u : upload) (w : world) :
  (∃ e, upload_single E (Some u) w = (Ok (NextErr e), w) ∧ err_status e = None)
  ∨ (fieldname u = lit "image" ∧ mimetype u ∈ allowedMimes
     ∧ N.of_nat (length (content u)) < fileSize).
Proof.
  destruct (decide (fieldname u = lit "image")) as [Hf|Hf];
    [|left; apply upload_rejected; tauto].
  destruct (decide (mimetype u ∈ allowedMimes)) as [Hm|Hm];
    [|left; apply upload_rejected; tauto].
  destruct (decide (N.of_nat (length (content u)) < fileSize)) as [Hs|Hs];
    [by right|].
  left. apply upload_rejected. right; right. lia.
Qed.




Ltac exec_from r :=
  repeat step; intros ->;
  cbn -[lit lookup insert delete union difference to_string];
  rewrite ?lookup_delete_eq, ?lookup_insert_eq.

(** C3, as the code has it: for an upload that was saved (it is under
    [image], of an allowed type, shorter than the limit, and its write
    did not fail), [unlink] is called on the temp file on every path
    before the request ends; the file is gone at the end whenever the
    disk does not refuse the [unlink]; the request ends either with the
    PNG (and the file gone) or with status 500 and the generic error for
    the error that one of the calls of the route threw, whose message is
    the [details] in development, [undefined] otherwise, and then
    [unlink] was called after the call that threw. *)
Theorem C3_temp_file_cleanup (E : env) (u : upload) (w : world) :
  fieldname u = lit "image" → mimetype u ∈ allowedMimes →
  N.of_nat (length (content u)) < fileSize →
  let path := lit "uploads/" ++ upload_name E in
  fails E (tick w) (EWriteFile path) = None →
  res w = fresh_response →
  let w' := (post_remove_background E (Some u) w).2 in
  (∃ evs, trace w' = trace w ++ evs ∧ EUnlink path ∈ evs)
  ∧ ((∀ n, fails E n (EUnlink path) = None) → fs w' !! path = None)
  ∧ ((status (res w') = 200%nat ∧ fs w' !! path = None
      ∧ resp_body (res w') = Some (BodyBytes (bg_remove E (content u))))
     ∨ (∃ n ev err, fails E n ev = Some err
          ∧ ev ∈ removal_calls path (content u)
          ∧ status (res w') = 500%nat
          ∧ resp_body (res w') = Some (generic_failure E err)
          ∧ ∃ pre post, trace w' = trace w ++ pre ++ ev :: post
                        ∧ EUnlink path ∈ post)).
Proof.
  intros Hf Hm Hs path Hw Hr w'. subst w'.
  remember (post_remove_background E (Some u) w) as r eqn:Hrun. revert Hrun.
  unfold post_remove_background, bind at 1. rewrite upload_accepted by done.
  fold path. unfold remove_background. run.
  cbn -[lit lookup insert delete]. fold path.
  exec_from r; rewrite ?Hr.
  all: split; [eexists; split; [rewrite <- ?app_assoc; reflexivity|in_list]|].
  all: split; [intros Hn; congruence || done|].
  all: first [ left; done
             | right; eexists _, _, _;
               split; [|split; [|split; [reflexivity|split; [reflexivity|]]]];
               [eassumption|unfold removal_calls; in_list|cut_trace] ].
Qed.

Lemma C3_temp_file_cleanup_witness :
  fs (post_remove_background quiet (Some png_upload) (initial_world ∅)).2
    !! (lit "uploads/" ++ upload_name quiet) = None.
Proof.
  apply (C3_temp_file_cleanup quiet png_upload (initial_world ∅)).
  - reflexivity.
  - vm_compute. apply list_elem_of_In. cbn. tauto.
  - by vm_compute.
  - reflexivity.
  - reflexivity.
  - reflexivity.
Defined.

(** C3 fails as stated: when the disk refuses [unlink], the request ends
    with status 500 and the temp file still there. *)
Lemma C3_unlink_refused_file_stays :
  let w' := (post_remove_background unlink_refused (Some png_upload)
               (initial_world ∅)).2 in
  status (res w') = 500%nat
  ∧ fs w' !! (lit "uploads/" ++ upload_name unlink_refused)
    = Some (content png_upload).
Proof. split; vm_compute; reflexivity. Qed.

(** C8, as the code has it: for an upload that was saved, when none of
    the calls of the route throws (reading the file back, the background
    removal, the conversion of its result, the [unlink] of the temp
    file), the answer has status 200, Content-Type image/png, an
    X-Processing-Time header, and the PNG that the background-removal
    routine gave as its body (which is not empty when the routine's PNG
    is not). *)
Theorem C8_background_removed (E : env) (u : upload) (w : world) :
  fieldname u = lit "image" → mimetype u ∈ allowedMimes →
  N.of_nat (length (content u)) < fileSize →
  let path := lit "uploads/" ++ upload_name E in
  fails E (tick w) (EWriteFile path) = None →
  res w = fresh_response →
  (∀ n ev, ev ∈ removal_calls path (content u) → fails E n ev = None) →
  bg_remove E (content u) ≠ [] →
  let r := res (post_remove_background E (Some u) w).2 in
  status r = 200%nat
  ∧ headers r !! lit "Content-Type" = Some (lit "image/png")
  ∧ is_Some (headers r !! lit "X-Processing-Time")
  ∧ ∃ png, resp_body r = Some (BodyBytes png)
           ∧ png = bg_remove E (content u) ∧ png ≠ [].
Proof.
  intros Hf Hm Hs path Hw Hr Hok Hpng r. subst r.
  assert (∀ n, fails E n (EReadFile path) = None) as H1
    by (intros n; apply Hok; unfold removal_calls; in_list).
  assert (∀ n, fails E n (ERemoveBackground (content u)) = None) as H2
    by (intros n; apply Hok; unfold removal_calls; in_list).
  assert (∀ n, fails E n EArrayBuffer = None) as H3
    by (intros n; apply Hok; unfold removal_calls; in_list).
  assert (∀ n, fails E n (EUnlink path) = None) as H4
    by (intros n; apply Hok; unfold removal_calls; in_list).
  remember (post_remove_background E (Some u) w) as r eqn:Hrun. revert Hrun.
  unfold post_remove_background, bind at 1. rewrite upload_accepted by done.
  fold path. unfold remove_background. run.
  cbn -[lit lookup insert delete]. fold path.
  repeat (rewrite ?H1, ?H2, ?H3, ?H4; cbn -[lit lookup insert delete];
          rewrite ?lookup_insert_eq; cbn -[lit lookup insert delete]).
  intros ->. cbn -[lit lookup insert delete]. rewrite Hr.
  split; [reflexivity|]. split.
  { rewrite lookup_insert_ne by (by vm_compute). apply lookup_insert_eq. }
  split; [rewrite lookup_insert_eq; by eexists|].
  by eexists.
Qed.

Lemma C8_background_removed_witness :
  status (res (post_remove_background quiet (Some png_upload) (initial_world ∅)).2)
  = 200%nat.
Proof.
  apply (C8_background_removed quiet png_upload (initial_world ∅)).
  - reflexivity.
  - vm_compute. apply list_elem_of_In. cbn. tauto.
  - by vm_compute.
  - reflexivity.
  - reflexivity.
  - reflexivity.
  - vm_compute. discriminate.
Defined.

(** C8 fails as stated: the background removal succeeds and gives its
    PNG, the [unlink] that follows is refused, and the answer is 500
    with a JSON body and no Content-Type of an image. *)
Lemma C8_removal_succeeds_answer_500 :
  let w' := (post_remove_background unlink_refused (Some png_upload)
               (initial_world ∅)).2 in
  ERemoveBackground (content png_upload) ∈ trace w'
  ∧ (∀ n, fails unlink_refused n (ERemoveBackground (content png_upload)) = None)
  ∧ bg_remove unlink_refused (content png_upload) ≠ []
  ∧ status (res w') = 500%nat
  ∧ headers (res w') !! lit "Content-Type" = None
  ∧ ∃ fields, resp_body (res w') = Some (BodyJson fields).
Proof.
  split; [vm_compute; apply list_elem_of_In; cbn; tauto|].
  split; [done|]. split; [by vm_compute|].
  split; [by vm_compute|]. split; [by vm_compute|].
  eexists. vm_compute. reflexivity.
Qed.

(* ================================================================== *)
(** * The render routes *)
(* ================================================================== *)

Lemma api_render_close_attempted (E : env) (body : render_body) (w : world) :
  close_attempted E w (api_render E body w).2.
Proof.
  remember (api_render E body w) as r eqn:Hrun. revert Hrun.
  unfold api_render. run. cbn -[lit lookup insert delete union difference].
  destruct (truthy (html body)); cbn -[lit lookup insert delete union difference].
  - exec_from r.
    all: close_attempted_goal.
  - intros ->. close_attempted_goal.
Qed.

Lemma render_close_attempted (E : env) (body : render_body) (w : world) :
  close_attempted E w (render E body w).2.
Proof.
  unfold render, try_catch.
  destruct (negb (truthy (html body)) || negb (is_string (html body))).
  - close_attempted_goal.
  - unfold bind at 1.
    pose proof (captureHtml_close_attempted E (string_of (html body))
                  (or_default (width body) (JNum 1200))
                  (or_default (height body) (JNum 800))
                  (or_default (deviceScaleFactor body) (JNum 2)) w) as [Hc _].
    cbn zeta in Hc.
    destruct (captureHtml E _ _ _ _ w) as [[buffer|e] w1]; exact Hc.
Qed.

(** C5, as the code has it: in the simple /api/render route, in
    [captureHtml] and in the /render route built on it, whatever call
    throws, [close] is called on every browser that the request launched
    before the handler ends, and a browser is left open only when a
    [close] of it threw; so when [close] does not throw, no browser that
    the request launched is open when the handler ends. *)
Theorem C5_browser_closed_unless_close_throws (E : env) (body : render_body)
    (html : jsstring) (wd ht dsf : jsval) (w : world) :
  (close_attempted E w (api_render E body w).2
   ∧ close_attempted E w (captureHtml E html wd ht dsf w).2
   ∧ close_attempted E w (render E body w).2)
  ∧ ((∀ n b, fails E n (EBrowserClose b) = None) →
     browsers_closed w (api_render E body w).2
     ∧ browsers_closed w (captureHtml E html wd ht dsf w).2
     ∧ browsers_closed w (render E body w).2).
Proof.
  pose proof (api_render_close_attempted E body w) as H1.
  pose proof (proj1 (captureHtml_close_attempted E html wd ht dsf w)) as H2.
  pose proof (render_close_attempted E body w) as H3.
  split; [done|]. intros Hok.
  split; [|split]; by apply (close_attempted_closed E).
Qed.

Lemma C5_browser_closed_unless_close_throws_witness :
  browsers_closed (initial_world ∅) (api_render quiet body_hi (initial_world ∅)).2
  ∧ browsers_closed (initial_world ∅) (render quiet body_hi (initial_world ∅)).2.
Proof.
  destruct (C5_browser_closed_unless_close_throws quiet body_hi [] JUndefined
              JUndefined JUndefined (initial_world ∅)) as [_ H].
  destruct H as (H1 & _ & H3); [reflexivity|]. by split.
Defined.

(** C5 fails as stated: when [close] throws, the simple route ends, by
    throwing, with the browser it launched still open, and [captureHtml]
    and the /render route, which answers 500, leave theirs open too. *)
Lemma C5_close_refused_browser_open :
  let simple := api_render close_refused body_hi (initial_world ∅) in
  let enhanced := render close_refused body_hi (initial_world ∅) in
  simple.1 = Throw close_error
  ∧ next_browser simple.2 = 1%nat ∧ 0%nat ∈ open_browsers simple.2
  ∧ enhanced.1 = Ok tt ∧ status (res enhanced.2) = 500%nat
  ∧ next_browser enhanced.2 = 1%nat ∧ 0%nat ∈ open_browsers enhanced.2.
Proof.
  cbn zeta.
  assert (open_browsers (api_render close_refused body_hi (initial_world ∅)).2
          = {[0%nat]} ∪ ∅) as -> by (by vm_compute).
  assert (open_browsers (render close_refused body_hi (initial_world ∅)).2
          = {[0%nat]} ∪ ∅) as -> by (by vm_compute).
  repeat split; try (by vm_compute).
  all: apply elem_of_union_l, elem_of_singleton; reflexivity.
Qed.

(** C2, as the code has it: the enhanced /render route answers 400,
    without a call to any library, for every [html] that is not a string
    or is the empty string; the simple /api/render route does so for
    every falsy [html], and for a truthy one, string or not, its first
    act is to launch a browser. *)
Theorem C2_html_validation (E : env) (body : render_body) (w : world) :
  (is_string (html body) = false ∨ html body = JStr [] →
     let w' := (render E body w).2 in
     status (res w') = 400%nat ∧ trace w' = trace w
     ∧ next_browser w' = next_browser w)
  ∧ (truthy (html body) = false →
     let w' := (api_render E body w).2 in
     status (res w') = 400%nat ∧ trace w' = trace w
     ∧ next_browser w' = next_browser w)
  ∧ (truthy (html body) = true →
     ∃ opts evs, trace (api_render E body w).2 = trace w ++ ELaunch opts :: evs).
Proof.
  split; [|split].
  - intros H. cbn zeta. unfold render, try_catch.
    assert (negb (truthy (html body)) || negb (is_string (html body)) = true) as ->.
    { destruct H as [H| ->]; [|reflexivity]. rewrite H. apply orb_true_r. }
    done.
  - intros H. cbn zeta. unfold api_render. run. rewrite H. done.
  - intros H.
    remember (api_render E body w) as r eqn:Hrun. revert Hrun.
    unfold api_render. run. rewrite H.
    cbn -[lit lookup insert delete union difference].
    exec_from r.
    all: rewrite <- ?app_assoc; cbn [app]; by eexists _, _.
Qed.

Lemma C2_html_validation_witness :
  status (res (render quiet body_number (initial_world ∅)).2) = 400%nat
  ∧ status (res (api_render quiet
                   (RenderBody (JStr []) JUndefined JUndefined JUndefined)
                   (initial_world ∅)).2) = 400%nat
  ∧ ∃ opts evs, trace (api_render quiet body_number (initial_world ∅)).2
                = trace (initial_world ∅) ++ ELaunch opts :: evs.
Proof.
  pose proof (C2_html_validation quiet body_number (initial_world ∅)) as H.
  pose proof (C2_html_validation quiet
                (RenderBody (JStr []) JUndefined JUndefined JUndefined)
                (initial_world ∅)) as H'.
  cbn zeta in H, H'.
  destruct H as (H1 & _ & H3). destruct H' as (_ & H2 & _).
  split; [exact (proj1 (H1 (or_introl eq_refl)))|].
  split; [exact (proj1 (H2 eq_refl))|exact (H3 eq_refl)].
Defined.

(** C2 fails as stated: the simple route launches a browser for
    [{ html: 42 }], whose [html] is not a string. *)
Lemma C2_simple_route_launches_on_number :
  let w' := (api_render quiet body_number (initial_world ∅)).2 in
  is_string (html body_number) = false
  ∧ (∃ opts evs, trace w' = ELaunch opts :: evs)
  ∧ next_browser w' = 1%nat
  ∧ status (res w') = 200%nat.
Proof.
  split; [reflexivity|]. split; [|split; reflexivity].
  eexists _, _. vm_compute. reflexivity.
Qed.











(* ================================================================== *)
(** * The matcher *)
(* ================================================================== *)


Lemma m_star ic g r st k :
  m ic (Star g r) st k = star_loop (m ic r) g k (length (rest st)) st.
Proof. reflexivity. Qed.

Lemma star_loop_unfold mr g k n st :
  star_loop mr g k n st =
  let iter :=
    match n with
    | O => None
    | S n' =>
        mr st (fun st' => if progress st st' then star_loop mr g k n' st' else None)
    end in
  if g
  then match iter with Some x => Some x | None => k st end
  else match k st with Some x => Some x | None => iter end.
Proof. destruct n; reflexivity. Qed.

(** A continuation is only ever called on what is left of the text. *)
Lemma m_k_local ic r : ∀ st k1 k2,
  (∀ st', (length (rest st') <= length (rest st))%nat → k1 st' = k2 st') →
  m ic r st k1 = m ic r st k2.
Proof.
  induction r as [c|neg cs| | |r1 IH1 r2 IH2|g r IH|i r IH|r IH|]; intros st k1 k2 Hk.
  - cbn. unfold step1. destruct (rest st) as [|x xs] eqn:Hs; [done|].
    destruct (chr_ok ic c x); [|done]. apply Hk. cbn. lia.
  - cbn. unfold step1. destruct (rest st) as [|x xs] eqn:Hs; [done|].
    destruct (cls_ok ic neg cs x); [|done]. apply Hk. cbn. lia.
  - cbn. unfold step1. destruct (rest st) as [|x xs] eqn:Hs; [done|].
    destruct (negb (line_terminator x)); [|done]. apply Hk. cbn. lia.
  - cbn. apply Hk. lia.
  - cbn. apply IH1. intros st' Hle. apply IH2. intros st'' Hle'. apply Hk. lia.
  - rewrite !m_star. generalize (length (rest st)) as n.
    intros n. revert st Hk. induction n as [|n IHn]; intros st Hk.
    + cbn. rewrite (Hk st) by lia. reflexivity.
    + rewrite !(star_loop_unfold _ _ _ (S n)). cbn zeta.
      rewrite (Hk st) by lia.
      rewrite (IH st _ (fun st' => if progress st st' then star_loop (m ic r) g k2 n st' else None)).
      { reflexivity. }
      intros st' Hle. destruct (progress st st'); [|done].
      apply IHn. intros st'' Hle'. apply Hk. lia.
  - cbn. apply IH. intros st' Hle. apply Hk. cbn. lia.
  - cbn. rewrite (Hk st) by lia. reflexivity.
  - cbn. rewrite (Hk st) by lia. reflexivity.
Qed.

Lemma m_none ic r st : m ic r st (fun _ => None) = None.
Proof.
  revert st. induction r as [c|neg cs| | |r1 IH1 r2 IH2|g r IH|i r IH|r IH|]; intros st.
  - cbn. unfold step1. destruct (rest st); [done|]. by destruct (chr_ok _ _ _).
  - cbn. unfold step1. destruct (rest st); [done|]. by destruct (cls_ok _ _ _ _).
  - cbn. unfold step1. destruct (rest st); [done|]. by destruct (negb _).
  - done.
  - cbn. rewrite (m_k_local ic r1 st _ (fun _ => None)); [apply IH1|].
    intros st' _. apply IH2.
  - rewrite m_star. generalize (length (rest st)) as n. intros n. revert st.
    induction n as [|n IHn]; intros st.
    + cbn. by destruct g.
    + rewrite star_loop_unfold. cbn zeta.
      assert (m ic r st (fun st' => if progress st st'
                then star_loop (m ic r) g (fun _ => None) n st' else None) = None) as ->.
      { rewrite (m_k_local ic r st _ (fun _ => None)); [apply IH|].
        intros st' _. destruct (progress st st'); [apply IHn|done]. }
      by destruct g.
  - cbn. apply IH.
  - cbn. by destruct (m ic r st Some).
  - cbn. by destruct (xorb _ _).
Qed.

(** The fuel of a quantifier is enough: more of it changes nothing. *)
Lemma star_loop_fuel ic r g k : ∀ n1 n2 st,
  (length (rest st) <= n1)%nat → (length (rest st) <= n2)%nat →
  star_loop (m ic r) g k n1 st = star_loop (m ic r) g k n2 st.
Proof.
  assert (Hzero : ∀ n st, length (rest st) = 0%nat →
            star_loop (m ic r) g k n st = star_loop (m ic r) g k 0 st).
  { intros [|n] st Hlen; [done|]. rewrite !star_loop_unfold. cbn zeta.
    assert (m ic r st (fun st' => if progress st st'
              then star_loop (m ic r) g k n st' else None) = None) as ->; [|done].
    rewrite (m_k_local ic r st _ (fun _ => None)); [apply m_none|].
    intros st' Hle. unfold progress. rewrite Hlen in *.
    assert (length (rest st') = 0%nat) as -> by lia. done. }
  induction n1 as [|n1 IH]; intros n2 st H1 H2.
  - symmetry. apply Hzero. lia.
  - destruct n2 as [|n2]; [apply Hzero; lia|].
    rewrite !(star_loop_unfold _ _ _ (S _)). cbn zeta.
    rewrite (m_k_local ic r st _
               (fun st' => if progress st st' then star_loop (m ic r) g k n2 st' else None)).
    { reflexivity. }
    intros st' Hle. unfold progress.
    destruct (length (rest st') =? length (rest st))%nat eqn:Heq; [done|].
    apply Nat.eqb_neq in Heq. cbn. apply IH; lia.
Qed.

(** Whether a match is found depends neither on the captures the matcher
    starts with nor on more than the success of the continuation. *)
Lemma m_success ic r : ∀ p s c1 c2 k1 k2,
  (∀ p' s' a b, is_Some (k1 (MState p' s' a)) → is_Some (k2 (MState p' s' b))) →
  is_Some (m ic r (MState p s c1) k1) → is_Some (m ic r (MState p s c2) k2).
Proof.
  induction r as [c|neg cs| | |r1 IH1 r2 IH2|g r IH|i r IH|r IH|];
    intros p s c1 c2 k1 k2 Hk.
  - cbn. unfold step1. cbn. destruct s as [|x xs]; [done|].
    destruct (chr_ok ic c x); [apply Hk|done].
  - cbn. unfold step1. cbn. destruct s as [|x xs]; [done|].
    destruct (cls_ok ic neg cs x); [apply Hk|done].
  - cbn. unfold step1. cbn. destruct s as [|x xs]; [done|].
    destruct (negb (line_terminator x)); [apply Hk|done].
  - cbn. apply Hk.
  - cbn. apply IH1. intros p' s' a b. apply IH2, Hk.
  - rewrite !m_star. cbn [rest]. generalize (length s) as n. intros n.
    revert p s c1 c2. induction n as [|n IHn]; intros p s c1 c2.
    + cbn. destruct g; [apply Hk|].
      intros H. pose proof (Hk p s c1 c2) as Hk'.
      destruct (k1 (MState p s c1)); [|by destruct H].
      destruct (k2 (MState p s c2)); [done|]. by apply Hk'.
    + rewrite !(star_loop_unfold _ _ _ (S n)). cbn zeta.
      pose proof (IH p s c1 c2
        (fun st' => if progress (MState p s c1) st'
                    then star_loop (m ic r) g k1 n st' else None)
        (fun st' => if progress (MState p s c2) st'
                    then star_loop (m ic r) g k2 n st' else None)) as Hiter.
      cbn beta in Hiter.
      assert (Hcont : ∀ p' s' a b,
        is_Some (if progress (MState p s c1) (MState p' s' a)
                 then star_loop (m ic r) g k1 n (MState p' s' a) else None) →
        is_Some (if progress (MState p s c2) (MState p' s' b)
                 then star_loop (m ic r) g k2 n (MState p' s' b) else None)).
      { intros p' s' a b. unfold progress. cbn.
        destruct (negb _); [apply IHn|done]. }
      specialize (Hiter Hcont). pose proof (Hk p s c1 c2) as Hk'.
      destruct g.
      * destruct (m ic r (MState p s c1) _) eqn:E1.
        -- intros _. destruct (m ic r (MState p s c2) _); [done|].
           exfalso. by destruct Hiter.
        -- intros H. destruct (m ic r (MState p s c2) _); [done|]. by apply Hk'.
      * destruct (k1 (MState p s c1)).
        -- intros _. destruct (k2 (MState p s c2)); [done|].
           exfalso. by destruct Hk'.
        -- intros H. destruct (k2 (MState p s c2)); [done|]. by apply Hiter.
  - cbn. apply IH. intros p' s' a b. apply Hk.
  - cbn. pose proof (IH p s c1 c2 Some Some) as H12.
    pose proof (IH p s c2 c1 Some Some) as H21.
    destruct (m ic r (MState p s c1) Some) eqn:E1.
    + intros H; by destruct H.
    + destruct (m ic r (MState p s c2) Some) eqn:E2; [|apply Hk].
      exfalso. by destruct H21.
  - cbn. destruct (xorb _ _); [apply Hk|done].
Qed.


(** A match consumes a prefix of the text ahead. *)
Lemma Matches_suffix ic r p s p' s' :
  Matches ic r p s p' s' → ∃ w, s = w ++ s'.
Proof.
  induction 1 as [c p x s H|neg cs p x s H|p x s H|p s
                 |r1 r2 p s p1 s1 p2 s2 _ [w1 ->] _ [w2 ->]
                 |g r p s|g r p s p1 s1 p2 s2 _ [w1 ->] _ _ [w2 ->]
                 |i r p s p' s' _ IH|r p s H|p s H];
    try (by exists []); try (by exists [x]); try done.
  - exists (w1 ++ w2). by rewrite app_assoc.
  - exists (w1 ++ w2). by rewrite app_assoc.
Qed.

Lemma Matches_length ic r p s p' s' :
  Matches ic r p s p' s' → (length s' <= length s)%nat.
Proof.
  intros [w ->]%Matches_suffix. rewrite length_app. lia.
Qed.

(** The matcher finds only matches ... *)
Lemma m_sound ic r : ∀ p s c k x,
  m ic r (MState p s c) k = Some x →
  ∃ p' s' c', Matches ic r p s p' s' ∧ k (MState p' s' c') = Some x.
Proof.
  induction r as [c0|neg cs| | |r1 IH1 r2 IH2|g r IH|i r IH|r IH|];
    intros p s c k x.
  - cbn. unfold step1. cbn. destruct s as [|y ys]; [done|].
    destruct (chr_ok ic c0 y) eqn:E; [|done].
    intros H. eexists _, _, _. split; [by constructor|exact H].
  - cbn. unfold step1. cbn. destruct s as [|y ys]; [done|].
    destruct (cls_ok ic neg cs y) eqn:E; [|done].
    intros H. eexists _, _, _. split; [by constructor|exact H].
  - cbn. unfold step1. cbn. destruct s as [|y ys]; [done|].
    destruct (line_terminator y) eqn:E; [done|]. cbn.
    intros H. eexists _, _, _. split; [by constructor|exact H].
  - cbn. intros H. eexists _, _, _. split; [constructor|exact H].
  - cbn. intros H. apply IH1 in H as (p1 & s1 & c1 & HM1 & H).
    apply IH2 in H as (p2 & s2 & c2 & HM2 & H).
    eexists _, _, _. split; [by econstructor|exact H].
  - rewrite m_star. cbn [rest]. generalize (length s) as n. intros n.
    revert p s c. induction n as [|n IHn]; intros p s c.
    + cbn. intros H.
      assert (k (MState p s c) = Some x) as Hk.
      { destruct g; [done|]. by destruct (k (MState p s c)). }
      eexists _, _, _. split; [constructor|exact Hk].
    + rewrite star_loop_unfold. cbn zeta. intros H.
      assert (k (MState p s c) = Some x
              ∨ m ic r (MState p s c)
                  (fun st' => if progress (MState p s c) st'
                     then star_loop (m ic r) g k n st' else None) = Some x) as [Hk|Hit].
      { destruct g.
        - destruct (m ic r (MState p s c) _); [right; done|by left].
        - destruct (k (MState p s c)); [by left|by right]. }
      * eexists _, _, _. split; [constructor|exact Hk].
      * apply IH in Hit as (p1 & s1 & c1 & HM1 & Hit).
        unfold progress in Hit. cbn in Hit.
        destruct (length s1 =? length s)%nat eqn:Hlen; [done|]. cbn in Hit.
        apply Nat.eqb_neq in Hlen.
        apply IHn in Hit as (p2 & s2 & c2 & HM2 & Hk).
        eexists _, _, _. split; [by eapply M_StarS|exact Hk].
  - cbn. intros H. apply IH in H as (p1 & s1 & c1 & HM1 & H).
    eexists _, _, _. split; [by constructor|exact H].
  - cbn. destruct (m ic r (MState p s c) Some) eqn:E; [done|].
    intros H. eexists _, _, _. split; [|exact H].
    constructor. intros c0.
    destruct (m ic r (MState p s c0) Some) eqn:E0; [|done].
    exfalso. pose proof (m_success ic r p s c0 c Some Some) as Hs.
    rewrite E, E0 in Hs. destruct Hs as [? [=]]; [|done]. intros; done.
  - cbn. destruct (xorb _ _) eqn:E; [|done].
    intros H. eexists _, _, _. split; [by constructor|exact H].
Qed.

(** ... and finds one whenever there is one the continuation takes. *)
Lemma m_complete ic r p s p' s' :
  Matches ic r p s p' s' →
  ∀ c k, (∀ c', is_Some (k (MState p' s' c'))) →
         is_Some (m ic r (MState p s c) k).
Proof.
  induction 1 as [c0 p x s H|neg cs p x s H|p x s H|p s
                 |r1 r2 p s p1 s1 p2 s2 _ IH1 _ IH2
                 |g r p s|g r p s p1 s1 p2 s2 HM1 IH1 Hlen HM2 IH2
                 |i r p s p' s' _ IH|r p s H|p s H]; intros c k Hk.
  - cbn. unfold step1. cbn. rewrite H. apply Hk.
  - cbn. unfold step1. cbn. rewrite H. apply Hk.
  - cbn. unfold step1. cbn. rewrite H. apply Hk.
  - cbn. apply Hk.
  - cbn. apply IH1. intros c'. apply IH2, Hk.
  - rewrite m_star, star_loop_unfold. cbn zeta. specialize (Hk c).
    destruct g.
    + by destruct (match length (rest (MState p s c)) with O => None | S _ => _ end).
    + destruct (k (MState p s c)); [done|by destruct Hk].
  - rewrite m_star. cbn [rest].
    pose proof (Matches_length _ _ _ _ _ _ HM1) as Hle.
    destruct (length s) as [|n] eqn:Hn; [lia|].
    rewrite star_loop_unfold. cbn zeta.
    assert (is_Some (m ic r (MState p s c)
              (fun st' => if progress (MState p s c) st'
                          then star_loop (m ic r) g k n st' else None))) as Hit.
    { apply IH1. intros c'. unfold progress. cbn.
      rewrite (proj2 (Nat.eqb_neq _ _)) by lia. cbn.
      specialize (IH2 c' k Hk). rewrite m_star in IH2. cbn [rest] in IH2.
      rewrite (star_loop_fuel ic r g k n (length s1)); [done|cbn; lia|cbn; lia]. }
    destruct g.
    + destruct Hit as [y ->]. done.
    + destruct (k (MState p s c)); [done|exact Hit].
  - cbn. apply IH. intros c'. apply Hk.
  - cbn. rewrite H. apply Hk.
  - cbn. rewrite H. apply Hk.
Qed.


Lemma prev_after_app p u c : prev_after p (u ++ [c]) = Some c.
Proof. unfold prev_after. by rewrite last_snoc. Qed.

Lemma prev_after_cons p c u : prev_after p (c :: u) = prev_after (Some c) u.
Proof.
  unfold prev_after. destruct u as [|d u]; [done|].
  rewrite last_cons_cons. destruct (last (d :: u)) eqn:E; [done|].
  by apply last_None in E.
Qed.

Lemma match_here_iff pt p s :
  is_Some (match_here pt p s) ↔ ∃ p' s', Matches (icase pt) (body pt) p s p' s'.
Proof.
  unfold match_here. split.
  - intros [x Hx]. apply m_sound in Hx as (p' & s' & c' & HM & _). eauto.
  - intros (p' & s' & HM). eapply m_complete; [exact HM|]. by eexists.
Qed.

(** [test] says yes exactly when the pattern matches somewhere. *)
Lemma search_iff pt : ∀ s p,
  search pt p s = true ↔
  ∃ u v, s = u ++ v ∧ is_Some (match_here pt (prev_after p u) v).
Proof.
  induction s as [|c s IH]; intros p.
  - cbn [search]. destruct (match_here pt p []) eqn:E.
    + split; [|done]. intros _. exists [], []. split; [done|]. cbn. by rewrite E.
    + split; [done|]. intros (u & v & Huv & H).
      symmetry in Huv. apply app_eq_nil in Huv as [-> ->].
      cbn in H. rewrite E in H. by destruct H.
  - cbn [search]. destruct (match_here pt p (c :: s)) eqn:E.
    + split; [|done]. intros _. exists [], (c :: s). split; [done|]. cbn. by rewrite E.
    + rewrite IH. split.
      * intros (u & v & -> & H). exists (c :: u), v. split; [done|].
        by rewrite prev_after_cons.
      * intros (u & v & Huv & H). destruct u as [|d u].
        -- cbn in Huv, H. subst v. rewrite E in H. by destruct H.
        -- injection Huv as <- ->. exists u, v. split; [done|].
           by rewrite <- (prev_after_cons p).
Qed.

Lemma test_iff pt s :
  test pt s = true ↔
  ∃ u v p' s', s = u ++ v ∧ Matches (icase pt) (body pt) (prev_after None u) v p' s'.
Proof.
  unfold test. rewrite search_iff. split.
  - intros (u & v & -> & H). apply match_here_iff in H as (p' & s' & H). eauto 6.
  - intros (u & v & p' & s' & -> & H). exists u, v. split; [done|].
    apply match_here_iff. eauto.
Qed.

(** The text of a match of a simple pattern matches wherever it stands,
    and holds no unit that the pattern avoids. *)
Lemma Matches_text ic r p s p' s' :
  simple r = true → Matches ic r p s p' s' →
  ∃ w, s = w ++ s'
       ∧ (∀ x, avoids ic x r = true → x ∉ w)
       ∧ (∀ p0 t, ∃ p0', Matches ic r p0 (w ++ t) p0' t).
Proof.
  intros Hs HM. induction HM as [c0 p x s H|neg cs p x s H|p x s H|p s
                 |r1 r2 p s p1 s1 p2 s2 _ IH1 _ IH2
                 |g r p s|g r p s p1 s1 p2 s2 HM1 IH1 Hlen HM2 IH2
                 |i r p s p' s' _ IH|r p s H|p s H]; cbn in Hs.
  - exists [x]. split; [done|]. split.
    + intros y Hy Hin. apply list_elem_of_singleton in Hin as ->.
      cbn in Hy. by rewrite H in Hy.
    + intros p0 t. eexists. by constructor.
  - exists [x]. split; [done|]. split.
    + intros y Hy Hin. apply list_elem_of_singleton in Hin as ->.
      cbn in Hy. by rewrite H in Hy.
    + intros p0 t. eexists. by constructor.
  - exists [x]. split; [done|]. split.
    + intros y Hy Hin. apply list_elem_of_singleton in Hin as ->.
      cbn in Hy. by rewrite H in Hy.
    + intros p0 t. eexists. by constructor.
  - exists []. split; [done|]. split; [intros y _ Hin; by apply elem_of_nil in Hin|].
    intros p0 t. eexists. constructor.
  - apply andb_true_iff in Hs as [Hs1 Hs2].
    destruct (IH1 Hs1) as (w1 & -> & Ha1 & Hf1).
    destruct (IH2 Hs2) as (w2 & -> & Ha2 & Hf2).
    exists (w1 ++ w2). split; [by rewrite app_assoc|]. split.
    + intros y Hy. cbn in Hy. apply andb_true_iff in Hy as [Hy1 Hy2].
      rewrite elem_of_app. intros [?|?]; [by eapply Ha1|by eapply Ha2].
    + intros p0 t. destruct (Hf1 p0 (w2 ++ t)) as (p1' & H1).
      destruct (Hf2 p1' t) as (p2' & H2).
      exists p2'. rewrite <- app_assoc. by econstructor.
  - exists []. split; [done|]. split; [intros y _ Hin; by apply elem_of_nil in Hin|].
    intros p0 t. eexists. constructor.
  - destruct (IH1 Hs) as (w1 & -> & Ha1 & Hf1).
    destruct (IH2 Hs) as (w2 & -> & Ha2 & Hf2).
    exists (w1 ++ w2). split; [by rewrite app_assoc|]. split.
    + intros y Hy. cbn in Hy.
      rewrite elem_of_app. intros [?|?]; [by eapply Ha1|by eapply Ha2].
    + intros p0 t. destruct (Hf1 p0 (w2 ++ t)) as (p1' & H1).
      destruct (Hf2 p1' t) as (p2' & H2).
      exists p2'. rewrite <- app_assoc. eapply M_StarS; [exact H1| |exact H2].
      rewrite !length_app in *. lia.
  - destruct (IH Hs) as (w & -> & Ha & Hf).
    exists w. split; [done|]. split; [exact Ha|].
    intros p0 t. destruct (Hf p0 t) as (p0' & H0). exists p0'. by constructor.
  - done.
  - done.
Qed.

Lemma Matches_text_at ic r p w s' p' :
  simple r = true → Matches ic r p (w ++ s') p' s' →
  (∀ x, avoids ic x r = true → x ∉ w)
  ∧ (∀ p0 t, ∃ p0', Matches ic r p0 (w ++ t) p0' t).
Proof.
  intros Hs HM. destruct (Matches_text _ _ _ _ _ _ Hs HM) as (w' & Heq & H).
  apply app_inv_tail in Heq as ->. exact H.
Qed.

(* ================================================================== *)
(** * Tag patterns and the literal text of the source *)
(* ================================================================== *)

Lemma canon_fixed ic c x :
  c < 65 ∨ 122 < c ∨ (90 < c ∧ c < 97) → canon ic x = canon ic c → x = c.
Proof.
  unfold canon. intros Hc.
  destruct (ic && (97 <=? c) && (c <=? 122)) eqn:Ec.
  { apply andb_true_iff in Ec as [[_ E1]%andb_true_iff E2].
    apply N.leb_le in E1, E2. lia. }
  destruct (ic && (97 <=? x) && (x <=? 122)) eqn:Ex; [|done].
  apply andb_true_iff in Ex as [[_ E1]%andb_true_iff E2].
  apply N.leb_le in E1, E2. lia.
Qed.

Lemma chr_ok_refl ic c : chr_ok ic c c = true.
Proof. unfold chr_ok. apply N.eqb_refl. Qed.

Lemma seqs_cons r rs : seqs (r :: rs) = Seq r (seqs rs).
Proof. reflexivity. Qed.

Lemma Matches_seqs_app ic rs1 rs2 p s p' s' :
  Matches ic (seqs (rs1 ++ rs2)) p s p' s' ↔
  ∃ p1 s1, Matches ic (seqs rs1) p s p1 s1 ∧ Matches ic (seqs rs2) p1 s1 p' s'.
Proof.
  revert p s. induction rs1 as [|r rs1 IH]; intros p s.
  - cbn [app]. split.
    + intros H. exists p, s. split; [constructor|done].
    + intros (p1 & s1 & H1 & H2). inversion H1; by subst.
  - cbn [app]. rewrite !seqs_cons. split.
    + intros H. inversion H as [| | | |? ? ? ? p0 s0 ? ? H1 H2| | | | |]; subst.
      apply IH in H2 as (p1 & s1 & H2 & H3).
      exists p1, s1. split; [by econstructor|done].
    + intros (p1 & s1 & H1 & H2).
      inversion H1 as [| | | |? ? ? ? p0 s0 ? ? H3 H4| | | | |]; subst.
      econstructor; [exact H3|]. apply IH. eauto.
Qed.

(** A literal matches the texts that are its letters, case apart. *)
Lemma Matches_lits_inv ic P : ∀ p s p' s',
  Matches ic (lits P) p s p' s' →
  ∃ w, s = w ++ s' ∧ Forall2 (λ c x, chr_ok ic c x = true) P w.
Proof.
  induction P as [|c P IH]; intros p s p' s' H.
  - inversion H; subst. by exists [].
  - cbn in H. inversion H as [| | | |? ? ? ? p0 s0 ? ? H1 H2| | | | |]; subst.
    inversion H1; subst. apply IH in H2 as (w & -> & HF).
    exists (x :: w). split; [done|]. by constructor.
Qed.

Lemma Matches_lits ic P : ∀ w p t,
  Forall2 (λ c x, chr_ok ic c x = true) P w →
  ∃ p', Matches ic (lits P) p (w ++ t) p' t.
Proof.
  induction P as [|c P IH]; intros w p t HF.
  - inversion HF; subst. exists p. constructor.
  - inversion HF as [|? x ? w' Hx HF']; subst.
    destruct (IH w' (Some x) t HF') as (p' & H).
    exists p'. cbn. econstructor; [by constructor|exact H].
Qed.

(** A greedy class loop takes any run of units of the class. *)
Lemma Matches_star_cls ic g neg cs : ∀ w p t,
  Forall (λ x, cls_ok ic neg cs x = true) w →
  ∃ p', Matches ic (Star g (Cls neg cs)) p (w ++ t) p' t.
Proof.
  induction w as [|x w IH]; intros p t HF.
  - exists p. constructor.
  - inversion HF as [|? ? Hx HF']; subst.
    destruct (IH (Some x) t HF') as (p' & H).
    exists p'. cbn [app]. eapply M_StarS; [by constructor| |exact H].
    cbn. lia.
Qed.

Lemma not_gt_cls ic x : x ≠ 62 → cls_ok ic true (lit ">") x = true.
Proof.
  intros Hx. unfold cls_ok. cbn [lit list_ascii_of_string map existsb].
  change (N_of_ascii ">") with 62.
  destruct (canon ic 62 =? canon ic x) eqn:E; [|done].
  apply N.eqb_eq in E. symmetry in E. apply canon_fixed in E; [done|lia].
Qed.

Lemma quote_cls ic q : cls_ok ic false (dq ++ sq) q = true → q = 34 ∨ q = 39.
Proof.
  unfold cls_ok. cbn. intros H.
  apply orb_true_iff in H as [H|H].
  - left. apply N.eqb_eq in H. symmetry in H. apply canon_fixed in H; [done|lia].
  - apply orb_true_iff in H as [H|H]; [|done].
    right. apply N.eqb_eq in H. symmetry in H. apply canon_fixed in H; [done|lia].
Qed.


(** The shape of a match of a tag pattern, and the matches that the
    shape gives back. *)
Lemma tag_match_shape ic front p v p' s' :
  simple (seqs front) = true → avoids ic 62 (seqs front) = true →
  Matches ic (seqs (front ++ tag_end)) p v p' s' →
  ∃ w q x3,
    v = w ++ [q] ++ x3 ++ [62] ++ s'
    ∧ (62 ∉ w) ∧ (q = 34 ∨ q = 39) ∧ (62 ∉ x3)
    ∧ ∀ p0 y t, 62 ∉ y →
        ∃ p0', Matches ic (seqs (front ++ tag_end)) p0 (w ++ [q] ++ y ++ [62] ++ t) p0' t.
Proof.
  intros Hs Ha HM. apply Matches_seqs_app in HM as (p1 & s1 & HM1 & HM2).
  destruct (Matches_text _ _ _ _ _ _ Hs HM1) as (w & -> & Hw & Hframe).
  unfold tag_end in HM2. rewrite !seqs_cons in HM2.
  inversion HM2 as [| | | |? ? ? ? p2 s2 ? ? HQ HM3| | | | |]; subst.
  inversion HQ as [|? ? ? q ? Hq| | | | | | | |]; subst.
  inversion HM3 as [| | | |? ? ? ? p3 s3 ? ? HS HM4| | | | |]; subst.
  assert (simple (star (notin (lit ">"))) = true) as Hss by reflexivity.
  destruct (Matches_text _ _ _ _ _ _ Hss HS) as (x3 & -> & Hx3 & _).
  inversion HM4 as [| | | |? ? ? ? p4 s4 ? ? HG HE| | | | |]; subst.
  inversion HE; subst.
  apply (Matches_lits_inv ic (lit ">")) in HG as (g & Hg & HF).
  inversion HF as [|? x ? ? Hx HF']; subst. inversion HF'; subst.
  assert (x = 62) as ->.
  { unfold chr_ok in Hx. apply N.eqb_eq in Hx.
    apply (canon_fixed ic 62 x); [lia|done]. }
  exists w, q, x3. split; [done|].
  split; [by apply Hw|]. split; [by apply quote_cls in Hq|].
  split.
  { apply Hx3. cbn. unfold cls_ok. cbn.
    unfold canon. cbn. by destruct ic. }
  intros p0 y t Hy.
  destruct (Hframe p0 ([q] ++ y ++ [62] ++ t)) as (p1' & H1).
  destruct (Matches_star_cls ic true true (lit ">") y (Some q) ([62] ++ t)) as (p2' & H2).
  { apply Forall_forall. intros z Hz. apply not_gt_cls. intros ->. done. }
  eexists. apply (Matches_seqs_app ic front tag_end).
  eexists _, _. split; [exact H1|].
  unfold tag_end. rewrite !seqs_cons.
  econstructor; [by constructor|].
  econstructor; [exact H2|].
  econstructor; [|constructor].
  cbn. econstructor; [constructor; apply chr_ok_refl|constructor].
Qed.

Lemma first_pivot {A} (c : A) : ∀ X Y s1 s2,
  c ∉ X → c ∉ Y → X ++ c :: s1 = Y ++ c :: s2 → X = Y ∧ s1 = s2.
Proof.
  induction X as [|x X IH]; intros [|y Y] s1 s2 HX HY Heq; cbn in Heq.
  - by injection Heq as ->.
  - injection Heq as -> _. exfalso. apply HY. by left.
  - injection Heq as -> _. exfalso. apply HX. by left.
  - injection Heq as -> Heq.
    destruct (IH Y s1 s2) as [-> ->]; [| |done|done].
    + intros H. apply HX. by right.
    + intros H. apply HY. by right.
Qed.

(** A simple pattern that matches a text is found wherever that text
    stands. *)
Lemma test_found pt p w s' p' :
  simple (body pt) = true →
  Matches (icase pt) (body pt) p (w ++ s') p' s' →
  ∀ u t, test pt (u ++ w ++ t) = true.
Proof.
  intros Hs HM u t. apply test_iff.
  destruct (Matches_text_at _ _ _ _ _ _ Hs HM) as [_ Hf].
  destruct (Hf (prev_after None u) t) as (p0' & H0).
  exists u, (w ++ t), p0', t. done.
Qed.

Lemma test_app_l pt a s :
  simple (body pt) = true → test pt s = true → test pt (a ++ s) = true.
Proof.
  intros Hs (u & v & p' & s' & -> & HM)%test_iff.
  destruct (Matches_suffix _ _ _ _ _ _ HM) as [w ->].
  rewrite app_assoc. by eapply test_found.
Qed.


Lemma head_close_split : head_close = head_open ++ [62].
Proof. reflexivity. Qed.

(** A tag that the pattern finds is still found after another tag is put
    in before a [</head>]. *)
Lemma tag_test_insert pt front a b L0 :
  body pt = seqs (front ++ tag_end) →
  simple (body pt) = true →
  simple (seqs front) = true → avoids (icase pt) 62 (seqs front) = true →
  62 ∉ L0 →
  test pt (a ++ head_close ++ b) = true →
  test pt (a ++ (L0 ++ [62]) ++ head_close ++ b) = true.
Proof.
  intros Hbody Hsb Hs Ha HL (u & v & p' & s' & Heq & HM)%test_iff.
  pose proof HM as HM0. rewrite Hbody in HM.
  destruct (tag_match_shape _ _ _ _ _ _ Hs Ha HM)
    as (w & q & x3 & -> & Hw & Hq & Hx3 & Hre).
  assert (H62 : 62 ∉ head_open).
  { intros H. repeat (inversion H as [|? ? ? H']; clear H; rename H' into H). }
  assert (Hqh : q ∉ head_open).
  { intros H. destruct Hq as [-> | ->];
      repeat (inversion H as [|? ? ? H']; clear H; rename H' into H). }
  assert (Hfound : ∀ u0 y t, 62 ∉ y → test pt (u0 ++ (w ++ [q] ++ y ++ [62]) ++ t) = true).
  { intros u0 y t Hy. destruct (Hre None y [] Hy) as (p0' & H0).
    rewrite <- Hbody in H0.
    replace (w ++ [q] ++ y ++ [62] ++ []) with ((w ++ [q] ++ y ++ [62]) ++ []) in H0
      by (by rewrite <- !app_assoc).
    by eapply test_found. }
  assert (Hgoal : ∀ u0 y t, 62 ∉ y →
            a ++ (L0 ++ [62]) ++ head_close ++ b
            = u0 ++ (w ++ [q] ++ y ++ [62]) ++ t →
            test pt (a ++ (L0 ++ [62]) ++ head_close ++ b) = true).
  { intros u0 y t Hy ->. by apply Hfound. }
  rewrite head_close_split in *.
  apply app_eq_inv in Heq as [(k & Ha' & Heq)|(k & Hu & Heq)].
  - (* the match begins inside [a] *)
    replace (w ++ [q] ++ x3 ++ [62] ++ s') with ((w ++ q :: x3) ++ 62 :: s') in Heq
      by (rewrite <- !app_assoc; reflexivity).
    replace (k ++ (head_open ++ [62]) ++ b) with (k ++ head_open ++ 62 :: b) in Heq
      by (rewrite <- !app_assoc; reflexivity).
    apply app_eq_inv in Heq as [(k2 & HT & Heq)|(k2 & Hk & Heq)].
    + (* and runs into [</head>] *)
      assert (Hk2 : 62 ∉ k2).
      { intros H. assert (62 ∈ w ++ q :: x3) as Hin.
        { rewrite HT. apply elem_of_app. by right. }
        apply elem_of_app in Hin as [Hin|Hin]; [done|].
        apply elem_of_cons in Hin as [Hin|Hin]; [|done].
        destruct Hq; lia. }
      apply first_pivot in Heq as [<- <-]; [|done|done].
      assert (∃ x3a, k = w ++ [q] ++ x3a ∧ 62 ∉ x3a) as (x3a & -> & Hx3a).
      { replace (w ++ q :: x3) with ((w ++ [q]) ++ x3) in HT
          by (rewrite <- app_assoc; reflexivity).
        apply app_eq_inv in HT as [(k3 & Hwq & Hh)|(k3 & Hwq & Hx)].
        - destruct k3 as [|c k3 _] using rev_ind.
          + exists []. rewrite app_nil_r in Hwq. rewrite app_nil_r, <- Hwq.
            split; [done|]. apply not_elem_of_nil.
          + exfalso. rewrite app_assoc in Hwq.
            apply app_inj_tail in Hwq as [_ <-].
            apply Hqh. rewrite Hh. rewrite elem_of_app. left.
            rewrite elem_of_app. right. by left.
        - exists k3. split; [by rewrite Hwq, <- app_assoc|].
          intros H. apply Hx3. rewrite Hx. apply elem_of_app. by left. }
      apply (Hgoal u (x3a ++ L0) ((head_open ++ [62]) ++ b)).
      * rewrite not_elem_of_app. done.
      * rewrite Ha', <- !app_assoc. reflexivity.
    + (* and ends inside [a] *)
      destruct k2 as [|c k2].
      * exfalso. assert (∃ t, head_open = 60 :: t) as [t Ht] by (by eexists).
        rewrite Ht in Heq. cbn [app] in Heq. by injection Heq.
      * injection Heq as <- Hs'.
        apply (Hgoal u x3 (k2 ++ (L0 ++ [62]) ++ (head_open ++ [62]) ++ b)); [done|].
        rewrite Ha', Hk, <- ?app_assoc. cbn [app]. rewrite <- ?app_assoc. reflexivity.
  - (* the match begins at or after the end of [a] *)
    apply (Hgoal (a ++ (L0 ++ [62]) ++ k) x3 s'); [done|].
    rewrite Heq, <- ?app_assoc. reflexivity.
Qed.

(* ================================================================== *)
(** * The preprocessing of the HTML *)
(* ================================================================== *)

Lemma prefix_b_spec p : ∀ s, prefix_b p s = true → s = p ++ drop (length p) s.
Proof.
  induction p as [|a p IH]; intros s H; [done|].
  destruct s as [|b s]; [done|]. cbn in H.
  apply andb_true_iff in H as [->%N.eqb_eq H]. cbn. f_equal. by apply IH.
Qed.

(** [split_first] cuts the text around an occurrence of the pattern. *)
Lemma split_first_spec p : ∀ s b a,
  split_first p s = Some (b, a) → s = b ++ p ++ a.
Proof.
  induction s as [|c s IH]; intros b a; cbn [split_first].
  - destruct (prefix_b p []) eqn:E; [|done].
    intros [= <- <-]. by apply prefix_b_spec in E.
  - destruct (prefix_b p (c :: s)) eqn:E.
    + intros [= <- <-]. by apply prefix_b_spec in E.
    + destruct (split_first p s) as [[b' a']|] eqn:Es; [|done].
      intros [= <- <-]. cbn. f_equal. by apply IH.
Qed.

(** A replacement text without [$] is put in as it is. *)
Lemma get_substitution_plain matched before after captures : ∀ t,
  36 ∉ t → get_substitution matched before after captures t = t.
Proof.
  induction t as [|c t IH]; intros H; [done|].
  cbn [get_substitution].
  assert (c ≠ 36) as Hc by (intros ->; apply H; by left).
  apply N.eqb_neq in Hc. rewrite Hc. cbn [negb]. f_equal.
  apply IH. intros Hin. apply H. by right.
Qed.

Lemma not_elem_forallb (x : N) (l : list N) :
  forallb (λ c, negb (c =? x)) l = true → x ∉ l.
Proof.
  induction l as [|c l IH]; cbn; [intros _; apply not_elem_of_nil|].
  intros [Hc Hl]%andb_true_iff. apply not_elem_of_cons. split; [|by apply IH].
  intros ->. by rewrite N.eqb_refl in Hc.
Qed.

(** The step of lines 311-321 puts the missing hints in at one place:
    before a [</head>], or in front. *)
Lemma with_preconnect_shape h :
  ∃ a r, h = a ++ r
         ∧ with_preconnect h = a ++ preconnectLinks h ++ r
         ∧ (a = [] ∨ ∃ b, r = head_close ++ b).
Proof.
  unfold with_preconnect.
  destruct (preconnectLinks h) as [|c links] eqn:El.
  { exists [], h. split; [done|]. split; [done|by left]. }
  destruct (includes h head_close) eqn:Ei.
  - unfold includes in Ei. unfold str_replace.
    destruct (split_first head_close h) as [[b a]|] eqn:Es; [|done].
    pose proof (split_first_spec _ _ _ _ Es) as ->.
    rewrite get_substitution_plain.
    + exists b, (head_close ++ a). split; [done|].
      split; [by rewrite <- !app_assoc|]. right. by eexists.
    + rewrite <- El. unfold preconnectLinks.
      destruct (hasPreconnectGoogapis (b ++ head_close ++ a)),
               (hasPreconnectGstatic (b ++ head_close ++ a));
        apply not_elem_forallb; vm_compute; reflexivity.
  - exists [], h. split; [done|]. split; [done|by left].
Qed.


Lemma preconnect_body origin :
  body (preconnectRegex origin) = seqs (tag_front origin ++ tag_end).
Proof. reflexivity. Qed.

(** The tag that the step adds for an origin is one that its own check
    for that origin finds. *)
Lemma link_googleapis_found u t :
  hasPreconnectGoogapis (u ++ link_googleapis ++ t) = true.
Proof.
  unfold hasPreconnectGoogapis.
  destruct (match_here (preconnectRegex googleapis) None link_googleapis) as [st|] eqn:E;
    [|by vm_compute in E].
  assert (rest st = []) as Hr by (vm_compute in E; by injection E as <-).
  unfold match_here in E. apply m_sound in E as (p' & s' & c' & HM & [= <-]).
  cbn in Hr. subst s'.
  eapply (test_found (preconnectRegex googleapis) None link_googleapis []); [reflexivity|].
  by rewrite app_nil_r.
Qed.

Lemma link_gstatic_found u t :
  hasPreconnectGstatic (u ++ link_gstatic ++ t) = true.
Proof.
  unfold hasPreconnectGstatic.
  destruct (match_here (preconnectRegex gstatic) None link_gstatic) as [st|] eqn:E;
    [|by vm_compute in E].
  assert (rest st = []) as Hr by (vm_compute in E; by injection E as <-).
  unfold match_here in E. apply m_sound in E as (p' & s' & c' & HM & [= <-]).
  cbn in Hr. subst s'.
  eapply (test_found (preconnectRegex gstatic) None link_gstatic []); [reflexivity|].
  by rewrite app_nil_r.
Qed.

(** After the step both hints are there. *)
Lemma with_preconnect_has_both h :
  hasPreconnectGoogapis (with_preconnect h) = true
  ∧ hasPreconnectGstatic (with_preconnect h) = true.
Proof.
  destruct (with_preconnect_shape h) as (a & r & Hh & -> & Har).
  unfold preconnectLinks.
  destruct (hasPreconnectGoogapis h) eqn:EG, (hasPreconnectGstatic h) eqn:ES.
  - cbn [app]. by rewrite <- Hh.
  - cbn [app]. split; [|apply link_gstatic_found].
    destruct Har as [-> | [b ->]].
    + cbn [app]. cbn [app] in Hh. subst r. by apply test_app_l.
    + subst h. unfold hasPreconnectGoogapis in *.
      apply (tag_test_insert _ (tag_front googleapis) a b
               (lit "<link rel=" ++ dq ++ lit "preconnect" ++ dq ++ lit " href=" ++ dq
                ++ gstatic ++ dq ++ lit " crossorigin")); try reflexivity; try done.
      apply not_elem_forallb. reflexivity.
  - rewrite app_nil_r. split; [apply link_googleapis_found|].
    destruct Har as [-> | [b ->]].
    + cbn [app]. cbn [app] in Hh. subst r. by apply test_app_l.
    + subst h. unfold hasPreconnectGstatic in *.
      apply (tag_test_insert _ (tag_front gstatic) a b
               (lit "<link rel=" ++ dq ++ lit "preconnect" ++ dq ++ lit " href=" ++ dq
                ++ googleapis ++ dq)); try reflexivity; try done.
      apply not_elem_forallb. reflexivity.
  - split.
    + rewrite <- app_assoc. apply link_googleapis_found.
    + rewrite <- (app_assoc link_googleapis), (app_assoc a). apply link_gstatic_found.
Qed.


Lemma lt_then_l_spec l : lt_then_l l = true →
  ∀ k k2, l = k ++ 60 :: k2 → ∃ k3, k2 = 108 :: k3.
Proof.
  induction l as [|c l IH]; intros H k k2 Heq.
  - by destruct k.
  - cbn in H. apply andb_true_iff in H as [H1 H2].
    destruct k as [|d k]; cbn in Heq.
    + injection Heq as -> ->. cbn in H1.
      destruct k2 as [|e k2]; [done|]. apply N.eqb_eq in H1 as ->. by eexists.
    + injection Heq as -> ->. by eapply IH.
Qed.

Lemma search_weaken pt1 pt2 :
  (∀ p v, is_Some (match_here pt1 p v) → is_Some (match_here pt2 p v)) →
  ∀ s p, search pt2 p s = false → search pt1 p s = false.
Proof.
  intros Hw. induction s as [|c s IH]; intros p; cbn [search].
  - destruct (match_here pt2 p []) eqn:E2; [done|]. intros _.
    destruct (match_here pt1 p []) eqn:E1; [|done].
    destruct (Hw p []) as [? ?]; [by rewrite E1|congruence].
  - destruct (match_here pt2 p (c :: s)) eqn:E2; [done|]. intros H.
    destruct (match_here pt1 p (c :: s)) eqn:E1; [|by apply IH].
    destruct (Hw p (c :: s)) as [? ?]; [by rewrite E1|congruence].
Qed.

(** Where the pattern matches nowhere, [replace] gives the text back. *)
Lemma replace_scan_no_match pt t : ∀ s before p,
  search pt p s = false → replace_scan pt t 0 before p s = s.
Proof.
  induction s as [|c s IH]; intros before p; cbn [search replace_scan].
  - by destruct (match_here pt p []).
  - destruct (match_here pt p (c :: s)); [done|]. intros H. f_equal. by apply IH.
Qed.

Lemma replace_all_no_match pt t s : test pt s = false → replace_all pt s t = s.
Proof. apply replace_scan_no_match. Qed.

Lemma starts_with_literal pt P rs p v :
  body pt = seqs (lits P :: rs) →
  is_Some (match_here pt p v) →
  is_Some (match_here (Pattern (lits P) (icase pt) 0) p v).
Proof.
  intros Hb (p' & s' & HM)%match_here_iff. apply match_here_iff.
  rewrite Hb, seqs_cons in HM.
  inversion HM as [| | | |? ? ? ? p1 s1 ? ? H1 H2| | | | |]; subst.
  cbn. eauto.
Qed.

Lemma no_embed_strip h : no_embed h → strip_embeds h = h.
Proof.
  intros [Hs Hi]. unfold strip_embeds.
  rewrite (replace_all_no_match scriptRegex).
  - apply replace_all_no_match. revert Hi. unfold test. apply search_weaken.
    intros p v H. by eapply (starts_with_literal iframeRegex (lit "<iframe")); [reflexivity|].
  - revert Hs. unfold test. apply search_weaken.
    intros p v H. by eapply (starts_with_literal scriptRegex (lit "<script")); [reflexivity|].
Qed.

Lemma no_embed_no_match h :
  no_embed h → test scriptRegex h = false ∧ test iframeRegex h = false.
Proof.
  intros [Hs Hi]. split.
  - revert Hs. unfold test. apply search_weaken.
    intros p v H. by eapply (starts_with_literal scriptRegex (lit "<script")); [reflexivity|].
  - revert Hi. unfold test. apply search_weaken.
    intros p v H. by eapply (starts_with_literal iframeRegex (lit "<iframe")); [reflexivity|].
Qed.

Lemma simple_lits P : simple (lits P) = true.
Proof. induction P as [|c P IH]; [done|]. exact IH. Qed.

(** Putting tags of the kind [<l...] into a text makes no new
    [<script] or [<iframe]. *)
Lemma opener_insert ic p1 P' a r L :
  chr_ok ic p1 108 = false →
  Forall (λ c, chr_ok ic c 60 = false) (p1 :: P') →
  lt_then_l L = true → (L = [] ∨ ∃ L', L = 60 :: L') →
  test (Pattern (lits (60 :: p1 :: P')) ic 0) (a ++ r) = false →
  test (Pattern (lits (60 :: p1 :: P')) ic 0) (a ++ L ++ r) = false.
Proof.
  intros Hp1 HP HL HL0 Hno.
  destruct HL0 as [->|[L' ->]]; [done|].
  destruct (test _ (a ++ (60 :: L') ++ r)) eqn:Ht; [|done]. exfalso.
  apply test_iff in Ht as (u & v & p' & s' & Heq & HM). cbn [icase body] in HM.
  apply Matches_lits_inv in HM as (o & -> & HF).
  inversion HF as [|? o1 ? o' Ho1 HF']; subst.
  inversion HF' as [|? x1 ? o'' Hx1 HF'']; subst.
  assert (Hfound : ∀ u0 t, a ++ r = u0 ++ (o1 :: x1 :: o'') ++ t → False).
  { intros u0 t Hr. rewrite Hr in Hno.
    destruct (Matches_lits ic (60 :: p1 :: P') (o1 :: x1 :: o'') None []) as (p0 & H0);
      [done|].
    rewrite (test_found (Pattern (lits (60 :: p1 :: P')) ic 0) None
               (o1 :: x1 :: o'') [] p0) in Hno; [done|apply simple_lits|exact H0]. }
  assert (Ho60 : o1 = 60).
  { unfold chr_ok in Ho1. apply N.eqb_eq in Ho1. apply (canon_fixed ic 60 o1); [lia|done]. }
  subst o1.
  assert (Hx60 : 60 ∉ x1 :: o'').
  { intros Hin. apply list_elem_of_split in Hin as (k1 & k2 & Hk).
    rewrite Hk in HF'. apply Forall2_app_inv_r in HF' as (P1 & P2 & _ & HF2 & HPeq).
    inversion HF2 as [|c ? ? ? Hc _]; subst.
    rewrite HPeq in HP. apply Forall_app in HP as [_ HP].
    inversion HP as [|? ? Hc' _]; subst. congruence. }
  assert (Hx108 : x1 ≠ 108) by (intros ->; congruence).
  pose proof (lt_then_l_spec _ HL) as Hlt.
  apply app_eq_inv in Heq as [(k & Ha & Heq)|(k & Hu & Heq)].
  - (* the occurrence begins inside [a] *)
    apply app_eq_inv in Heq as [(k2 & Ho & Heq)|(k2 & Hk & Heq)].
    + destruct k2 as [|c k2].
      * rewrite app_nil_r in Ho. apply (Hfound u r). by rewrite Ha, Ho, <- app_assoc.
      * cbn [app] in Heq. injection Heq as <- Heq.
        destruct k as [|d k]; cbn [app] in Ho.
        -- injection Ho as <-. destruct (Hlt [] L' eq_refl) as [k3 ->].
           cbn [app] in Heq. by injection Heq.
        -- injection Ho as _ Ho. apply Hx60. rewrite Ho.
           apply elem_of_app. right. by left.
    + apply (Hfound u (k2 ++ r)). rewrite Ha, Hk, <- !app_assoc. reflexivity.
  - (* the occurrence begins at or after the end of [a] *)
    apply app_eq_inv in Heq as [(k2 & HL' & Heq)|(k2 & Hk & Heq)].
    + destruct k2 as [|c k2].
      * cbn [app] in Heq. apply (Hfound a s'). by rewrite <- Heq.
      * cbn [app] in Heq. injection Heq as <- Heq.
        destruct (Hlt k k2 HL') as [k3 ->].
        cbn [app] in Heq. by injection Heq.
    + apply (Hfound (a ++ k2) s'). rewrite Heq, <- !app_assoc. reflexivity.
Qed.

Lemma no_embed_with_preconnect h : no_embed h → no_embed (with_preconnect h).
Proof.
  intros [Hs Hi].
  destruct (with_preconnect_shape h) as (a & r & Hh & -> & _).
  rewrite Hh in Hs, Hi.
  assert (lt_then_l (preconnectLinks h) = true
          ∧ (preconnectLinks h = [] ∨ ∃ L', preconnectLinks h = 60 :: L')) as [HL HL0].
  { unfold preconnectLinks.
    destruct (hasPreconnectGoogapis h), (hasPreconnectGstatic h);
      (split; [reflexivity|]); first [by left | right; by eexists]. }
  split.
  - apply (opener_insert true 115 (lit "cript")); try done.
    repeat constructor.
  - apply (opener_insert true 105 (lit "frame")); try done.
    repeat constructor.
Qed.

(* ================================================================== *)
(** * The font step and the preprocessing: the claims *)
(* ================================================================== *)


Lemma inline_link_failed (E : env) (inlined tag : jsstring) (w : world) :
  (∀ href, href_of tag = Some href → fetch_fails (net E (tick w) href)) →
  (inline_link E inlined tag w).1 = Ok inlined.
Proof.
  intros Hf. unfold inline_link.
  destruct (href_of tag) as [[|c href]|]; [done| |done].
  specialize (Hf (c :: href) eq_refl). run.
  destruct (net E (tick w) (c :: href)) as [e|ok [t|]]; [done| |].
  - destruct Hf as [->|[=]]. done.
  - by destruct ok.
Qed.

Lemma inline_link_changed (E : env) (inlined tag out : jsstring) (w w' : world) :
  inline_link E inlined tag w = (Ok out, w') → out ≠ inlined →
  ∃ href css, href_of tag = Some href
    ∧ net E (tick w) href = FetchResponse true (Some css)
    ∧ out = str_replace inlined tag (styleTag css).
Proof.
  unfold inline_link.
  destruct (href_of tag) as [[|c href]|]; [by intros [= <- _]| |by intros [= <- _]].
  run. destruct (net E (tick w) (c :: href)) as [e|ok [t|]] eqn:En; cbn.
  - by intros [= <- _].
  - destruct ok; cbn.
    + intros [= <- _] _. by eexists _, _.
    + by intros [= <- _].
  - destruct ok; cbn; by intros [= <- _].
Qed.

Lemma foldM_inline_failed (E : env) (links : list jsstring) : ∀ inlined w,
  (∀ n url, fetch_fails (net E n url)) →
  (foldM (inline_link E) inlined links w).1 = Ok inlined.
Proof.
  induction links as [|tag links IH]; intros inlined w Hf; [done|].
  cbn [foldM]. unfold bind.
  pose proof (inline_link_failed E inlined tag w (λ href _, Hf _ href)) as H1.
  destruct (inline_link E inlined tag w) as [o w1]. cbn in H1. subst o.
  by apply IH.
Qed.

(** C4, as the code has it: [inlineGoogleFonts] never throws; the round
    of a link whose fetch fails leaves the HTML as it was, so that when
    every fetch fails the input comes back unchanged; a round changes the
    HTML only after a fetch that succeeded, and then by replacing the first
    place where the text of the tag stands by the style tag. *)
Theorem C4_font_failures_swallowed (E : env) (html inlined tag : jsstring)
    (w : world) :
  (∃ out w', inlineGoogleFonts E html w = (Ok out, w'))
  ∧ ((∀ href, href_of tag = Some href → fetch_fails (net E (tick w) href)) →
     (inline_link E inlined tag w).1 = Ok inlined)
  ∧ ((∀ n url, fetch_fails (net E n url)) →
     (inlineGoogleFonts E html w).1 = Ok html)
  ∧ (∀ out w', inline_link E inlined tag w = (Ok out, w') → out ≠ inlined →
     ∃ href css, href_of tag = Some href
       ∧ net E (tick w) href = FetchResponse true (Some css)
       ∧ out = str_replace inlined tag (styleTag css)).
Proof.
  split; [|split; [|split]].
  - destruct (inlineGoogleFonts_frame E html w) as (out & w' & H & _). eauto.
  - apply inline_link_failed.
  - intros Hf. unfold inlineGoogleFonts, try_catch.
    pose proof (foldM_inline_failed E (exec_all linkRegex 0 None html) html w Hf) as H.
    destruct (foldM _ _ _ w) as [o w1]. cbn in H. by subst o.
  - intros out w'. apply inline_link_changed.
Qed.

Lemma C4_font_failures_swallowed_witness :
  (inlineGoogleFonts quiet nested_links_html (initial_world ∅)).1
  = Ok nested_links_html.
Proof.
  pose proof (C4_font_failures_swallowed quiet nested_links_html [] []
                (initial_world ∅)) as (_ & _ & H & _).
  apply H. intros n url. right. reflexivity.
Defined.

(** C4 fails as stated: the fetch for the first link fails, and that
    link is not in the returned HTML as it was, because the text of the
    second link, whose fetch succeeds, stands inside it. *)
Lemma C4_failed_link_is_changed :
  exec_all linkRegex 0 None nested_links_html = [open_link; fonts_link]
  ∧ href_of open_link = Some other_url
  ∧ net fonts_up 0 other_url = FetchResponse false None
  ∧ ∃ out, (inlineGoogleFonts fonts_up nested_links_html (initial_world ∅)).1
           = Ok out
           ∧ includes out open_link = false.
Proof.
  split; [by vm_compute|]. split; [by vm_compute|]. split; [by vm_compute|].
  eexists. split; vm_compute; reflexivity.
Qed.

(** [split_first] cuts at the first occurrence. *)
Lemma prefix_b_app p a : prefix_b p (p ++ a) = true.
Proof. induction p as [|c p IH]; [done|]. cbn. by rewrite N.eqb_refl. Qed.

Lemma split_first_first p : ∀ s b a,
  split_first p s = Some (b, a) →
  ∀ b' a', s = b' ++ p ++ a' → (length b <= length b')%nat.
Proof.
  induction s as [|c s IH]; intros b a; cbn [split_first].
  - destruct (prefix_b p []); [|done]. intros [= <- <-] b' a' _. cbn. lia.
  - destruct (prefix_b p (c :: s)) eqn:E.
    + intros [= <- <-] b' a' _. cbn. lia.
    + destruct (split_first p s) as [[b0 a0]|] eqn:Es; [|done].
      intros [= <- <-] b' a' Heq. destruct b' as [|d b'].
      * cbn in Heq. rewrite Heq, prefix_b_app in E. done.
      * injection Heq as _ Heq. cbn. apply le_n_S. by eapply IH.
Qed.

Lemma with_preconnect_place h :
  ∃ a r, h = a ++ r
    ∧ with_preconnect h = a ++ preconnectLinks h ++ r
    ∧ ((a = [] ∧ includes h head_close = false)
       ∨ (a = [] ∧ preconnectLinks h = [])
       ∨ (∃ b, r = head_close ++ b
               ∧ ∀ a' b', h = a' ++ head_close ++ b' → (length a <= length a')%nat)).
Proof.
  unfold with_preconnect.
  destruct (preconnectLinks h) as [|c links] eqn:El.
  { exists [], h. split; [done|]. split; [done|]. right. by left. }
  destruct (includes h head_close) eqn:Ei.
  - unfold includes in Ei. unfold str_replace.
    destruct (split_first head_close h) as [[b a]|] eqn:Es; [|done].
    pose proof (split_first_first _ _ _ _ Es) as Hfirst.
    pose proof (split_first_spec _ _ _ _ Es) as ->.
    rewrite get_substitution_plain.
    + exists b, (head_close ++ a). split; [done|].
      split; [by rewrite <- !app_assoc|]. right. right. by eexists.
    + rewrite <- El. unfold preconnectLinks.
      destruct (hasPreconnectGoogapis (b ++ head_close ++ a)),
               (hasPreconnectGstatic (b ++ head_close ++ a));
        apply not_elem_forallb; vm_compute; reflexivity.
  - exists [], h. split; [done|]. split; [done|]. by left.
Qed.

Lemma no_embed_hi : no_embed (lit "<h1>Hi</h1>").
Proof. split; reflexivity. Qed.

(** C7: the code at the failing inputs.  The removal is one pass of each
    pattern, so a script tag that another one splits is put together by
    the removal and stays in the output, where the script pattern still
    matches: the code does not do what its comment at line 323 says (the
    remaining scripts are removed).  And the hints that went in before a
    [</head>] inside a script are removed with the script. *)
Lemma C7_script_survives_hints_lost :
  processHtmlForRendering split_script_html
  = link_googleapis ++ link_gstatic ++ lit "<script>alert(1)</script>"
  ∧ test scriptRegex (processHtmlForRendering split_script_html) = true
  ∧ processHtmlForRendering script_head_html = []
  ∧ hasPreconnectGoogapis (processHtmlForRendering script_head_html) = false.
Proof. repeat split; vm_compute; reflexivity. Qed.

(** C10: the code at the failing input.  The first pass leaves the
    script that its removal put together and the second pass removes it,
    so the second pass changes the output of the first. *)
Lemma C10_second_pass_removes_more :
  processHtmlForRendering (processHtmlForRendering split_script_html)
  ≠ processHtmlForRendering split_script_html.
Proof.
  intros H. apply (f_equal length) in H. vm_compute in H. discriminate H.
Qed.

(* ================================================================== *)
(** * More on the routes *)
(* ================================================================== *)

Ltac split_or :=
  repeat match goal with H : _ ∨ _ |- _ => destruct H as [H|H] end.

(** X1: POST /api/remove-background always answers.  Started on a fresh
    response, the endpoint does not throw and ends with a body and one
    of the statuses 200, 400 and 500; the status is 200 exactly when the
    body is a buffer. *)
Theorem X1_remove_background_always_answers (E : env) (part : option upload)
    (w : world) :
  res w = fresh_response →
  let r := post_remove_background E part w in
  r.1 = Ok tt
  ∧ (status (res r.2) = 200%nat ∨ status (res r.2) = 400%nat
     ∨ status (res r.2) = 500%nat)
  ∧ is_Some (resp_body (res r.2))
  ∧ (status (res r.2) = 200%nat ↔ ∃ png, resp_body (res r.2) = Some (BodyBytes png)).
Proof.
  intros Hr. cbn zeta.
  remember (post_remove_background E part w) as r eqn:Hrun. revert Hrun.
  unfold post_remove_background, bind at 1.
  destruct part as [u|].
  - destruct (upload_cases E u w) as [(e & -> & He)|(Hf & Hm & Hlt)].
    + unfold express_default_error. rewrite He. run. intros ->. cbn.
      split; [done|]. split; [tauto|]. split; [by eexists|].
      split; [intros [=]|intros [png [=]]].
    + rewrite upload_taken by done. cbn zeta.
      destruct (fails E (tick w) (EWriteFile _)) as [e|] eqn:Hw.
      * unfold express_default_error. cbn [err_status]. run. intros ->.
        destruct (torn_write E (content u)); cbn.
        all: split; [done|]. all: split; [tauto|]. all: split; [by eexists|].
        all: split; [intros [=]|intros [png [=]]].
      * unfold remove_background. run. cbn -[lit lookup insert delete].
        exec_from r; rewrite ?Hr; cbn.
        all: split; [done|]. all: split; [tauto|]. all: split; [by eexists|].
        all: split; [intros H; first [discriminate H | by eexists]
                    |intros [png H]; first [discriminate H | done]].
  - cbn. intros ->. cbn.
    split; [done|]. split; [tauto|]. split; [by eexists|].
    split; [intros [=]|intros [png [=]]].
Qed.

Lemma X1_remove_background_always_answers_witness :
  (post_remove_background unlink_refused (Some png_upload) (initial_world ∅)).1
  = Ok tt.
Proof.
  exact (proj1 (X1_remove_background_always_answers unlink_refused
                  (Some png_upload) (initial_world ∅) eq_refl)).
Defined.

(** X2: the background-removal routine only ever gets the bytes of the
    upload: whatever it is called on during a request is the content of
    the uploaded file, read back from the temp file. *)
Theorem X2_routine_gets_the_upload (E : env) (part : option upload) (w : world)
    (input : list N) :
  ERemoveBackground input ∈ trace (post_remove_background E part w).2 →
  ERemoveBackground input ∉ trace w →
  ∃ u, part = Some u ∧ input = content u.
Proof.
  intros Hin Hnot. destruct part as [u|]; [|done].
  exists u. split; [done|]. revert Hin.
  remember (post_remove_background E (Some u) w) as r eqn:Hrun. revert Hrun.
  unfold post_remove_background, bind at 1.
  destruct (upload_cases E u w) as [(e & -> & He)|(Hf & Hm & Hlt)].
  - unfold express_default_error. run. intros ->. done.
  - rewrite upload_taken by done. cbn zeta.
    destruct (fails E (tick w) (EWriteFile _)) as [e|] eqn:Hw.
    + unfold express_default_error. run. intros ->.
      destruct (torn_write E (content u)); cbn.
      all: rewrite ?elem_of_app, ?list_elem_of_singleton.
      all: intros H; split_or; try done; try discriminate.
    + unfold remove_background. run. cbn -[lit lookup insert delete].
      exec_from r.
      all: rewrite ?elem_of_app, ?list_elem_of_singleton.
      all: intros H; split_or; try done; try discriminate.
      all: match goal with H : ERemoveBackground _ = _ |- _ => by injection H end.
Qed.

Lemma X2_routine_gets_the_upload_witness :
  ∃ u, Some png_upload = Some u ∧ content png_upload = content u.
Proof.
  apply (X2_routine_gets_the_upload quiet (Some png_upload) (initial_world ∅)).
  - vm_compute. apply list_elem_of_In. cbn. tauto.
  - vm_compute. intros H. inversion H.
Defined.

(** X3: the request touches no file but its own temp file: every other
    path of the disk holds at the end what it held before, and every
    [unlink] of the request is on the temp file. *)
Theorem X3_only_the_temp_file (E : env) (part : option upload) (w : world) :
  let path := lit "uploads/" ++ upload_name E in
  let w' := (post_remove_background E part w).2 in
  (∀ q, q ≠ path → fs w' !! q = fs w !! q)
  ∧ (∀ q, EUnlink q ∈ trace w' → EUnlink q ∉ trace w → q = path).
Proof.
  intros path w'. subst w'.
  remember (post_remove_background E part w) as r eqn:Hrun. revert Hrun.
  unfold post_remove_background, bind at 1.
  destruct part as [u|].
  - destruct (upload_cases E u w) as [(e & -> & He)|(Hf & Hm & Hlt)].
    + unfold express_default_error. run. intros ->. cbn. done.
    + rewrite upload_taken by done. cbn zeta. fold path.
      destruct (fails E (tick w) (EWriteFile _)) as [e|] eqn:Hw.
      * unfold express_default_error. run. intros ->.
        destruct (torn_write E (content u)); cbn -[lit lookup insert delete].
        all: split;
          [intros q Hq; rewrite ?lookup_insert_ne by done; done|].
        all: intros q; rewrite ?elem_of_app, ?list_elem_of_singleton.
        all: intros H Hnot; split_or; try done; try discriminate.
      * unfold remove_background. run. cbn -[lit lookup insert delete]. fold path.
        exec_from r.
        all: split;
          [intros q Hq;
           rewrite ?lookup_delete_ne by done; rewrite ?lookup_insert_ne by done; done|].
        all: intros q; rewrite ?elem_of_app, ?list_elem_of_singleton.
        all: intros H Hnot; split_or; try done; try discriminate.
        all: match goal with H : EUnlink _ = _ |- _ => by injection H end.
  - cbn. intros ->. cbn. done.
Qed.

Lemma X3_only_the_temp_file_witness :
  fs (post_remove_background quiet (Some png_upload)
        (initial_world {[ lit "uploads/keep.png" := [1; 2; 3] ]})).2
     !! lit "uploads/keep.png"
  = Some [1; 2; 3].
Proof.
  pose proof (X3_only_the_temp_file quiet (Some png_upload)
                (initial_world {[ lit "uploads/keep.png" := [1; 2; 3] ]})) as [H _].
  cbn zeta in H. specialize (H (lit "uploads/keep.png")).
  etransitivity; [apply H; vm_compute; discriminate|reflexivity].
Defined.
(* ================================================================== *)
(** * More on the render routes *)
(* ================================================================== *)

(** X4: how POST /api/render ends.  Started on a fresh response, either
    it answers, in one of three ways: 400 with its message for a falsy
    [html]; 200 with the PNG of the [html] as it came; or 500 with
    [Rendering failed] and, in every environment, the message of the
    error that a library call threw.  Or the [close] of the catch block
    (line 177) throws: then the handler throws that error and no answer
    is written. *)
Theorem X4_api_render_outcomes (E : env) (body : render_body) (w : world) :
  res w = fresh_response →
  let r := api_render E body w in
  (r.1 = Ok tt
   ∧ ((truthy (html body) = false
       ∧ status (res r.2) = 400%nat
       ∧ resp_body (res r.2)
         = Some (BodyJson [(lit "error", JStr (lit "HTML content is required"))]))
      ∨ (truthy (html body) = true
         ∧ status (res r.2) = 200%nat
         ∧ resp_body (res r.2) = Some (BodyBytes (render_png E (html body))))
      ∨ (∃ n ev e, fails E n ev = Some e
         ∧ truthy (html body) = true
         ∧ status (res r.2) = 500%nat
         ∧ resp_body (res r.2)
           = Some (BodyJson [(lit "error", JStr (lit "Rendering failed"));
                             (lit "details", JStr (message e))]))))
  ∨ (∃ n b e, fails E n (EBrowserClose b) = Some e
       ∧ r.1 = Throw e ∧ res r.2 = res w).
Proof.
  intros Hr. cbn zeta.
  remember (api_render E body w) as r eqn:Hrun. revert Hrun.
  unfold api_render. run. cbn -[lit lookup insert delete union difference].
  destruct (truthy (html body)) eqn:Ht; cbn -[lit lookup insert delete union difference].
  - exec_from r; rewrite ?Hr; cbn -[lit].
    all: first
      [ left; split; [done|]; right; left; done
      | left; split; [done|]; right; right; eexists _, _, _;
        split; [|split; [done|split; [done|reflexivity]]]; eassumption
      | right; eexists _, _, _; split; [|split; [reflexivity|done]]; eassumption ].
  - intros ->. cbn -[lit]. left. split; [done|]. left. done.
Qed.

Lemma X4_api_render_outcomes_witness :
  (api_render screenshot_fails body_hi (initial_world ∅)).1 = Ok tt
  ∧ status (res (api_render screenshot_fails body_hi (initial_world ∅)).2)
    = 500%nat.
Proof.
  destruct (X4_api_render_outcomes screenshot_fails body_hi (initial_world ∅)
              eq_refl) as [[H _]|(n & b & e & _ & H & _)].
  - split; [exact H|]. by vm_compute.
  - exfalso. revert H. by vm_compute.
Defined.

(** X5: the success path of POST /api/render.  For a truthy [html], when
    no call throws, the request makes exactly these calls in this order:
    launch, new page, viewport of the parsed width and height, content
    (the [html] as it came, no timeout), screenshot of the page, close;
    the answer has Content-Type image/png and the elapsed time in
    X-Processing-Time. *)
Theorem X5_api_render_success (E : env) (body : render_body) (w : world) :
  (∀ n ev, fails E n ev = None) → truthy (html body) = true →
  let w' := (api_render E body w).2 in
  trace w'
  = trace w
    ++ [ELaunch (LaunchOptions (JStr (lit "new")) None
                   [lit "--no-sandbox"; lit "--disable-setuid-sandbox"]);
        ENewPage;
        ESetViewport (Viewport (parseInt (or_default (width body) (JNum 1200)))
                               (parseInt (or_default (height body) (JNum 630)))
                               JUndefined);
        ESetContent (html body) None;
        EScreenshot false None;
        EBrowserClose (next_browser w)]
  ∧ headers (res w') !! lit "Content-Type" = Some (lit "image/png")
  ∧ headers (res w') !! lit "X-Processing-Time"
    = Some (fmt_elapsed E (clock E (tick w)) (clock E (5 + tick w)%nat))
  ∧ resp_body (res w') = Some (BodyBytes (render_png E (html body)))
  ∧ status (res w') = status (res w).
Proof.
  intros Hok Ht. cbn zeta.
  remember (api_render E body w) as r eqn:Hrun. revert Hrun.
  unfold api_render. run. rewrite Ht.
  cbn -[lit lookup insert delete union difference].
  repeat (rewrite !Hok; cbn -[lit lookup insert delete union difference]).
  intros ->. cbn -[lit lookup insert delete union difference].
  split; [by rewrite <- !app_assoc|].
  split; [rewrite lookup_insert_ne by (by vm_compute); apply lookup_insert_eq|].
  split; [apply lookup_insert_eq|done].
Qed.

Lemma X5_api_render_success_witness :
  resp_body (res (api_render quiet body_hi (initial_world ∅)).2)
  = Some (BodyBytes (render_png quiet (html body_hi))).
Proof.
  pose proof (X5_api_render_success quiet body_hi (initial_world ∅)) as H.
  cbn zeta in H. destruct H as (_ & _ & _ & H & _); [reflexivity|reflexivity|].
  exact H.
Defined.

Lemma captureHtml_outcome (E : env) (html : jsstring) (wd ht dsf : jsval)
    (w : world) :
  let r := captureHtml E html wd ht dsf w in
  (∀ buffer, r.1 = Ok buffer →
     ∃ clean, (inlineGoogleFonts E (processHtmlForRendering html)
                 (with_browser None w)).1 = Ok clean
              ∧ buffer = render_png E (JStr clean)
              ∧ ESetContent (JStr clean) (Some 120000) ∈ trace r.2)
  ∧ (∀ e, r.1 = Throw e →
     ∃ n ev, fails E n ev = Some e ∧ is_browser_call ev ∧ ev ∈ trace r.2)
  ∧ (next_browser r.2 <= S (next_browser w))%nat
  ∧ res r.2 = res w.
Proof.
  cbn zeta.
  remember (captureHtml E html wd ht dsf w) as r eqn:Hrun. revert Hrun.
  unfold captureHtml. unfold bind at 1, modify at 1. unfold try_catch at 1. unfold bind at 1.
  destruct (inlineGoogleFonts_frame E (processHtmlForRendering html) (with_browser None w))
    as (clean & w1 & -> & [Hfs Hop Hnx Hres Htp Hbr (fevs & Htr & Hnet)]).
  destruct w1 as [fs1 op1 nx1 tk1 tr1 rs1 tp1 br1].
  cbn in Hfs, Hop, Hnx, Hres, Htp, Hbr, Htr. subst.
  run. cbn -[lit lookup insert delete union difference to_string].
  repeat step; intros ->; cbn -[lit lookup insert delete union difference to_string].
  all: split;
    [intros buffer Hb;
     first [discriminate Hb
           |injection Hb as <-; eexists; split; [reflexivity|];
            split; [reflexivity|in_list]]|].
  all: split; [|split; [lia|done]].
  all: intros e' He';
    first [discriminate He'
          |injection He' as <-; eexists _, _; split; [eassumption|];
           split; [exact I|in_list]].
Qed.

(** X6: what [captureHtml] gives.  A buffer it returns is the PNG of the
    HTML that the preprocessing and the font step made, which is the
    content the page was given; an error it throws is one that a call to
    the browser threw (no failure of the font step comes out of it); and
    it launches at most one browser. *)
Theorem X6_captureHtml_outcome (E : env) (html : jsstring) (wd ht dsf : jsval)
    (w : world) :
  let r := captureHtml E html wd ht dsf w in
  (∀ buffer, r.1 = Ok buffer →
     ∃ clean, (inlineGoogleFonts E (processHtmlForRendering html)
                 (with_browser None w)).1 = Ok clean
              ∧ buffer = render_png E (JStr clean)
              ∧ ESetContent (JStr clean) (Some 120000) ∈ trace r.2)
  ∧ (∀ e, r.1 = Throw e →
     ∃ n ev, fails E n ev = Some e ∧ is_browser_call ev ∧ ev ∈ trace r.2)
  ∧ (next_browser r.2 <= S (next_browser w))%nat.
Proof.
  pose proof (captureHtml_outcome E html wd ht dsf w) as H. cbn zeta in *.
  tauto.
Qed.

Lemma X6_captureHtml_outcome_witness :
  ∃ n ev, fails screenshot_fails n ev = Some screenshot_error
          ∧ is_browser_call ev
          ∧ ev ∈ trace (captureHtml screenshot_fails (lit "<h1>Hi</h1>")
                          JUndefined JUndefined JUndefined (initial_world ∅)).2.
Proof.
  pose proof (X6_captureHtml_outcome screenshot_fails (lit "<h1>Hi</h1>")
                JUndefined JUndefined JUndefined (initial_world ∅)) as H.
  cbn zeta in H. destruct H as (_ & H & _).
  assert ((captureHtml screenshot_fails (lit "<h1>Hi</h1>")
             JUndefined JUndefined JUndefined (initial_world ∅)).1
          = Throw screenshot_error) as Hrun by (vm_compute; reflexivity).
  exact (H screenshot_error Hrun).
Defined.


(* ================================================================== *)
(** * More on the preprocessing *)
(* ================================================================== *)

Lemma replace_scan_sublist pt : ∀ s skip before p,
  replace_scan pt [] skip before p s `sublist_of` s.
Proof.
  induction s as [|c s IH]; intros skip before p.
  - destruct skip; cbn; [|done]. by destruct (match_here pt p []).
  - destruct skip as [|n]; cbn [replace_scan].
    + destruct (match_here pt p (c :: s)) as [st'|].
      * cbn [get_substitution app]. destruct (consumed (c :: s) st').
        -- by apply sublist_skip.
        -- by apply sublist_cons.
      * by apply sublist_skip.
    + by apply sublist_cons.
Qed.

Lemma strip_embeds_sublist h : strip_embeds h `sublist_of` h.
Proof.
  unfold strip_embeds, replace_all.
  etransitivity; apply replace_scan_sublist.
Qed.

(** X8: the hints are never put in twice: on every input, also one with
    scripts, a second run of the injection step changes nothing. *)
Theorem X8_hints_injected_once (h : jsstring) :
  with_preconnect (with_preconnect h) = with_preconnect h.
Proof.
  destruct (with_preconnect_has_both h) as [H1 H2].
  unfold with_preconnect at 1. unfold preconnectLinks. by rewrite H1, H2.
Qed.

(** X9: the removal of scripts and iframes only removes: its output is a
    subsequence of its input, so the whole preprocessing gives a
    subsequence of the input with its hints, and a text no longer than
    the input and the two hints together. *)
Theorem X9_removal_only_removes (h : jsstring) :
  strip_embeds h `sublist_of` h
  ∧ processHtmlForRendering h `sublist_of` with_preconnect h
  ∧ (length (processHtmlForRendering h)
     <= length h + length (link_googleapis ++ link_gstatic))%nat.
Proof.
  split; [apply strip_embeds_sublist|]. split; [apply strip_embeds_sublist|].
  etransitivity; [apply sublist_length, strip_embeds_sublist|].
  destruct (with_preconnect_shape h) as (a & r & Hh & -> & _).
  rewrite Hh at 2. rewrite !length_app.
  assert (length (preconnectLinks h) <= length link_googleapis + length link_gstatic)%nat.
  { unfold preconnectLinks. rewrite length_app.
    destruct (hasPreconnectGoogapis h), (hasPreconnectGstatic h); cbn [length]; lia. }
  lia.
Qed.
(* ================================================================== *)
(** * More on the font step *)
(* ================================================================== *)

(** A pattern without groups leaves the captures as they are. *)
Lemma m_sound_caps ic r : groupless r = true → ∀ p s c k x,
  m ic r (MState p s c) k = Some x →
  ∃ p' s', Matches ic r p s p' s' ∧ k (MState p' s' c) = Some x.
Proof.
  induction r as [c0|neg cs| | |r1 IH1 r2 IH2|g r IH|i r IH|r IH|];
    intros Hg p s c k x; cbn [groupless] in Hg; try done.
  - cbn. unfold step1. cbn. destruct s as [|y ys]; [done|].
    destruct (chr_ok ic c0 y) eqn:E; [|done].
    intros H. eexists _, _. split; [by constructor|exact H].
  - cbn. unfold step1. cbn. destruct s as [|y ys]; [done|].
    destruct (cls_ok ic neg cs y) eqn:E; [|done].
    intros H. eexists _, _. split; [by constructor|exact H].
  - cbn. unfold step1. cbn. destruct s as [|y ys]; [done|].
    destruct (line_terminator y) eqn:E; [done|]. cbn.
    intros H. eexists _, _. split; [by constructor|exact H].
  - cbn. intros H. eexists _, _. split; [constructor|exact H].
  - apply andb_true_iff in Hg as [Hg1 Hg2].
    cbn. intros H. apply (IH1 Hg1) in H as (p1 & s1 & HM1 & H).
    apply (IH2 Hg2) in H as (p2 & s2 & HM2 & H).
    eexists _, _. split; [by econstructor|exact H].
  - rewrite m_star. cbn [rest]. generalize (length s) as n. intros n.
    revert p s. induction n as [|n IHn]; intros p s.
    + cbn. intros H.
      assert (k (MState p s c) = Some x) as Hk.
      { destruct g; [done|]. by destruct (k (MState p s c)). }
      eexists _, _. split; [constructor|exact Hk].
    + rewrite star_loop_unfold. cbn zeta. intros H.
      assert (k (MState p s c) = Some x
              ∨ m ic r (MState p s c)
                  (fun st' => if progress (MState p s c) st'
                     then star_loop (m ic r) g k n st' else None) = Some x) as [Hk|Hit].
      { destruct g.
        - destruct (m ic r (MState p s c) _); [right; done|by left].
        - destruct (k (MState p s c)); [by left|by right]. }
      * eexists _, _. split; [constructor|exact Hk].
      * apply (IH Hg) in Hit as (p1 & s1 & HM1 & Hit).
        unfold progress in Hit. cbn in Hit.
        destruct (length s1 =? length s)%nat eqn:Hlen; [done|]. cbn in Hit.
        apply Nat.eqb_neq in Hlen.
        apply IHn in Hit as (p2 & s2 & HM2 & Hk).
        eexists _, _. split; [by eapply M_StarS|exact Hk].
  - cbn. destruct (m ic r (MState p s c) Some) eqn:E; [done|].
    intros H. eexists _, _. split; [|exact H].
    constructor. intros c0.
    destruct (m ic r (MState p s c0) Some) eqn:E0; [|done].
    exfalso. pose proof (m_success ic r p s c0 c Some Some) as Hs.
    rewrite E, E0 in Hs. destruct Hs as [? [=]]; [|done]. intros; done.
  - cbn. destruct (xorb _ _) eqn:E; [|done].
    intros H. eexists _, _. split; [by constructor|exact H].
Qed.

Lemma m_seq ic r1 r2 st k :
  m ic (Seq r1 r2) st k = m ic r1 st (λ st', m ic r2 st' k).
Proof. reflexivity. Qed.

(** A group around a pattern without groups records the text it
    matched. *)
Lemma m_group ic i r p s c k x :
  groupless r = true →
  m ic (Group i r) (MState p s c) k = Some x →
  ∃ p' s' w, s = w ++ s' ∧ Matches ic r p s p' s'
             ∧ k (MState p' s' (<[i := Some w]> c)) = Some x.
Proof.
  intros Hg. cbn [m]. intros H.
  apply (m_sound_caps ic r Hg) in H as (p' & s' & HM & H). cbn [prev rest caps] in H.
  destruct (Matches_suffix _ _ _ _ _ _ HM) as [w ->].
  exists p', s', w. split; [done|]. split; [done|].
  rewrite length_app in H.
  replace (length w + length s' - length s')%nat with (length w) in H by lia.
  by rewrite take_app_length in H.
Qed.

Lemma m_seqs_app ic rs1 rs2 : ∀ st k,
  m ic (seqs (rs1 ++ rs2)) st k
  = m ic (seqs rs1) st (λ st', m ic (seqs rs2) st' k).
Proof.
  induction rs1 as [|r rs1 IH]; intros st k; [done|].
  cbn [app]. rewrite !seqs_cons, !m_seq.
  apply m_k_local. intros st' _. apply IH.
Qed.

(** The three parts of a match of a pattern [A(R)B] whose parts hold no
    further group. *)
Lemma match_here_group pt A R B p s st' :
  body pt = seqs (A ++ Group 0 R :: B) → ngroups pt = 1%nat →
  groupless (seqs A) = true → groupless R = true → groupless (seqs B) = true →
  match_here pt p s = Some st' →
  ∃ a g b p1 p2 p3,
    s = a ++ g ++ b ++ rest st'
    ∧ caps st' = [Some g]
    ∧ Matches (icase pt) (seqs A) p (a ++ g ++ b ++ rest st') p1 (g ++ b ++ rest st')
    ∧ Matches (icase pt) R p1 (g ++ b ++ rest st') p2 (b ++ rest st')
    ∧ Matches (icase pt) (seqs B) p2 (b ++ rest st') p3 (rest st').
Proof.
  intros Hb Hn HA HR HB. unfold match_here. rewrite Hb, Hn.
  rewrite m_seqs_app. cbn [replicate]. intros H.
  apply (m_sound_caps _ _ HA) in H as (p1 & s1 & HM1 & H).
  rewrite seqs_cons, m_seq in H.
  apply (m_group _ 0 R p1 s1 [None] _ st' HR) in H as (p2 & s2 & g & -> & HM2 & H).
  cbn [insert list_insert] in H.
  apply (m_sound_caps _ _ HB) in H as (p3 & s3 & HM3 & H).
  injection H as <-. cbn [rest caps].
  destruct (Matches_suffix _ _ _ _ _ _ HM1) as [a ->].
  destruct (Matches_suffix _ _ _ _ _ _ HM3) as [b ->].
  by exists a, g, b, p1, p2, p3.
Qed.

Lemma chr_ok_exact c x : chr_ok false c x = true → x = c.
Proof. unfold chr_ok, canon. cbn. by intros ?%N.eqb_eq. Qed.

Lemma Forall2_exact P : ∀ w,
  Forall2 (λ c x, chr_ok false c x = true) P w → w = P.
Proof.
  induction P as [|c P IH]; intros w H; inversion H; subst; [done|].
  f_equal; [by apply chr_ok_exact|by apply IH].
Qed.

(** A replacement that puts back what was matched changes nothing. *)
Lemma replace_scan_same pt t :
  (∀ p s st' before, match_here pt p s = Some st' →
     get_substitution (take (consumed s st') s) before (rest st') (caps st') t
     = take (consumed s st') s) →
  ∀ s skip before p, replace_scan pt t skip before p s = drop skip s.
Proof.
  intros Hsame. induction s as [|c s IH]; intros skip before p.
  - destruct skip; cbn [replace_scan]; [|done].
    destruct (match_here pt p []) as [st'|] eqn:Hm; [|done].
    cbn zeta. by rewrite (Hsame _ _ _ _ Hm).
  - destruct skip as [|n]; cbn [replace_scan].
    + destruct (match_here pt p (c :: s)) as [st'|] eqn:Hm.
      * cbn zeta. rewrite (Hsame _ _ _ _ Hm).
        destruct (consumed (c :: s) st') as [|n]; cbn [take app drop].
        -- by rewrite IH.
        -- rewrite IH. by rewrite take_drop.
      * by rewrite IH.
    + by rewrite IH.
Qed.

Lemma Matches_seq_inv ic r1 r2 p s p' s' :
  Matches ic (Seq r1 r2) p s p' s' →
  ∃ p1 s1, Matches ic r1 p s p1 s1 ∧ Matches ic r2 p1 s1 p' s'.
Proof. inversion 1; subst. by eexists _, _. Qed.

Lemma Matches_eps_inv ic p s p' s' : Matches ic Eps p s p' s' → p' = p ∧ s' = s.
Proof. by inversion 1. Qed.

Lemma Matches_one_inv ic r p s p' s' :
  Matches ic (seqs [r]) p s p' s' → Matches ic r p s p' s'.
Proof.
  rewrite seqs_cons. intros (p1 & s1 & H1 & H2)%Matches_seq_inv.
  by apply Matches_eps_inv in H2 as [-> ->].
Qed.

Lemma Matches_lits_exact P p s p' s' :
  Matches false (lits P) p s p' s' → s = P ++ s'.
Proof.
  intros (w & -> & F)%Matches_lits_inv. by apply Forall2_exact in F as ->.
Qed.

Lemma gstaticAbsolute_match p s st' :
  match_here gstaticAbsolute p s = Some st' →
  ∃ g, caps st' = [Some g]
       ∧ take (consumed s st') s = lit "url(" ++ g ++ lit ")".
Proof.
  intros H.
  apply (match_here_group gstaticAbsolute [lits (lit "url(")]
           (seqs [lits (lit "https://fonts.gstatic.com"); plus (notin (lit ")"))])
           [lits (lit ")")])
    in H as (a & g & b & p1 & p2 & p3 & Hs & Hc & HA & _ & HB);
    [|reflexivity..].
  exists g. split; [done|].
  apply Matches_one_inv, Matches_lits_exact, app_inv_tail in HA.
  apply Matches_one_inv, Matches_lits_exact, app_inv_tail in HB.
  rewrite HA, HB in Hs. unfold consumed. rewrite Hs, !length_app.
  replace (_ - _)%nat with (length (lit "url(" ++ g ++ lit ")"))
    by (rewrite !length_app; lia).
  rewrite !app_assoc. rewrite <- (app_assoc _ g). by rewrite take_app_length.
Qed.

Lemma substitution_url matched before after g :
  get_substitution matched before after [Some g] (lit "url($1)")
  = lit "url(" ++ g ++ lit ")".
Proof. vm_compute. reflexivity. Qed.

Lemma replace_absolute_same css :
  replace_all gstaticAbsolute css (lit "url($1)") = css
  ∧ styleTag css
    = style_open ++ replace_all gstaticRelative css (lit "url(https:$1)")
      ++ style_close.
Proof.
  assert (∀ css, replace_all gstaticAbsolute css (lit "url($1)") = css) as Hid.
  { intros c. unfold replace_all. rewrite replace_scan_same; [done|].
    intros p s st' before Hm.
    destruct (gstaticAbsolute_match p s st' Hm) as (g & -> & ->).
    apply substitution_url. }
  split; [apply Hid|]. unfold styleTag. cbn zeta. by rewrite Hid.
Qed.

(** X10: the second rewriting of the stylesheet (line 295) changes no
    text: it puts back every URL it matches, so the style tag holds the
    stylesheet after the first rewriting alone. *)
Theorem X10_second_rewrite_is_identity (css : jsstring) :
  replace_all gstaticAbsolute css (lit "url($1)") = css
  ∧ styleTag css
    = style_open ++ replace_all gstaticRelative css (lit "url(https:$1)")
      ++ style_close.
Proof. apply replace_absolute_same. Qed.

(** Every text the scan collects is the text of a match. *)
Lemma exec_all_in pt tag : ∀ s skip p,
  tag ∈ exec_all pt skip p s →
  ∃ p0 v st', match_here pt p0 v = Some st' ∧ tag = take (consumed v st') v.
Proof.
  induction s as [|c s IH]; intros skip p.
  - destruct skip; cbn [exec_all].
    + destruct (match_here pt p []) as [st'|]; intros H; by apply elem_of_nil in H.
    + intros H; by apply elem_of_nil in H.
  - destruct skip as [|n]; cbn [exec_all].
    + destruct (match_here pt p (c :: s)) as [st'|] eqn:Hm.
      * destruct (consumed (c :: s) st') as [|n] eqn:Hc.
        -- intros H; by apply elem_of_nil in H.
        -- intros [->|H]%elem_of_cons; [|by eapply IH].
           exists p, (c :: s), st'. by rewrite Hc.
      * apply IH.
    + apply IH.
Qed.

Lemma exec_all_no_match pt : ∀ s p,
  search pt p s = false → exec_all pt 0 p s = [].
Proof.
  induction s as [|c s IH]; intros p; cbn [search exec_all].
  - by destruct (match_here pt p []).
  - destruct (match_here pt p (c :: s)); [done|]. apply IH.
Qed.

(** The leftmost match is a match, and there is one when the search
    finds one. *)
Lemma first_match_is_match pt : ∀ s p c,
  first_match pt p s = Some c →
  ∃ p0 v st', match_here pt p0 v = Some st' ∧ c = caps st'.
Proof.
  induction s as [|x s IH]; intros p c; cbn [first_match].
  - destruct (match_here pt p []) as [st'|] eqn:Hm; [|done].
    intros [= <-]. by eexists _, _, _.
  - destruct (match_here pt p (x :: s)) as [st'|] eqn:Hm; [|apply IH].
    intros [= <-]. by eexists _, _, _.
Qed.

Lemma first_match_found pt : ∀ s p,
  search pt p s = true → is_Some (first_match pt p s).
Proof.
  induction s as [|x s IH]; intros p; cbn [first_match search].
  - by destruct (match_here pt p []).
  - destruct (match_here pt p (x :: s)); [done|]. apply IH.
Qed.

Lemma not_quote_cls ic x :
  x ≠ 34 → x ≠ 39 → cls_ok ic true (dq ++ sq) x = true.
Proof.
  intros H1 H2. unfold cls_ok. cbn [dq sq app existsb].
  destruct (canon ic 34 =? canon ic x) eqn:E1.
  { apply N.eqb_eq in E1. symmetry in E1. apply canon_fixed in E1; [done|lia]. }
  destruct (canon ic 39 =? canon ic x) eqn:E2; [|done].
  apply N.eqb_eq in E2. symmetry in E2. apply canon_fixed in E2; [done|lia].
Qed.

Lemma chr_ok_not_quote ic c x :
  c ≠ 34 → c ≠ 39 → chr_ok ic c x = true → x ≠ 34 ∧ x ≠ 39.
Proof.
  unfold chr_ok. intros H1 H2 H%N.eqb_eq. split; intros ->.
  - symmetry in H. apply canon_fixed in H; [done|lia].
  - symmetry in H. apply canon_fixed in H; [done|lia].
Qed.

Lemma Matches_cls_length ic neg cs p s p' s' :
  Matches ic (Cls neg cs) p s p' s' → length s = S (length s').
Proof. by inversion 1. Qed.

Lemma Forall2_not_quote ic P w :
  Forall (λ c, c ≠ 34 ∧ c ≠ 39) P →
  Forall2 (λ c x, chr_ok ic c x = true) P w →
  Forall (λ y, y ≠ 34 ∧ y ≠ 39) w.
Proof.
  intros HP F. induction F as [|c x P w Hcx F IH]; [done|].
  apply Forall_cons in HP as [[H1 H2] HP].
  constructor; [by eapply chr_ok_not_quote|by apply IH].
Qed.

(** The text of a run of one or more units that are not quotes. *)
Lemma Matches_plus_text ic p s p' s' :
  Matches ic (plus (notin (dq ++ sq))) p s p' s' →
  ∃ x g, s = x :: g ++ s' ∧ Forall (λ y, y ≠ 34 ∧ y ≠ 39) (x :: g).
Proof.
  intros HM.
  destruct (Matches_text ic (plus (notin (dq ++ sq))) p s p' s' eq_refl HM)
    as (w & -> & Hav & _).
  assert (34 ∉ w) as H34 by (apply Hav; by destruct ic).
  assert (39 ∉ w) as H39 by (apply Hav; by destruct ic).
  apply Matches_seq_inv in HM as (p1 & s1 & HM1 & HM2).
  apply Matches_length in HM2.
  destruct w as [|y g].
  { apply Matches_cls_length in HM1. cbn in HM1. lia. }
  exists y, g. split; [done|].
  apply Forall_forall. intros z Hz. split; intros ->; done.
Qed.

Lemma Matches_plus_build ic p t w :
  w ≠ [] → Forall (λ y, y ≠ 34 ∧ y ≠ 39) w →
  ∃ p', Matches ic (plus (notin (dq ++ sq))) p (w ++ t) p' t.
Proof.
  intros Hw HF. destruct w as [|x g]; [done|].
  apply Forall_cons in HF as [[Hx1 Hx2] HF].
  destruct (Matches_star_cls ic true true (dq ++ sq) g (Some x) t) as [p' HS].
  { eapply Forall_impl; [exact HF|]. intros y [? ?]. by apply not_quote_cls. }
  exists p'. eapply M_Seq; [|exact HS].
  constructor. by apply not_quote_cls.
Qed.

(** The capture of a match of the [href] pattern: one or more units,
    none of them a quote. *)
Lemma hrefRegex_match p v st' :
  match_here hrefRegex p v = Some st' →
  ∃ g, caps st' = [Some g] ∧ g ≠ [] ∧ Forall (λ y, y ≠ 34 ∧ y ≠ 39) g.
Proof.
  intros H.
  apply (match_here_group hrefRegex [lits (lit "href="); quote]
           (plus (notin (dq ++ sq))) [quote])
    in H as (a & g & b & p1 & p2 & p3 & Hs & Hc & _ & HR & _);
    [|reflexivity..].
  exists g. split; [done|].
  apply Matches_plus_text in HR as (x & g' & Hg & HF).
  rewrite app_comm_cons in Hg. apply app_inv_tail in Hg as ->. done.
Qed.

(** A link tag that the scan finds holds a quoted [href]. *)
Lemma linkRegex_has_href p v st' :
  match_here linkRegex p v = Some st' →
  test hrefRegex (take (consumed v st') v) = true.
Proof.
  intros H.
  apply (match_here_group linkRegex
           [lits (lit "<link"); plus (notin (lit ">")); lits (lit "href="); quote]
           (seqs [lits (lit "https://fonts.googleapis.com/");
                  plus (notin (dq ++ sq))])
           [quote; star (notin (lit ">")); lits (lit ">")])
    in H as (a & g & b & p1 & p2 & p3 & Hs & Hc & HA & HR & HB);
    [|reflexivity..].
  apply (Matches_seqs_app true [lits (lit "<link"); plus (notin (lit ">"))]
           [lits (lit "href="); quote]) in HA as (pa & sa & HA1 & HA2).
  apply (Matches_seqs_app true [quote] [star (notin (lit ">")); lits (lit ">")])
    in HB as (pb & sb & HB1 & HB2).
  destruct (Matches_suffix _ _ _ _ _ _ HA1) as [a1 Ha1].
  destruct (Matches_suffix _ _ _ _ _ _ HA2) as [a2 ->].
  destruct (Matches_suffix _ _ _ _ _ _ HB1) as [b1 Hb1].
  destruct (Matches_suffix _ _ _ _ _ _ HB2) as [b2 ->].
  assert (a = a1 ++ a2) as ->.
  { apply (app_inv_tail (g ++ b ++ rest st')). by rewrite <- app_assoc. }
  assert (b = b1 ++ b2) as ->.
  { apply (app_inv_tail (rest st')). by rewrite <- app_assoc. }
  clear Ha1 Hb1.
  (* the text of the group holds no quote *)
  rewrite seqs_cons in HR. apply Matches_seq_inv in HR as (pg & sg & HG1 & HG2).
  apply Matches_one_inv in HG2.
  apply (Matches_lits_inv true (lit "https://fonts.googleapis.com/")) in HG1
    as (g1 & Hg1 & F1).
  apply Matches_plus_text in HG2 as (x & g2 & Hg2 & F2).
  assert (g = g1 ++ x :: g2) as ->.
  { apply (app_inv_tail ((b1 ++ b2) ++ rest st')).
    rewrite Hg1, Hg2. rewrite <- !app_assoc. reflexivity. }
  assert (Forall (λ y, y ≠ 34 ∧ y ≠ 39) (g1 ++ x :: g2)) as HF.
  { apply Forall_app. split; [|done].
    eapply Forall2_not_quote; [|exact F1].
    apply Forall_forall. intros c Hin. apply list_elem_of_In in Hin.
    vm_compute in Hin.
    split; intros ->; repeat (destruct Hin as [Hin|Hin]; [done|]); done. }
  assert (take (consumed v st') v
          = a1 ++ (a2 ++ (g1 ++ x :: g2) ++ b1) ++ b2) as ->.
  { unfold consumed. rewrite Hs, !length_app.
    replace (_ - _)%nat
      with (length (a1 ++ (a2 ++ (g1 ++ x :: g2) ++ b1) ++ b2))
      by (rewrite !length_app; lia).
    rewrite <- !app_assoc.
    rewrite !app_assoc. rewrite take_app_length. by rewrite <- !app_assoc. }
  destruct (Matches_plus_build true p1 ((b1 ++ b2) ++ rest st') (g1 ++ x :: g2))
    as [pg' HG]; [by destruct g1|done|].
  destruct (Matches_text_at true (seqs [quote]) p2 b1 (b2 ++ rest st') pb eq_refl)
    as [_ HQ].
  { by rewrite app_assoc. }
  destruct (HQ pg' (b2 ++ rest st')) as [pq HQ'].
  apply (test_found hrefRegex pa (a2 ++ (g1 ++ x :: g2) ++ b1) (b2 ++ rest st') pq);
    [reflexivity|].
  apply (Matches_seqs_app true [lits (lit "href="); quote]
           [Group 0 (plus (notin (dq ++ sq))); quote]).
  exists p1, ((g1 ++ x :: g2) ++ (b1 ++ b2) ++ rest st'). split.
  { rewrite <- !app_assoc in *. exact HA2. }
  rewrite seqs_cons. eapply M_Seq.
  { constructor. rewrite <- !app_assoc in *. exact HG. }
  rewrite <- !app_assoc in *. exact HQ'.
Qed.

(** Every link tag that the scan finds has an [href] to fetch. *)
Lemma href_of_found html tag :
  tag ∈ exec_all linkRegex 0 None html →
  ∃ c href, href_of tag = Some (c :: href)
            ∧ Forall (λ y, y ≠ 34 ∧ y ≠ 39) (c :: href).
Proof.
  intros (p0 & v & st' & Hm & ->)%exec_all_in.
  apply linkRegex_has_href in Hm. unfold href_of.
  destruct (first_match_found hrefRegex _ None Hm) as [cs Hcs]. rewrite Hcs.
  apply first_match_is_match in Hcs as (p1 & v1 & st1 & Hm1 & ->).
  apply hrefRegex_match in Hm1 as (g & -> & Hg & HF). cbn.
  destruct g as [|c href]; [done|]. by exists c, href.
Qed.

Lemma fetched_app evs1 evs2 : fetched (evs1 ++ evs2) = fetched evs1 ++ fetched evs2.
Proof. apply omap_app. Qed.

(** A round of the loop makes one fetch, to the [href] of its tag, or
    none when the tag has none. *)
Lemma inline_link_fetched (E : env) (inlined tag : jsstring) (w : world) :
  fetched (trace (inline_link E inlined tag w).2)
  = fetched (trace w) ++ option_list (href_to_fetch tag).
Proof.
  unfold inline_link, href_to_fetch. destruct (href_of tag) as [[|c href]|].
  1,3: cbn; by rewrite app_nil_r.
  run. destruct (net E (tick w) (c :: href)) as [e|[|] [t|]]; cbn;
    unfold fetched; rewrite ?omap_app; cbn; by rewrite ?app_nil_r.
Qed.

Lemma foldM_inline_fetched (E : env) (links : list jsstring) : ∀ inlined w,
  fetched (trace (foldM (inline_link E) inlined links w).2)
  = fetched (trace w) ++ omap href_to_fetch links.
Proof.
  induction links as [|tag links IH]; intros inlined w.
  - cbn. by rewrite app_nil_r.
  - cbn [foldM]. unfold bind.
    pose proof (inline_link_fetched E inlined tag w) as H1.
    destruct (inline_link_frame E inlined tag w) as (o1 & w1 & Hrun & _).
    rewrite Hrun in *. cbn [snd] in H1. rewrite IH, H1, <- app_assoc.
    cbn [omap list_omap]. by destruct (href_to_fetch tag).
Qed.

Lemma inlineGoogleFonts_fetched (E : env) (html : jsstring) (w : world) :
  fetched (trace (inlineGoogleFonts E html w).2)
  = fetched (trace w) ++ omap href_to_fetch (exec_all linkRegex 0 None html).
Proof.
  unfold inlineGoogleFonts, try_catch.
  pose proof (foldM_inline_fetched E (exec_all linkRegex 0 None html) html w) as H.
  destruct (foldM_inline_frame E (exec_all linkRegex 0 None html) html w)
    as (o & w1 & Hrun & _).
  rewrite Hrun in *. exact H.
Qed.

Lemma omap_href_found links :
  (∀ tag, tag ∈ links → ∃ c href, href_of tag = Some (c :: href)) →
  Forall2 (λ tag href, href_of tag = Some href ∧ href ≠ [])
    links (omap href_to_fetch links).
Proof.
  induction links as [|tag links IH]; intros H; [constructor|].
  destruct (H tag) as (c & href & Hh); [by left|].
  cbn [omap list_omap]. unfold href_to_fetch at 1. rewrite Hh.
  constructor; [done|]. apply IH. intros t Ht. apply H. by right.
Qed.

(** The texts the scan collects stand in the text scanned. *)
Lemma exec_all_occurs pt tag : ∀ s skip p,
  tag ∈ exec_all pt skip p s → ∃ u t, s = u ++ tag ++ t.
Proof.
  induction s as [|c s IH]; intros skip p.
  - destruct skip; cbn [exec_all].
    + destruct (match_here pt p []) as [st'|]; intros H; by apply elem_of_nil in H.
    + intros H; by apply elem_of_nil in H.
  - assert (Hrec : ∀ n q, tag ∈ exec_all pt n q s → ∃ u t, c :: s = u ++ tag ++ t).
    { intros n q (u & t & ->)%IH. by exists (c :: u), t. }
    destruct skip as [|n]; cbn [exec_all]; [|apply Hrec].
    destruct (match_here pt p (c :: s)) as [st'|]; [|apply Hrec].
    destruct (consumed (c :: s) st') as [|n].
    { intros H; by apply elem_of_nil in H. }
    intros [->|H]%elem_of_cons; [|by eapply Hrec].
    exists [], (drop (S n) (c :: s)). cbn [app]. by rewrite take_drop.
Qed.

Lemma includes_occurrence p : ∀ u t, includes (u ++ p ++ t) p = true.
Proof.
  unfold includes. induction u as [|c u IH]; intros t.
  - cbn [app]. pose proof (prefix_b_app p t) as Hp.
    destruct (p ++ t) as [|z zs]; cbn [split_first]; by rewrite Hp.
  - cbn [app split_first]. destruct (prefix_b p (c :: u ++ p ++ t)); [done|].
    specialize (IH t). by destruct (split_first p (u ++ p ++ t)) as [[? ?]|].
Qed.

(** X11: the guard of line 288 never fires: every link tag that the scan
    of [inlineGoogleFonts] finds has an [href] for the second pattern to
    read, and the URL read is not empty and holds no quote.  The tag
    stands in the page as it was found. *)
Theorem X11_every_link_has_href (html tag : jsstring) :
  tag ∈ exec_all linkRegex 0 None html →
  (∃ href, href_of tag = Some href ∧ href ≠ [] ∧ (34 ∉ href) ∧ (39 ∉ href))
  ∧ includes html tag = true.
Proof.
  intros Hin. split.
  - apply href_of_found in Hin as (c & href & Hh & HF).
    exists (c :: href). split; [done|]. split; [done|].
    rewrite Forall_forall in HF.
    split; intros Hq; apply HF in Hq; tauto.
  - apply exec_all_occurs in Hin as (u & t & ->). apply includes_occurrence.
Qed.

Lemma X11_every_link_has_href_witness :
  (∃ href, href_of fonts_link = Some href ∧ href ≠ [] ∧ (34 ∉ href) ∧ (39 ∉ href))
  ∧ includes nested_links_html fonts_link = true.
Proof.
  apply (X11_every_link_has_href nested_links_html fonts_link).
  vm_compute. apply list_elem_of_In. cbn. tauto.
Defined.

(** X12: the font step makes one fetch for each link tag it finds, in
    the order of the tags, to the URL of the first quoted [href] of the
    tag; it fetches nothing else. *)
Theorem X12_one_fetch_per_link (E : env) (html : jsstring) (w : world) :
  let links := exec_all linkRegex 0 None html in
  ∃ hrefs,
    Forall2 (λ tag href, href_of tag = Some href ∧ href ≠ []) links hrefs
    ∧ fetched (trace (inlineGoogleFonts E html w).2) = fetched (trace w) ++ hrefs.
Proof.
  cbn zeta. exists (omap href_to_fetch (exec_all linkRegex 0 None html)).
  split; [|apply inlineGoogleFonts_fetched].
  apply omap_href_found. intros tag Hin.
  destruct (href_of_found html tag Hin) as (c & href & Hh & _). by eexists _, _.
Qed.

Lemma linkRegex_consumes p s st' :
  match_here linkRegex p s = Some st' →
  (5 < consumed s st')%nat ∧ (consumed s st' <= length s)%nat.
Proof.
  intros Hm. unfold consumed. split; [|lia].
  apply (match_here_group linkRegex
           [lits (lit "<link"); plus (notin (lit ">")); lits (lit "href="); quote]
           (seqs [lits (lit "https://fonts.googleapis.com/");
                  plus (notin (dq ++ sq))])
           [quote; star (notin (lit ">")); lits (lit ">")])
    in Hm as (a & g & b & p1 & p2 & p3 & Hs & _ & HA & _);
    [|reflexivity..].
  apply (Matches_seqs_app true [lits (lit "<link")]
           [plus (notin (lit ">")); lits (lit "href="); quote]) in HA
    as (pa & sa & HA1 & HA2).
  apply Matches_one_inv, (Matches_lits_inv true (lit "<link")) in HA1
    as (o & Ho & F).
  apply Forall2_length in F. change (length (lit "<link")) with 5%nat in F.
  rewrite seqs_cons in HA2. apply Matches_seq_inv in HA2 as (pb & sb & HB1 & HB2).
  apply Matches_seq_inv in HB1 as (pc & sc & HC1 & HC2).
  apply Matches_cls_length in HC1. apply Matches_length in HC2, HB2.
  apply (f_equal length) in Ho. rewrite Hs. rewrite !length_app in *. lia.
Qed.

(** X17: the scan of line 279 moves on at every round: a match of the
    link pattern is never empty (it is longer than [<link]), so
    [lastIndex] grows with each [exec] and the loop ends. *)
Theorem X17_link_scan_progress (p : option N) (s : jsstring) (st' : mstate) :
  match_here linkRegex p s = Some st' →
  (5 < consumed s st')%nat ∧ (consumed s st' <= length s)%nat.
Proof. intros Hm. by apply linkRegex_consumes in Hm as [? ?]. Qed.

Lemma X17_link_scan_progress_witness :
  ∃ st', match_here linkRegex None fonts_link = Some st'
         ∧ (5 < consumed fonts_link st')%nat.
Proof.
  assert (is_Some (match_here linkRegex None fonts_link)) as [st' Hm].
  { vm_compute. by eexists. }
  exists st'. split; [done|].
  exact (proj1 (X17_link_scan_progress None fonts_link st' Hm)).
Defined.
(* ================================================================== *)
(** * Pages that ask for no font *)
(* ================================================================== *)

(** Where a text [w] can stand in [a ++ [x] ++ l ++ [y] ++ r] when it
    holds neither [x] nor [y]: in [a ++ r] or in [l]. *)
Lemma occurrence_insert {A} (x y : A) (w a l r u t : list A) :
  x ∉ w → y ∉ w →
  a ++ (x :: l ++ [y]) ++ r = u ++ w ++ t →
  (∃ u' t', a ++ r = u' ++ w ++ t') ∨ (∃ u' t', l = u' ++ w ++ t').
Proof.
  intros Hx Hy. cbn [app]. rewrite <- app_assoc. cbn [app].
  rewrite (app_assoc u w t).
  intros [(k & H1 & H2)|(k & H1 & H2)]%app_eq_inv.
  { left. exists u, (k ++ r). rewrite H1, <- !app_assoc. done. }
  destruct k as [|x' k]; cbn [app] in H2.
  { left. exists u, r. rewrite app_nil_r in H1. by rewrite <- H1, <- app_assoc. }
  injection H2 as <- H2.
  apply app_eq_inv in H1 as [(j & H3 & H4)|(j & H3 & H4)].
  2: { exfalso. apply Hx. rewrite H4. apply elem_of_app. right. by left. }
  destruct j as [|x' j]; cbn [app] in H4.
  { exfalso. apply Hx. rewrite <- H4. by left. }
  injection H4 as <- H4. subst k.
  apply app_eq_inv in H2 as [(k2 & H5 & H6)|(k2 & H5 & H6)].
  { right. exists j, k2. by rewrite H5, <- app_assoc. }
  destruct k2 as [|y' k2]; cbn [app] in H6.
  { right. exists j, []. rewrite app_nil_r in H5. by rewrite app_nil_r. }
  injection H6 as <- H6.
  apply app_eq_inv in H5 as [(j2 & H7 & H8)|(j2 & H7 & H8)].
  2: { exfalso. apply Hy. rewrite H8. apply elem_of_app. right. by left. }
  destruct j2 as [|y' j2]; cbn [app] in H8.
  { exfalso. apply Hy. rewrite <- H8. by left. }
  injection H8 as <- H8. left.
  exists (a ++ j2), t. rewrite H6, H8, <- !app_assoc. done.
Qed.

(** A literal pattern is found exactly where its text stands, up to the
    case of the letters under the flag. *)
Lemma test_lits_iff ic P s :
  test (Pattern (lits P) ic 0) s = true
  ↔ ∃ u w t, s = u ++ w ++ t ∧ Forall2 (λ c x, chr_ok ic c x = true) P w.
Proof.
  split.
  - intros (u & v & p' & s' & -> & HM)%test_iff. cbn [icase body] in HM.
    apply Matches_lits_inv in HM as (w & -> & F). by exists u, w, s'.
  - intros (u & w & t & -> & F).
    destruct (Matches_lits ic P w None t F) as [p' HM].
    apply (test_found (Pattern (lits P) ic 0) None w t p'); [apply simple_lits|done].
Qed.

Lemma Forall2_avoids ic (x : N) P w :
  Forall (λ c, chr_ok ic c x = false) P →
  Forall2 (λ c y, chr_ok ic c y = true) P w → x ∉ w.
Proof.
  intros HP F. induction F as [|c y P w Hcy F IH]; [by intros ?%elem_of_nil|].
  apply Forall_cons in HP as [Hc HP].
  intros [->|Hin]%elem_of_cons; [congruence|by apply IH].
Qed.

(** A tag put into a text brings no place for a literal that holds
    neither [<] nor [>], unless the tag holds one. *)
Lemma literal_insert ic P a l r :
  Forall (λ c, chr_ok ic c 60 = false) P →
  Forall (λ c, chr_ok ic c 62 = false) P →
  test (Pattern (lits P) ic 0) l = false →
  test (Pattern (lits P) ic 0) (a ++ r) = false →
  test (Pattern (lits P) ic 0) (a ++ (60 :: l ++ [62]) ++ r) = false.
Proof.
  intros H60 H62 Hl Har.
  destruct (test (Pattern (lits P) ic 0) (a ++ (60 :: l ++ [62]) ++ r)) eqn:Ht; [|done].
  apply test_lits_iff in Ht as (u & w & t & Heq & F).
  apply occurrence_insert in Heq as [(u' & t' & Heq)|(u' & t' & Heq)].
  - rewrite <- Har. symmetry. apply test_lits_iff. by exists u', w, t'.
  - rewrite <- Hl. symmetry. apply test_lits_iff. by exists u', w, t'.
  - by eapply Forall2_avoids.
  - by eapply Forall2_avoids.
Qed.

(** The hints hold no URL of a stylesheet. *)
Lemma hints_insert a r L :
  L ∈ [[]; link_googleapis; link_gstatic; link_googleapis ++ link_gstatic] →
  test fontsOrigin (a ++ r) = false →
  test fontsOrigin (a ++ L ++ r) = false.
Proof.
  assert (H60 : Forall (λ c, chr_ok true c 60 = false)
                  (lit "https://fonts.googleapis.com/")).
  { apply Forall_forall. intros c Hin. apply list_elem_of_In in Hin.
    vm_compute in Hin. repeat (destruct Hin as [<-|Hin]; [done|]). done. }
  assert (H62 : Forall (λ c, chr_ok true c 62 = false)
                  (lit "https://fonts.googleapis.com/")).
  { apply Forall_forall. intros c Hin. apply list_elem_of_In in Hin.
    vm_compute in Hin. repeat (destruct Hin as [<-|Hin]; [done|]). done. }
  assert (Hg : ∀ a r, test fontsOrigin (a ++ r) = false →
                      test fontsOrigin (a ++ link_googleapis ++ r) = false).
  { intros a0 r0 H.
    replace link_googleapis
      with (60 :: removelast (tail link_googleapis) ++ [62])
      by (vm_compute; reflexivity).
    apply (literal_insert true _ a0 _ r0 H60 H62); [by vm_compute|done]. }
  assert (Hs : ∀ a r, test fontsOrigin (a ++ r) = false →
                      test fontsOrigin (a ++ link_gstatic ++ r) = false).
  { intros a0 r0 H.
    replace link_gstatic
      with (60 :: removelast (tail link_gstatic) ++ [62])
      by (vm_compute; reflexivity).
    apply (literal_insert true _ a0 _ r0 H60 H62); [by vm_compute|done]. }
  intros HL H.
  repeat (apply elem_of_cons in HL as [->|HL]); [done|by apply Hg|by apply Hs| |].
  - rewrite <- app_assoc. apply Hg. by apply Hs.
  - by apply elem_of_nil in HL.
Qed.

(** A link tag of the font step holds the URL. *)
Lemma linkRegex_needs_origin : ∀ s p,
  test fontsOrigin s = false → search linkRegex p s = false.
Proof.
  intros s p Hno.
  destruct (search linkRegex p s) eqn:Hs; [|done].
  apply search_iff in Hs as (u & v & -> & [st' Hm]).
  apply (match_here_group linkRegex
           [lits (lit "<link"); plus (notin (lit ">")); lits (lit "href="); quote]
           (seqs [lits (lit "https://fonts.googleapis.com/");
                  plus (notin (dq ++ sq))])
           [quote; star (notin (lit ">")); lits (lit ">")])
    in Hm as (a & g & b & p1 & p2 & p3 & Hv & _ & _ & HR & _);
    [|reflexivity..].
  rewrite seqs_cons in HR. apply Matches_seq_inv in HR as (pg & sg & HG1 & _).
  apply (Matches_lits_inv true (lit "https://fonts.googleapis.com/")) in HG1
    as (g1 & Hg1 & F1).
  rewrite <- Hno. symmetry. apply test_lits_iff.
  exists (u ++ a), g1, sg. split; [|done].
  rewrite Hv, <- Hg1, <- !app_assoc. done.
Qed.

Lemma fontsOrigin_with_preconnect h :
  test fontsOrigin h = false → test fontsOrigin (with_preconnect h) = false.
Proof.
  intros H. destruct (with_preconnect_shape h) as (a & r & Hh & -> & _).
  apply hints_insert; [|by rewrite <- Hh].
  unfold preconnectLinks.
  destruct (hasPreconnectGoogapis h), (hasPreconnectGstatic h);
    rewrite ?app_nil_r; cbn [app]; in_list.
Qed.

(** What [captureHtml] fetches is what its font step fetches. *)
Lemma captureHtml_fetched (E : env) (html : jsstring) (wd ht dsf : jsval)
    (w : world) :
  fetched (trace (captureHtml E html wd ht dsf w).2)
  = fetched (trace (inlineGoogleFonts E (processHtmlForRendering html)
                      (with_browser None w)).2).
Proof.
  remember (captureHtml E html wd ht dsf w) as r eqn:Hrun. revert Hrun.
  unfold captureHtml. unfold bind at 1, modify at 1. unfold try_catch at 1. unfold bind at 1.
  destruct (inlineGoogleFonts_frame E (processHtmlForRendering html) (with_browser None w))
    as (clean & w1 & -> & [Hfs Hop Hnx Hres Htp Hbr _]).
  destruct w1 as [fs1 op1 nx1 tk1 tr1 rs1 tp1 br1].
  cbn in Hfs, Hop, Hnx, Hres, Htp, Hbr. subst.
  run. cbn -[lit lookup insert delete union difference to_string].
  repeat step; intros ->; cbn -[lit lookup insert delete union difference to_string].
  all: unfold fetched; rewrite ?omap_app; cbn -[lit to_string]; by rewrite ?app_nil_r.
Qed.

(** X13: a page that holds no script or iframe opener and nowhere the
    text [https://fonts.googleapis.com/] (in any case of the letters)
    makes the server fetch nothing: the font step returns the
    preprocessed page as it is, without a call, and the capture fetches
    no URL. *)
Theorem X13_no_font_no_fetch (E : env) (h : jsstring) (wd ht dsf : jsval)
    (w : world) :
  no_embed h → test fontsOrigin h = false →
  inlineGoogleFonts E (processHtmlForRendering h) w
  = (Ok (processHtmlForRendering h), w)
  ∧ fetched (trace (captureHtml E h wd ht dsf w).2) = fetched (trace w).
Proof.
  intros Hne Hno.
  assert (exec_all linkRegex 0 None (processHtmlForRendering h) = []) as Hnil.
  { apply exec_all_no_match, linkRegex_needs_origin.
    unfold processHtmlForRendering.
    rewrite no_embed_strip by (by apply no_embed_with_preconnect).
    by apply fontsOrigin_with_preconnect. }
  split.
  - unfold inlineGoogleFonts, try_catch. by rewrite Hnil.
  - rewrite captureHtml_fetched, inlineGoogleFonts_fetched, Hnil. cbn.
    by rewrite app_nil_r.
Qed.

Lemma X13_no_font_no_fetch_witness :
  fetched (trace (captureHtml quiet (lit "<h1>Hi</h1>") JUndefined JUndefined
                    JUndefined (initial_world ∅)).2) = [].
Proof.
  apply (X13_no_font_no_fetch quiet (lit "<h1>Hi</h1>") JUndefined JUndefined
           JUndefined (initial_world ∅)).
  - apply no_embed_hi.
  - by vm_compute.
Defined.
(* ================================================================== *)
(** * Tags that are never closed *)
(* ================================================================== *)

(** A match of a pattern that ends with a literal holds the literal. *)
Lemma ends_with_literal pt rs P p v :
  body pt = seqs (rs ++ [lits P]) →
  is_Some (match_here pt p v) →
  test (Pattern (lits P) (icase pt) 0) v = true.
Proof.
  intros Hb (p' & s' & HM)%match_here_iff. rewrite Hb in HM.
  apply Matches_seqs_app in HM as (p1 & s1 & HM1 & HM2).
  apply Matches_one_inv, Matches_lits_inv in HM2 as (w & -> & F).
  destruct (Matches_suffix _ _ _ _ _ _ HM1) as [u ->].
  apply test_lits_iff. by exists u, w, s'.
Qed.

Lemma closer_needed pt rs P :
  body pt = seqs (rs ++ [lits P]) →
  ∀ s, test (Pattern (lits P) (icase pt) 0) s = false → test pt s = false.
Proof.
  intros Hb s Hno. destruct (test pt s) eqn:Ht; [|done].
  apply search_iff in Ht as (u & v & -> & Hm).
  apply (ends_with_literal pt rs P _ _ Hb) in Hm.
  rewrite <- Hno. symmetry. apply test_app_l; [apply simple_lits|done].
Qed.

(** X14: a script or an iframe that is never closed is not removed: on a
    text that holds neither [</script>] nor [</iframe>] (in any case of
    the letters) the removal changes nothing, and the preprocessing only
    puts in the hints. *)
Theorem X14_unclosed_embeds_stay (h : jsstring) :
  test scriptClose h = false → test iframeClose h = false →
  strip_embeds h = h ∧ processHtmlForRendering h = with_preconnect h.
Proof.
  assert (Hstrip : ∀ t, test scriptClose t = false → test iframeClose t = false →
                        strip_embeds t = t).
  { intros t Hs Hi. unfold strip_embeds.
    rewrite (replace_all_no_match scriptRegex).
    - apply replace_all_no_match.
      by apply (closer_needed iframeRegex
                  [lits (lit "<iframe"); star (notin (lit ">")); lits (lit ">");
                   lazy_star Dot] (lit "</iframe>")).
    - by apply (closer_needed scriptRegex
                  [lits (lit "<script"); WordB; star (notin (lit "<"));
                   star (seqs [NegLook (lits (lit "</script>")); lits (lit "<");
                               star (notin (lit "<"))])] (lit "</script>")). }
  intros Hs Hi. split; [by apply Hstrip|].
  unfold processHtmlForRendering. apply Hstrip.
  - destruct (with_preconnect_shape h) as (a & r & Hh & -> & _).
    rewrite Hh in Hs.
    apply (opener_insert true 47 (lit "script>")); try done.
    + repeat constructor.
    + unfold preconnectLinks.
      by destruct (hasPreconnectGoogapis h), (hasPreconnectGstatic h).
    + unfold preconnectLinks.
      destruct (hasPreconnectGoogapis h), (hasPreconnectGstatic h);
        first [by left | right; by eexists].
  - destruct (with_preconnect_shape h) as (a & r & Hh & -> & _).
    rewrite Hh in Hi.
    apply (opener_insert true 47 (lit "iframe>")); try done.
    + repeat constructor.
    + unfold preconnectLinks.
      by destruct (hasPreconnectGoogapis h), (hasPreconnectGstatic h).
    + unfold preconnectLinks.
      destruct (hasPreconnectGoogapis h), (hasPreconnectGstatic h);
        first [by left | right; by eexists].
Qed.

Lemma X14_unclosed_embeds_stay_witness :
  processHtmlForRendering open_script_html = with_preconnect open_script_html.
Proof.
  apply (X14_unclosed_embeds_stay open_script_html); by vm_compute.
Defined.
(* ================================================================== *)
(** * Dimensions given as text *)
(* ================================================================== *)

Lemma read_digits_codes_suffix d : ∀ acc s,
  unit_suffix s →
  read_digits 10 (Some acc) (uint_codes d ++ s) = Some (uint_val d acc).
Proof.
  induction d; intros acc s Hs; cbn [uint_codes uint_val app read_digits].
  { destruct s as [|c s]; [done|]. destruct Hs as (Hd & _ & _).
    cbn [read_digits]. unfold digit_val. unfold is_digit in Hd. by rewrite Hd. }
  all: cbn [digit_val N.leb N.compare Pos.compare Pos.compare_cont andb N.eqb Pos.eqb N.sub Pos.sub default id];
       cbn; rewrite IHd by done; f_equal; f_equal; lia.
Qed.

Lemma read_digits_start_suffix d s :
  d ≠ Decimal.Nil → unit_suffix s →
  read_digits 10 None (uint_codes d ++ s) = Some (N.of_uint d).
Proof.
  intros Hd Hs. rewrite <- uint_val_of_uint.
  destruct d; [done|..]; cbn [uint_codes read_digits uint_val app];
    cbn; rewrite read_digits_codes_suffix by done; reflexivity.
Qed.

(** parseInt reads the decimal number a text begins with and drops what
    follows it. *)
Lemma parse_int_text (n : N) (s : jsstring) :
  unit_suffix s → parse_int_string (nat_to_string n ++ s) = JNum (Z.of_N n).
Proof.
  intros Hs. unfold nat_to_string.
  assert (N.to_uint n ≠ Decimal.Nil) as Hn.
  { destruct n; [done|]. apply DecimalPos.Unsigned.to_uint_nonnil. }
  pose proof (read_digits_start_suffix _ s Hn Hs) as Hr.
  destruct (parse_digits _ Hn) as (c & s0 & Hc & Hsp & H45 & H43 & H48).
  rewrite Hc in *. cbn [app] in *.
  rewrite (parse_int_unsigned c (s0 ++ s) Hsp H45 H43), Hr.
  { by rewrite DecimalN.Unsigned.of_to. }
  intros Hc48 t. specialize (H48 Hc48). destruct s0 as [|c1 s0]; cbn [app].
  - destruct s as [|c2 s]; [done|]. destruct Hs as (_ & Hx & HX).
    split; intros [= ->]; done.
  - split; intros [= -> _].
    + by destruct (H48 s0).
    + by destruct (H48 s0).
Qed.

(** X15: the simple route reads its dimensions with parseInt: a width or
    height given as text that begins with a decimal number of at most 20
    digits, such as [800px], sets the viewport to the double nearest to
    that number, which up to 2^53 is the number itself. *)
Theorem X15_text_dimensions (E : env) (h : jsval) (n k : N) (sw sh : jsstring)
    (w : world) :
  (∀ i ev, fails E i ev = None) → truthy h = true →
  unit_suffix sw → unit_suffix sh → n < 10 ^ 20 → k < 10 ^ 20 →
  let vps :=
    viewports (trace (api_render E
                        (RenderBody h (JStr (nat_to_string n ++ sw))
                           (JStr (nat_to_string k ++ sh)) JUndefined) w).2) in
  vps = viewports (trace w)
        ++ [Viewport (to_number (JNum (Z.of_N n))) (to_number (JNum (Z.of_N k)))
              JUndefined]
  ∧ (n <= 2 ^ 53 → k <= 2 ^ 53 →
     vps = viewports (trace w)
           ++ [Viewport (JNum (Z.of_N n)) (JNum (Z.of_N k)) JUndefined]).
Proof.
  intros Hok Hh Hsw Hsh Hn Hk. cbn zeta.
  assert (viewports (trace (api_render E
                        (RenderBody h (JStr (nat_to_string n ++ sw))
                           (JStr (nat_to_string k ++ sh)) JUndefined) w).2)
          = viewports (trace w)
            ++ [Viewport (to_number (JNum (Z.of_N n))) (to_number (JNum (Z.of_N k)))
                  JUndefined]) as Hv.
  { remember (api_render E _ w) as r eqn:Hrun. revert Hrun.
    unfold api_render. run. cbn [html width height or_default]. rewrite Hh.
    unfold parseInt. cbn [to_string]. rewrite !parse_int_text by done.
    cbn -[lit lookup insert delete union difference to_number].
    repeat (rewrite !Hok; cbn -[lit lookup insert delete union difference to_number]).
    intros ->. cbn -[lit lookup insert delete union difference to_number].
    unfold viewports. rewrite <- !app_assoc, !omap_app. reflexivity. }
  split; [exact Hv|]. intros Hn' Hk'. rewrite Hv.
  cbn [to_number]. rewrite !to_double_small; [done|..].
  - change (2 ^ 53)%Z with (Z.of_N (2 ^ 53)). lia.
  - change (2 ^ 53)%Z with (Z.of_N (2 ^ 53)). lia.
Qed.

Lemma X15_text_dimensions_witness :
  viewports (trace (api_render quiet
                      (RenderBody (JStr (lit "<h1>Hi</h1>")) (JStr (lit "800px"))
                         (JStr (lit "600")) JUndefined) (initial_world ∅)).2)
  = [Viewport (JNum 800) (JNum 600) JUndefined].
Proof.
  destruct (X15_text_dimensions quiet (JStr (lit "<h1>Hi</h1>")) 800 600
              (lit "px") [] (initial_world ∅)) as [_ H].
  - reflexivity.
  - reflexivity.
  - by vm_compute.
  - exact I.
  - by vm_compute.
  - by vm_compute.
  - apply H; by vm_compute.
Defined.
(* ================================================================== *)
(** * The style tag that takes the place of a link *)
(* ================================================================== *)

(** What a replacement cannot bring in. *)
Lemma replace_scan_avoid pt t (x : N) :
  (∀ p s st' before, match_here pt p s = Some st' → x ∉ s →
     x ∉ get_substitution (take (consumed s st') s) before (rest st') (caps st') t) →
  ∀ s skip before p, x ∉ s → x ∉ replace_scan pt t skip before p s.
Proof.
  intros Hout. induction s as [|c s IH]; intros skip before p Hx.
  - destruct skip; cbn [replace_scan]; [|done].
    destruct (match_here pt p []) as [st'|] eqn:Hm; [|done].
    cbn zeta. by apply (Hout _ _ _ _ Hm).
  - apply not_elem_of_cons in Hx as Hx'. destruct Hx' as [Hc Hs].
    destruct skip as [|n]; cbn [replace_scan]; [|by apply IH].
    destruct (match_here pt p (c :: s)) as [st'|] eqn:Hm.
    + cbn zeta. pose proof (Hout _ _ _ before Hm Hx) as Ho.
      destruct (consumed (c :: s) st').
      * rewrite not_elem_of_app. split; [done|].
        apply not_elem_of_cons. split; [done|by apply IH].
      * rewrite not_elem_of_app. split; [done|by apply IH].
    + apply not_elem_of_cons. split; [done|by apply IH].
Qed.

Lemma substitution_https matched before after g :
  get_substitution matched before after [Some g] (lit "url(https:$1)")
  = lit "url(https:" ++ g ++ lit ")".
Proof. vm_compute. reflexivity. Qed.

(** A stylesheet without [$] gives a style tag without [$]. *)
Lemma styleTag_plain css : 36 ∉ css → 36 ∉ styleTag css.
Proof.
  intros Hcss. unfold styleTag. cbn zeta.
  assert (36 ∉ replace_all gstaticRelative css (lit "url(https:$1)")) as H1.
  { apply replace_scan_avoid; [|done].
    intros p s st' before Hm Hs.
    apply (match_here_group gstaticRelative [lits (lit "url(")]
             (seqs [lits (lit "//fonts.gstatic.com"); plus (notin (lit ")"))])
             [lits (lit ")")])
      in Hm as (a & g & b & p1 & p2 & p3 & Heq & -> & _);
      [|reflexivity..].
    rewrite substitution_https. rewrite Heq in Hs.
    rewrite !not_elem_of_app in Hs. destruct Hs as (_ & Hg & _).
    rewrite !not_elem_of_app. split; [|split; [done|]].
    - apply not_elem_forallb. by vm_compute.
    - apply not_elem_forallb. by vm_compute. }
  rewrite (proj1 (replace_absolute_same _)).
  rewrite !not_elem_of_app. split; [|split; [done|]].
  - apply not_elem_forallb. by vm_compute.
  - apply not_elem_forallb. by vm_compute.
Qed.

(** X16: the success path of the font step.  When the stylesheet of a
    link is fetched and holds no [$], the first place where the text of
    the tag stands in the page is replaced by a style element that holds
    the stylesheet, its protocol-relative font URLs made absolute. *)
Theorem X16_link_replaced_by_style (E : env) (tag href css b a : jsstring)
    (w : world) :
  href_of tag = Some href → href ≠ [] →
  net E (tick w) href = FetchResponse true (Some css) →
  36 ∉ css →
  split_first tag (b ++ tag ++ a) = Some (b, a) →
  (inline_link E (b ++ tag ++ a) tag w).1
  = Ok (b ++ (style_open
              ++ replace_all gstaticRelative css (lit "url(https:$1)")
              ++ style_close) ++ a).
Proof.
  intros Hh Hne Hnet Hcss Hsplit.
  unfold inline_link. rewrite Hh. destruct href as [|c href]; [done|].
  run. rewrite Hnet. cbn -[lit styleTag]. unfold str_replace. rewrite Hsplit.
  rewrite get_substitution_plain by (by apply styleTag_plain).
  unfold styleTag. cbn zeta. by rewrite (proj1 (replace_absolute_same _)).
Qed.

Lemma X16_link_replaced_by_style_witness :
  (inline_link fonts_up (fonts_link ++ lit "<p>Hi</p>") fonts_link
     (initial_world ∅)).1
  = Ok ((style_open
         ++ replace_all gstaticRelative (lit "body{font-family:Roboto}")
              (lit "url(https:$1)")
         ++ style_close) ++ lit "<p>Hi</p>").
Proof.
  apply (X16_link_replaced_by_style fonts_up fonts_link fonts_url
           (lit "body{font-family:Roboto}") [] (lit "<p>Hi</p>") (initial_world ∅)).
  - by vm_compute.
  - discriminate.
  - by vm_compute.
  - apply not_elem_forallb. by vm_compute.
  - by vm_compute.
Defined.
(* ================================================================== *)
(** * What the removal takes out *)
(* ================================================================== *)

(** The text a successful attempt consumed is a match of the pattern. *)
Lemma match_here_text pt p s st' :
  match_here pt p s = Some st' →
  ∃ w p', s = w ++ rest st'
          ∧ take (consumed s st') s = w
          ∧ Matches (icase pt) (body pt) p (w ++ rest st') p' (rest st').
Proof.
  unfold match_here. intros H.
  apply m_sound in H as (p' & s' & c' & HM & [= <-]). cbn [rest].
  destruct (Matches_suffix _ _ _ _ _ _ HM) as [w ->].
  exists w, p'. split; [done|]. split; [|done].
  unfold consumed. cbn [rest]. rewrite length_app.
  replace (_ - _)%nat with (length w) by lia. by rewrite take_app_length.
Qed.

Lemma chr_ok_fixed ic c x :
  c < 65 ∨ 122 < c ∨ (90 < c ∧ c < 97) → chr_ok ic c x = true → x = c.
Proof. intros Hc H%N.eqb_eq. by apply (canon_fixed ic c x). Qed.

(** X18: what the iframe pass removes.  Every text it takes out is an
    opening [<iframe ...>] tag, then units none of which ends a line,
    then [</iframe>]: an iframe whose content runs over a line break is
    not removed. *)
Theorem X18_removed_iframe_shape (p : option N) (s : jsstring) (st' : mstate) :
  match_here iframeRegex p s = Some st' →
  ∃ o x y c,
    take (consumed s st') s = o ++ x ++ [62] ++ y ++ c
    ∧ Forall2 (λ a b, chr_ok true a b = true) (lit "<iframe") o
    ∧ (62 ∉ x)
    ∧ Forall (λ z, line_terminator z = false) y
    ∧ Forall2 (λ a b, chr_ok true a b = true) (lit "</iframe>") c.
Proof.
  intros (w & p' & Hs & -> & HM)%match_here_text.
  change (body iframeRegex)
    with (seqs [lits (lit "<iframe"); star (notin (lit ">")); lits (lit ">");
                lazy_star Dot; lits (lit "</iframe>")]) in HM.
  cbn [icase iframeRegex] in HM.
  rewrite seqs_cons in HM. apply Matches_seq_inv in HM as (p1 & s1 & H1 & HM).
  rewrite seqs_cons in HM. apply Matches_seq_inv in HM as (p2 & s2 & H2 & HM).
  rewrite seqs_cons in HM. apply Matches_seq_inv in HM as (p3 & s3 & H3 & HM).
  rewrite seqs_cons in HM. apply Matches_seq_inv in HM as (p4 & s4 & H4 & HM).
  apply Matches_one_inv in HM.
  apply (Matches_lits_inv true (lit "<iframe")) in H1 as (o & Ho & Fo).
  destruct (Matches_text true (star (notin (lit ">"))) _ _ _ _ eq_refl H2)
    as (x & Hx & Hax & _).
  apply (Matches_lits_inv true (lit ">")) in H3 as (g & Hg & Fg).
  destruct (Matches_text true (lazy_star Dot) _ _ _ _ eq_refl H4)
    as (y & Hy & Hay & _).
  apply (Matches_lits_inv true (lit "</iframe>")) in HM as (c & Hc & Fc).
  assert (g = [62]) as ->.
  { inversion Fg as [|a b ? ? Hab Fg']; subst. inversion Fg'; subst.
    apply chr_ok_fixed in Hab as ->; [done|lia]. }
  exists o, x, y, c. split.
  { apply (app_inv_tail (rest st')).
    rewrite Ho, Hx, Hg, Hy, Hc, <- !app_assoc. done. }
  split; [done|]. split; [by apply Hax|]. split; [|done].
  apply Forall_forall. intros z Hz.
  destruct (line_terminator z) eqn:Hlt; [|done].
  exfalso. by apply (Hay z).
Qed.

Lemma X18_removed_iframe_shape_witness :
  ∃ st' o x y c,
    match_here iframeRegex None (lit "<iframe src=a>b</iframe>c") = Some st'
    ∧ take (consumed (lit "<iframe src=a>b</iframe>c") st')
           (lit "<iframe src=a>b</iframe>c")
      = o ++ x ++ [62] ++ y ++ c
    ∧ Forall (λ z, line_terminator z = false) y.
Proof.
  assert (is_Some (match_here iframeRegex None (lit "<iframe src=a>b</iframe>c")))
    as [st' Hm].
  { vm_compute. by eexists. }
  destruct (X18_removed_iframe_shape None _ st' Hm)
    as (o & x & y & c & H1 & _ & _ & H2 & _).
  by exists st', o, x, y, c.
Defined.

Lemma Matches_neglook_inv ic r p s p' s' :
  Matches ic (NegLook r) p s p' s' →
  p' = p ∧ s' = s ∧ ∀ c, m ic r (MState p s c) Some = None.
Proof. by inversion 1. Qed.

Lemma Matches_wordb_inv ic p s p' s' :
  Matches ic WordB p s p' s' →
  p' = p ∧ s' = s
  ∧ xorb (from_option is_word false p) (from_option is_word false (head s)) = true.
Proof. by inversion 1. Qed.

(** No text of the literal stands where a lookahead for it failed. *)
Lemma no_literal_at ic P p s :
  (∀ c, m ic (lits P) (MState p s c) Some = None) →
  ∀ w t, s = w ++ t → Forall2 (λ a b, chr_ok ic a b = true) P w → False.
Proof.
  intros Hno w t -> F.
  destruct (Matches_lits ic P w p t F) as [p' HM].
  destruct (m_complete ic _ _ _ _ _ HM [] Some) as [x Hx]; [by eexists|].
  by rewrite Hno in Hx.
Qed.

Lemma script_round_shape p s p' s' :
  Matches true script_round p s p' s' →
  ∃ y, s = 60 :: y ++ s' ∧ (60 ∉ y)
       ∧ ∀ c, m true (lits (lit "</script>")) (MState p s c) Some = None.
Proof.
  unfold script_round. rewrite seqs_cons.
  intros (p1 & s1 & H1 & HM)%Matches_seq_inv.
  apply Matches_neglook_inv in H1 as (-> & -> & Hno).
  rewrite seqs_cons in HM. apply Matches_seq_inv in HM as (p2 & s2 & H2 & HM).
  apply Matches_one_inv in HM.
  apply (Matches_lits_inv true (lit "<")) in H2 as (g & -> & Fg).
  destruct (Matches_text true (star (notin (lit "<"))) _ _ _ _ eq_refl HM)
    as (y & -> & Hay & _).
  inversion Fg as [|a b ? ? Hab Fg']; subst. inversion Fg'; subst.
  apply chr_ok_fixed in Hab as ->; [|lia].
  exists y. split; [done|]. split; [by apply Hay|done].
Qed.

(** No [</script>] begins inside the rounds of the middle. *)
Lemma script_rounds_no_closer g p s p' s' :
  Matches true (Star g script_round) p s p' s' →
  ∀ u c t, s = u ++ c ++ t →
    Forall2 (λ a b, chr_ok true a b = true) (lit "</script>") c →
    (length u < length s - length s')%nat → False.
Proof.
  remember (Star g script_round) as r eqn:Hr.
  induction 1 as [| | | | |g0 r0 p s|g0 r0 p s p1 s1 p2 s2 HM1 _ Hlen HM2 IH| | |];
    try discriminate Hr; intros u c t Hs Fc Hu.
  { lia. }
  injection Hr as -> ->. specialize (IH eq_refl).
  apply script_round_shape in HM1 as (y & Hy & H60 & Hno).
  apply Matches_length in HM2.
  destruct u as [|z u].
  { by apply (no_literal_at true _ p s Hno c t). }
  assert (∃ c', c = 60 :: c') as [c' ->].
  { inversion Fc as [|a b ? ? Hab Fc']; subst.
    apply chr_ok_fixed in Hab as ->; [by eexists|lia]. }
  rewrite Hy in Hs. cbn [app] in Hs. injection Hs as <- Hs.
  apply app_eq_inv in Hs as [(k & Hk1 & Hk2)|(k & Hk1 & Hk2)].
  - destruct k as [|x k]; cbn [app] in Hk2.
    + apply (IH [] (60 :: c') t); [done|done|].
      rewrite Hy in Hu. cbn [length] in Hu. rewrite length_app in Hu.
      rewrite app_nil_r in Hk1. subst y. cbn [length]. lia.
    + injection Hk2 as <- Hk2. apply H60. rewrite Hk1.
      apply elem_of_app. right. by left.
  - apply (IH k (60 :: c') t); [done|done|].
    rewrite Hy in Hu. cbn [length] in Hu. rewrite length_app in Hu.
    rewrite Hk1, length_app in Hu. lia.
Qed.

Lemma Matches_lits_prev ic P : ∀ p s p' s',
  P ≠ [] → Matches ic (lits P) p s p' s' →
  ∃ a x, Forall2 (λ c y, chr_ok ic c y = true) P (a ++ [x]) ∧ p' = Some x.
Proof.
  induction P as [|c P IH]; intros p s p' s' HP; [done|].
  cbn [lits fold_right]. intros (p1 & s1 & H1 & H2)%Matches_seq_inv.
  inversion H1 as [c0 p0 x s0 Hcx| | | | | | | | |]; subst.
  destruct P as [|c2 P].
  - apply Matches_eps_inv in H2 as [-> ->].
    exists [], x. split; [by repeat constructor|done].
  - destruct (IH (Some x) s1 p' s') as (a & z & F & ->); [done|done|].
    exists (x :: a), z. split; [by constructor|done].
Qed.

Lemma same_length_occurrence {A} (c c' j t : list A) :
  c = j ++ c' ++ t → length c = length c' → j = [] ∧ t = [].
Proof.
  intros -> H. rewrite !length_app in H.
  destruct j, t; cbn [length] in H; try lia. done.
Qed.

(** X19: what the script pass removes.  Every text it takes out begins
    with [<script] (in any case of the letters) not followed by a letter,
    digit or underscore, and ends with the first [</script>] after it:
    no other [</script>] stands in the text removed. *)
Theorem X19_removed_script_shape (p : option N) (s : jsstring) (st' : mstate) :
  match_here scriptRegex p s = Some st' →
  ∃ o mid c,
    take (consumed s st') s = o ++ mid ++ c
    ∧ Forall2 (λ a b, chr_ok true a b = true) (lit "<script") o
    ∧ Forall2 (λ a b, chr_ok true a b = true) (lit "</script>") c
    ∧ from_option is_word false (head (mid ++ c)) = false
    ∧ ∀ u c' t, mid ++ c = u ++ c' ++ t →
        Forall2 (λ a b, chr_ok true a b = true) (lit "</script>") c' →
        u = mid ∧ t = [].
Proof.
  intros (w & p' & Hs & -> & HM)%match_here_text.
  change (body scriptRegex)
    with (seqs [lits (lit "<script"); WordB; star (notin (lit "<"));
                Star true script_round; lits (lit "</script>")]) in HM.
  cbn [icase scriptRegex] in HM.
  rewrite seqs_cons in HM. apply Matches_seq_inv in HM as (p1 & s1 & H1 & HM).
  rewrite seqs_cons in HM. apply Matches_seq_inv in HM as (p2 & s2 & H2 & HM).
  rewrite seqs_cons in HM. apply Matches_seq_inv in HM as (p3 & s3 & H3 & HM).
  rewrite seqs_cons in HM. apply Matches_seq_inv in HM as (p4 & s4 & H4 & HM).
  apply Matches_one_inv in HM.
  assert (lit "<script" ≠ []) as Hne by (by vm_compute).
  pose proof (Matches_lits_prev true _ _ _ _ _ Hne H1) as (a & x & Fa & ->).
  apply (Matches_lits_inv true (lit "<script")) in H1 as (o & Ho & Fo).
  apply Matches_wordb_inv in H2 as (-> & -> & Hwb).
  destruct (Matches_text true (star (notin (lit "<"))) _ _ _ _ eq_refl H3)
    as (y & Hy & Hay & _).
  destruct (Matches_suffix _ _ _ _ _ _ H4) as [z Hz].
  apply (Matches_lits_inv true (lit "</script>")) in HM as (c & Hc & Fc).
  assert (60 ∉ y) as Hy60 by (by apply Hay).
  exists o, (y ++ z), c. split.
  { apply (app_inv_tail (rest st')).
    rewrite Ho, Hy, Hz, Hc, <- !app_assoc. done. }
  split; [done|]. split; [done|]. split.
  { (* the unit before the boundary is the [t] of the opener *)
    assert (is_word x = true) as Hx.
    { apply Forall2_app_inv_r in Fa as (P1 & P2 & _ & F2 & HP).
      inversion F2 as [|c0 ? ? ? Hc0 F2']; subst. inversion F2'; subst.
      assert (P1 = lit "<scrip" ∧ c0 = 116) as [_ ->].
      { clear -HP. apply (app_inj_tail_iff (lit "<scrip") P1 116 c0) in HP.
        by destruct HP. }
      unfold chr_ok in Hc0. apply N.eqb_eq in Hc0. change (canon true 116) with 84 in Hc0.
      unfold canon in Hc0. cbn [andb] in Hc0.
      destruct ((97 <=? x) && (x <=? 122)) eqn:E.
      - apply andb_true_iff in E as [E1%N.leb_le E2%N.leb_le].
        assert (x = 116) as -> by lia. done.
      - subst x. done. }
    cbn [from_option] in Hwb. rewrite Hx in Hwb. cbn [xorb] in Hwb.
    apply negb_true_iff in Hwb. rewrite Hy, Hz, Hc in Hwb.
    apply Forall2_length in Fc. destruct c as [|c0 c]; [done|].
    rewrite <- app_assoc.
    destruct y as [|y0 y]; [|exact Hwb].
    destruct z as [|z0 z]; exact Hwb. }
  intros u c' t Heq Fc'.
  assert (∃ c'', c' = 60 :: c'') as [c'' ->].
  { inversion Fc' as [|a0 b0 ? ? Hab Fc'']; subst.
    apply chr_ok_fixed in Hab as ->; [by eexists|lia]. }
  assert (Hstar : ∀ k t0, z ++ c ++ rest st' = k ++ (60 :: c'') ++ t0 →
                          (length k < length z)%nat → False).
  { intros k t0 Hk Hlt.
    apply (script_rounds_no_closer true _ _ _ _ H4 k (60 :: c'') t0);
      [by rewrite Hz, Hc|done|].
    rewrite Hz, length_app. lia. }
  assert (Hlen : length c = length (60 :: c'')).
  { apply Forall2_length in Fc, Fc'. congruence. }
  rewrite <- app_assoc in Heq.
  apply app_eq_inv in Heq as [(k & Hk1 & Hk2)|(k & Hk1 & Hk2)].
  - (* the occurrence begins in [y] or at its end *)
    destruct k as [|x0 k]; cbn [app] in Hk2.
    + rewrite app_nil_r in Hk1. subst u.
      destruct z as [|z0 z].
      * rewrite app_nil_r. split; [done|].
        by destruct (same_length_occurrence c (60 :: c'') [] t).
      * exfalso. apply (Hstar [] (t ++ rest st')); [|cbn; lia].
        rewrite (app_assoc (z0 :: z) c), <- Hk2. cbn [app].
        by rewrite <- app_assoc.
    + injection Hk2 as <- Hk2. exfalso. apply Hy60. rewrite Hk1.
      apply elem_of_app. right. by left.
  - apply app_eq_inv in Hk2 as [(j & Hj1 & Hj2)|(j & Hj1 & Hj2)].
    + destruct j as [|j0 j].
      * rewrite app_nil_r in Hj1. subst k. split; [done|].
        by destruct (same_length_occurrence c (60 :: c'') [] t).
      * exfalso. apply (Hstar k (t ++ rest st')).
        -- rewrite Hj1, <- (app_assoc k). f_equal.
           rewrite (app_assoc (j0 :: j) c), <- Hj2. cbn [app].
           by rewrite <- app_assoc.
        -- rewrite Hj1, length_app. cbn [length]. lia.
    + destruct (same_length_occurrence c (60 :: c'') j t) as [-> ->]; [done..|].
      rewrite app_nil_r in Hj1. by subst k.
Qed.

Lemma X19_removed_script_shape_witness :
  ∃ st' o mid c,
    match_here scriptRegex None (lit "<script>a()</script><p>") = Some st'
    ∧ take (consumed (lit "<script>a()</script><p>") st')
           (lit "<script>a()</script><p>")
      = o ++ mid ++ c
    ∧ Forall2 (λ a b, chr_ok true a b = true) (lit "</script>") c.
Proof.
  assert (is_Some (match_here scriptRegex None (lit "<script>a()</script><p>")))
    as [st' Hm].
  { vm_compute. by eexists. }
  destruct (X19_removed_script_shape None _ st' Hm)
    as (o & mid & c & H1 & _ & H2 & _).
  by exists st', o, mid, c.
Defined.
(* ================================================================== *)
(** * Where the hints go, and when a second pass changes nothing *)
(* ================================================================== *)

(** X20: the hints that the input lacks are put in at one place, before
    the first [</head>] or in front when there is none; the text put in is
    [preconnectLinks], which holds a hint only when the check for it fails
    on the input; after that step both checks find their hint; and for
    an input that holds neither [<script] nor [<iframe] both checks find
    their hint in the output of the preprocessing. *)
Theorem X20_hints_placement (h : jsstring) :
  (∃ a r, h = a ++ r
     ∧ with_preconnect h = a ++ preconnectLinks h ++ r
     ∧ ((a = [] ∧ includes h head_close = false)
        ∨ (a = [] ∧ preconnectLinks h = [])
        ∨ (∃ b, r = head_close ++ b
                ∧ ∀ a' b', h = a' ++ head_close ++ b' → (length a <= length a')%nat)))
  ∧ preconnectLinks h
    = (if hasPreconnectGoogapis h then [] else link_googleapis)
      ++ (if hasPreconnectGstatic h then [] else link_gstatic)
  ∧ hasPreconnectGoogapis (with_preconnect h) = true
  ∧ hasPreconnectGstatic (with_preconnect h) = true
  ∧ (no_embed h →
     processHtmlForRendering h = with_preconnect h
     ∧ hasPreconnectGoogapis (processHtmlForRendering h) = true
     ∧ hasPreconnectGstatic (processHtmlForRendering h) = true).
Proof.
  split; [apply with_preconnect_place|]. split; [done|].
  destruct (with_preconnect_has_both h) as [HG HS].
  split; [done|]. split; [done|].
  intros Hne. pose proof (no_embed_with_preconnect h Hne) as Hne'.
  unfold processHtmlForRendering. rewrite (no_embed_strip _ Hne'). done.
Qed.

Lemma X20_hints_placement_witness :
  processHtmlForRendering (lit "<h1>Hi</h1>") = with_preconnect (lit "<h1>Hi</h1>").
Proof.
  pose proof (X20_hints_placement (lit "<h1>Hi</h1>")) as (_ & _ & _ & _ & H).
  exact (proj1 (H no_embed_hi)).
Defined.

(** A match of a pattern that starts with a literal is not empty. *)
Lemma match_not_empty pt P rs p s st' :
  body pt = seqs (lits P :: rs) → P ≠ [] →
  match_here pt p s = Some st' → (0 < consumed s st')%nat.
Proof.
  intros Hb HP (w & p' & Hs & _ & HM)%match_here_text.
  rewrite Hb, seqs_cons in HM.
  apply Matches_seq_inv in HM as (p1 & s1 & H1 & H2).
  apply Matches_lits_inv in H1 as (o & Ho & F).
  apply Matches_length in H2. apply Forall2_length in F.
  apply (f_equal length) in Ho. rewrite !length_app in Ho.
  unfold consumed. rewrite Hs at 1. rewrite length_app.
  destruct P; [done|]. cbn in F. lia.
Qed.

(** Where the pattern matches somewhere, the replacement by nothing
    makes the text shorter. *)
Lemma replace_scan_shorter pt :
  (∀ p s st', match_here pt p s = Some st' → (0 < consumed s st')%nat) →
  ∀ s before p, search pt p s = true →
  (length (replace_scan pt [] 0 before p s) < length s)%nat.
Proof.
  intros Hpos. induction s as [|c s IH]; intros before p; cbn [search replace_scan].
  - destruct (match_here pt p []) as [st'|] eqn:Hm; [|done].
    apply Hpos in Hm. unfold consumed in Hm. cbn in Hm. lia.
  - destruct (match_here pt p (c :: s)) as [st'|] eqn:Hm.
    + intros _. apply Hpos in Hm. cbn [get_substitution app].
      destruct (consumed (c :: s) st') as [|n]; [lia|].
      pose proof (sublist_length _ _
                    (replace_scan_sublist pt s n (before ++ [c]) (Some c))).
      cbn [length]. lia.
    + intros Hs. specialize (IH (before ++ [c]) (Some c) Hs). cbn [length]. lia.
Qed.

Lemma replace_all_shorter pt P rs s :
  body pt = seqs (lits P :: rs) → P ≠ [] → test pt s = true →
  (length (replace_all pt s []) < length s)%nat.
Proof.
  intros Hb HP Ht. apply replace_scan_shorter; [|done].
  intros p s0 st'. by apply (match_not_empty pt P rs).
Qed.

Lemma strip_embeds_fixed (t : jsstring) :
  strip_embeds t = t ↔ test scriptRegex t = false ∧ test iframeRegex t = false.
Proof.
  unfold strip_embeds. split.
  - intros Heq.
    destruct (test scriptRegex t) eqn:Hs.
    { assert (length (replace_all scriptRegex t []) < length t)%nat as H1
        by (by eapply (replace_all_shorter scriptRegex (lit "<script"));
            [reflexivity| |]).
      pose proof (sublist_length _ _
                    (replace_scan_sublist iframeRegex
                       (replace_all scriptRegex t []) 0 [] None)) as H2.
      apply (f_equal length) in Heq. unfold replace_all in *. lia. }
    rewrite (replace_all_no_match _ _ _ Hs) in Heq.
    destruct (test iframeRegex t) eqn:Hi; [|done].
    assert (length (replace_all iframeRegex t []) < length t)%nat as H1
      by (by eapply (replace_all_shorter iframeRegex (lit "<iframe"));
          [reflexivity| |]).
    apply (f_equal length) in Heq. lia.
  - intros [Hs Hi]. by rewrite (replace_all_no_match _ _ _ Hs), (replace_all_no_match _ _ _ Hi).
Qed.

(** X21: when a second pass changes nothing.  A text in which both
    checks find their hint is left as it is by the preprocessing exactly
    if neither the script pattern nor the iframe pattern matches in it;
    so, whenever both checks find their hint in the output of a first
    pass, a second pass gives the same text exactly if the first pass left
    nothing for the two patterns to match.  An input that holds neither
    [<script] nor [<iframe] is such a case. *)
Theorem X21_second_pass_fixed (h t : jsstring) :
  (hasPreconnectGoogapis t = true → hasPreconnectGstatic t = true →
   (processHtmlForRendering t = t
    ↔ test scriptRegex t = false ∧ test iframeRegex t = false))
  ∧ (hasPreconnectGoogapis (processHtmlForRendering h) = true →
     hasPreconnectGstatic (processHtmlForRendering h) = true →
     (processHtmlForRendering (processHtmlForRendering h)
      = processHtmlForRendering h
      ↔ test scriptRegex (processHtmlForRendering h) = false
        ∧ test iframeRegex (processHtmlForRendering h) = false))
  ∧ (no_embed h →
     processHtmlForRendering (processHtmlForRendering h)
     = processHtmlForRendering h).
Proof.
  assert (∀ t, hasPreconnectGoogapis t = true → hasPreconnectGstatic t = true →
               (processHtmlForRendering t = t
                ↔ test scriptRegex t = false ∧ test iframeRegex t = false)) as Hfix.
  { intros t0 HG HS. unfold processHtmlForRendering.
    assert (with_preconnect t0 = t0) as ->.
    { unfold with_preconnect, preconnectLinks. by rewrite HG, HS. }
    apply strip_embeds_fixed. }
  split; [apply Hfix|]. split; [apply Hfix|].
  intros Hne. pose proof (no_embed_with_preconnect h Hne) as Hne'.
  destruct (with_preconnect_has_both h) as [HG HS].
  assert (processHtmlForRendering h = with_preconnect h) as ->.
  { unfold processHtmlForRendering. by apply no_embed_strip. }
  apply Hfix; [done|done|]. by apply no_embed_no_match.
Qed.

Lemma X21_second_pass_fixed_witness :
  processHtmlForRendering
    (processHtmlForRendering (lit "<p>a</p><script>x()</script>"))
  = processHtmlForRendering (lit "<p>a</p><script>x()</script>").
Proof.
  pose proof (X21_second_pass_fixed (lit "<p>a</p><script>x()</script>") [])
    as (_ & H & _).
  apply H; [by vm_compute|by vm_compute|]. split; by vm_compute.
Defined.
